(** * nginx-prometheus-exporter: configuration-aware health and freshness collector

    A shallow embedding of the Go sources

      - [src/client/helpers.go]: [findAllUpstreamServers], [tcpTest];
      - [src/client/nginx.go]: [GetStubStats], [parseStubStats],
        [GetCustomStats];
      - [src/exporter.go], its part in package [main]:
        [positiveDuration.Set], [parsePositiveDuration],
        [parseUnixSocketAddress], the rewriting of deprecated flags in
        [main], the address handling of [registerCollector],
        [userAgentRoundTripper.RoundTrip], [cloneRequest],
        [convertFlagToEnvar];
      - [src/exporter.go], its part in package [collector]:
        [newGlobalMetric], [newUpMetric], [MergeLabels],
        [extractProxyTarget], [findUpstreamServers], [tcpTest];
      - [src/collector/nginx.go] and [src/unnamed/part_000]: the three
        revisions of [NewNginxCollector], [NginxCollector.Describe] and
        [NginxCollector.Collect].

    Go strings are byte sequences and are modelled as [list ascii]; the
    patterns and the scanner work on bytes, which agrees with Go on valid
    UTF-8 text.  The operating system (file system, TCP dialer, HTTP
    transport) is a record of oracles, [World]; every theorem quantifies
    over all worlds.  Metric values are the integers the code converts to
    floating point.  The packages [strings], [regexp], [fmt] and [strconv]
    of the Go standard library and the descriptors of the Prometheus client
    library are modelled as far as the program uses them. *)

From Stdlib Require Import ZArith List Ascii String Bool Lia.
From stdpp Require Import gmap strings.
Import ListNotations.

Abbreviation gostring := (list ascii).

(** [b "text"] is the Go string literal ["text"]. *)
Definition b (s : string) : gostring := list_ascii_of_string s.

(* ===================================================================== *)
(** ** Package [strings] *)
(* ===================================================================== *)

Module Strings.

Fixpoint HasPrefix (s prefix : gostring) {struct prefix} : bool :=
  match prefix, s with
  | [], _ => true
  | p :: prefix', c :: s' => Ascii.eqb c p && HasPrefix s' prefix'
  | _ :: _, [] => false
  end.

Definition HasSuffix (s suffix : gostring) : bool :=
  HasPrefix (rev s) (rev suffix).

Fixpoint Contains (s substr : gostring) : bool :=
  HasPrefix s substr ||
  match s with
  | [] => false
  | _ :: s' => Contains s' substr
  end.

Definition TrimPrefix (s prefix : gostring) : gostring :=
  if HasPrefix s prefix then skipn (length prefix) s else s.

(** Byte value of a character. *)
Definition byte (c : ascii) : N := N_of_ascii c.

(** Width in bytes of a white-space rune at the head of [s], if there is one.
    Go's white space ([unicode.IsSpace], and the table of package [fmt]) is
    U+0009..U+000D, U+0020, U+0085, U+00A0, U+1680, U+2000..U+200A, U+2028,
    U+2029, U+202F, U+205F and U+3000, here in their UTF-8 encodings. *)
Definition spaceWidth (s : gostring) : option nat :=
  match s with
  | [] => None
  | c0 :: t0 =>
    let x0 := byte c0 in
    if ((9 <=? x0) && (x0 <=? 13) || (x0 =? 32))%N then Some 1 else
    match t0 with
    | [] => None
    | c1 :: t1 =>
      let x1 := byte c1 in
      if ((x0 =? 194) && ((x1 =? 133) || (x1 =? 160)))%N then Some 2 else
      match t1 with
      | [] => None
      | c2 :: _ =>
        let x2 := byte c2 in
        if ((x0 =? 225) && (x1 =? 154) && (x2 =? 128))%N then Some 3
        else if ((x0 =? 226) && (x1 =? 128) &&
                 ((128 <=? x2) && (x2 <=? 138) || (x2 =? 168) || (x2 =? 169)
                  || (x2 =? 175)))%N then Some 3
        else if ((x0 =? 226) && (x1 =? 129) && (x2 =? 159))%N then Some 3
        else if ((x0 =? 227) && (x1 =? 128) && (x2 =? 128))%N then Some 3
        else None
      end
    end
  end.

(** The same for a white-space rune at the end; [r] is the string reversed. *)
Definition spaceWidthRev (r : gostring) : option nat :=
  match r with
  | c0 :: t0 =>
    if match spaceWidth [c0] with Some 1 => true | _ => false end then Some 1
    else
      match t0 with
      | c1 :: t1 =>
        if match spaceWidth [c1; c0] with Some 2 => true | _ => false end
        then Some 2
        else
          match t1 with
          | c2 :: _ =>
            if match spaceWidth [c2; c1; c0] with Some 3 => true | _ => false end
            then Some 3 else None
          | [] => None
          end
      | [] => None
      end
  | [] => None
  end.

Fixpoint trimLeftSpace (fuel : nat) (s : gostring) : gostring :=
  match fuel with
  | O => s
  | S fuel' =>
    match spaceWidth s with
    | Some w => trimLeftSpace fuel' (skipn w s)
    | None => s
    end
  end.

Fixpoint trimRightSpaceRev (fuel : nat) (r : gostring) : gostring :=
  match fuel with
  | O => r
  | S fuel' =>
    match spaceWidthRev r with
    | Some w => trimRightSpaceRev fuel' (skipn w r)
    | None => r
    end
  end.

(** [strings.TrimSpace]: all leading and trailing white space removed. *)
Definition TrimSpace (s : gostring) : gostring :=
  let l := trimLeftSpace (length s) s in
  rev (trimRightSpaceRev (length l) (rev l)).

(** [strings.Index]: the offset of the first occurrence of [substr]. *)
Fixpoint Index (s substr : gostring) : option nat :=
  if HasPrefix s substr then Some 0
  else match s with
       | [] => None
       | _ :: s' => option_map S (Index s' substr)
       end.

(** The loop of [strings.genSplit]: cut at each occurrence of the separator,
    from the left. *)
Fixpoint splitLoop (fuel : nat) (s sep : gostring) : list gostring :=
  match fuel with
  | O => [s]
  | S fuel' =>
    match Index s sep with
    | None => [s]
    | Some m => firstn m s :: splitLoop fuel' (skipn (m + length sep) s) sep
    end
  end.

(** [strings.Split].  With the empty separator Go cuts after each UTF-8
    sequence; the model cuts after each byte, which is the same on ASCII
    text.  The program splits on [":"] only. *)
Definition Split (s sep : gostring) : list gostring :=
  match sep with
  | [] => map (fun c => [c]) s
  | _ :: _ => splitLoop (length s) s sep
  end.

(** Upper case of an ASCII letter; other bytes stay. *)
Definition upper (c : ascii) : ascii :=
  let x := byte c in
  if ((97 <=? x) && (x <=? 122))%N then ascii_of_N (x - 32) else c.

(** [strings.ToUpper] on ASCII text, where Go maps byte by byte.  Text with
    a byte above 127 goes through the Unicode tables in Go, which the model
    leaves out. *)
Definition ToUpper (s : gostring) : gostring := map upper s.

(** The loop of [strings.Replace] with [n = -1]: occurrences are replaced
    from the left and do not overlap. *)
Fixpoint replaceLoop (fuel : nat) (s old new : gostring) : gostring :=
  match fuel with
  | O => s
  | S fuel' =>
    match s with
    | [] => []
    | c :: s' =>
      if HasPrefix s old
      then new ++ replaceLoop fuel' (skipn (length old) s) old new
      else c :: replaceLoop fuel' s' old new
    end
  end.

(** [strings.ReplaceAll].  With the empty [old] the new text goes before
    each character and at the end (bytes here, runes in Go). *)
Definition ReplaceAll (s old new : gostring) : gostring :=
  match old with
  | [] => new ++ flat_map (fun c => c :: new) s
  | _ :: _ => replaceLoop (length s) s old new
  end.

End Strings.

(* ===================================================================== *)
(** ** The outside world *)
(* ===================================================================== *)

(** [os.FileInfo]: base name and modification time (Unix seconds). *)
Record FileInfo := { fiName : gostring; fiModTime : Z }.

(** One invocation of the [fs.WalkDirFunc] callback by [filepath.WalkDir]:
    the path, whether the entry is a directory, and whether [err != nil]. *)
Record WalkCall := { wcPath : gostring; wcIsDir : bool; wcErr : bool }.

(** Outcome of [net.DialTimeout]: an error, a connection, or neither. *)
Inductive DialResult :=
| DialErr
| DialConn (conn : nat)
| DialNone.

(** Outcome of [http.Client.Do] followed by [io.ReadAll] of the body. *)
Inductive HttpResult :=
| HttpTransportErr
| HttpResponse (status : Z) (body : option gostring).

Record World := {
  wStat        : gostring -> option FileInfo;          (* os.Stat *)
  wReadFile    : gostring -> option gostring;          (* os.ReadFile *)
  wWalkDir     : gostring -> list WalkCall;            (* filepath.WalkDir *)
  wConfDir     : gostring -> gostring;  (* filepath.Join(filepath.Dir(p), "conf.d") *)
  wDial        : gostring -> Z -> DialResult;          (* net.DialTimeout("tcp", addr, secs) *)
  wNewRequest  : gostring -> bool;                     (* http.NewRequestWithContext succeeds *)
  wHttpGet     : gostring -> HttpResult                (* httpClient.Do + io.ReadAll *)
}.

(** Network effects, in program order. *)
Inductive NetEvent :=
| EvDial (addr : gostring) (secs : Z)
| EvClose (conn : nat).

(** Go's [error] interface value: [None] is [nil]. *)
Abbreviation error := (option gostring).

(* ===================================================================== *)
(** ** Package [regexp] *)
(* ===================================================================== *)

(** Go's [regexp] finds the leftmost match and, among the matches starting
    there, the one a backtracking search finds first.  The matcher below is
    that backtracking search, in continuation-passing style.  Matching is
    byte-wise, which on valid UTF-8 text agrees with Go's rune-wise matching
    for the patterns of this program (their literals and class bounds are
    ASCII).  No pattern of the program has a starred expression that matches
    the empty string; an iteration that consumes nothing is cut off. *)

Module Regexp.

Inductive regex :=
| Empty
| Lit (c : ascii)
| Class (p : ascii -> bool)
| Cat (r1 r2 : regex)
| Alt (r1 r2 : regex)
| Star (greedy : bool) (r : regex)
| Group (i : nat) (r : regex)
| BeginText
| EndText.

(** Capture registers, most recent binding first. *)
Definition caps := list (nat * gostring).

Fixpoint capture (i : nat) (cs : caps) : gostring :=
  match cs with
  | [] => []
  | (j, v) :: cs' => if Nat.eqb i j then v else capture i cs'
  end.

Definition orelse {A} (x y : option A) : option A :=
  match x with
  | Some a => Some a
  | None => y
  end.

(** The iteration of a starred expression: [body] matches the starred
    expression once.  A greedy star tries another round first and stops
    otherwise; a lazy star ([*?]) stops first and tries another round
    otherwise. *)
Fixpoint starLoop {A}
    (body : nat -> gostring -> caps ->
            (nat -> gostring -> caps -> option A) -> option A)
    (greedy : bool) (k : nat -> gostring -> caps -> option A)
    (fuel : nat) (pos : nat) (s : gostring) (cs : caps) : option A :=
  match fuel with
  | O => k pos s cs
  | S fuel' =>
    let again :=
      body pos s cs (fun pos' s' cs' =>
        if Nat.ltb pos pos' then starLoop body greedy k fuel' pos' s' cs'
        else None) in
    if greedy then orelse again (k pos s cs)
    else orelse (k pos s cs) again
  end.

(** [run r pos s cs k]: match [r] at offset [pos], where [s] is the text from
    [pos] on; [k] continues with the offset, text and captures after it. *)
Fixpoint run {A} (r : regex) (pos : nat) (s : gostring) (cs : caps)
    (k : nat -> gostring -> caps -> option A) : option A :=
  match r with
  | Empty => k pos s cs
  | Lit c =>
    match s with
    | c' :: s' => if Ascii.eqb c' c then k (S pos) s' cs else None
    | [] => None
    end
  | Class p =>
    match s with
    | c' :: s' => if p c' then k (S pos) s' cs else None
    | [] => None
    end
  | Cat r1 r2 => run r1 pos s cs (fun pos' s' cs' => run r2 pos' s' cs' k)
  | Alt r1 r2 => orelse (run r1 pos s cs k) (run r2 pos s cs k)
  | Star greedy r1 => starLoop (run r1) greedy k (S (length s)) pos s cs
  | Group i r1 =>
    run r1 pos s cs (fun pos' s' cs' =>
      k pos' s' ((i, firstn (pos' - pos) s) :: cs'))
  | BeginText => if Nat.eqb pos 0 then k pos s cs else None
  | EndText =>
    match s with
    | [] => k pos s cs
    | _ :: _ => None
    end
  end.

(** Derived forms. *)
Definition Plus (r : regex) : regex := Cat r (Star true r).
Definition Opt (r : regex) : regex := Alt r Empty.
Fixpoint Lits (l : gostring) : regex :=
  match l with
  | [] => Empty
  | c :: l' => Cat (Lit c) (Lits l')
  end.
Fixpoint Cats (rs : list regex) : regex :=
  match rs with
  | [] => Empty
  | [r] => r
  | r :: rs' => Cat r (Cats rs')
  end.

(** Number of capturing groups ([Regexp.NumSubexp]). *)
Fixpoint numSubexp (r : regex) : nat :=
  match r with
  | Cat r1 r2 | Alt r1 r2 => numSubexp r1 + numSubexp r2
  | Star _ r1 => numSubexp r1
  | Group _ r1 => S (numSubexp r1)
  | _ => 0
  end.

(** A match: where it starts, its text, the text after it, the captures. *)
Record found := {
  fStart : nat;
  fText  : gostring;
  fRest  : gostring;
  fCaps  : caps
}.

(** The continuation of a search: report where the match ended. *)
Definition report (pos : nat) (s : gostring) (cs : caps)
    : option (nat * gostring * caps) := Some (pos, s, cs).

(** Leftmost match at or after offset [pos]. *)
Fixpoint search (r : regex) (pos : nat) (s : gostring) : option found :=
  match run r pos s [] report with
  | Some (pos', s', cs) =>
    Some {| fStart := pos; fText := firstn (pos' - pos) s; fRest := s'; fCaps := cs |}
  | None =>
    match s with
    | [] => None
    | _ :: s' => search r (S pos) s'
    end
  end.

(** The slice a [...Submatch] method returns: the match, then each group. *)
Definition submatches (r : regex) (f : found) : list gostring :=
  fText f :: map (fun i => capture i (fCaps f)) (seq 1 (numSubexp r)).

Definition MatchString (r : regex) (s : gostring) : bool :=
  match search r 0 s with
  | Some _ => true
  | None => false
  end.

(** [nil] (the empty slice) when there is no match. *)
Definition FindStringSubmatch (r : regex) (s : gostring) : list gostring :=
  match search r 0 s with
  | Some f => submatches r f
  | None => []
  end.

(** The loop of [Regexp.allMatches] with [n = -1]: [pos] is the offset the
    next search starts at, [s] the text from there, [prevEnd] the end of the
    previous match. *)
Fixpoint allMatches (fuel : nat) (r : regex) (pos : nat) (s : gostring)
    (prevEnd : option nat) : list (list gostring) :=
  match fuel with
  | O => []
  | S fuel' =>
    match search r pos s with
    | None => []
    | Some f =>
      let mend := fStart f + length (fText f) in
      if Nat.eqb mend pos then
        (* an empty match at [pos]: dropped if it touches the previous
           match; the search moves on by one character *)
        let accept := match prevEnd with
                      | Some e => negb (Nat.eqb (fStart f) e)
                      | None => true
                      end in
        let tl := match s with
                  | [] => []
                  | _ :: s' => allMatches fuel' r (S pos) s' (Some mend)
                  end in
        if accept then submatches r f :: tl else tl
      else
        submatches r f :: allMatches fuel' r mend (fRest f) (Some mend)
    end
  end.

Definition FindAllStringSubmatch (r : regex) (s : gostring) : list (list gostring) :=
  allMatches (S (length s)) r 0 s None.

(** Character classes. *)
Definition isPerlSpace (c : ascii) : bool :=      (* \s = [\t\n\f\r ] *)
  let x := Strings.byte c in
  ((x =? 9) || (x =? 10) || (x =? 12) || (x =? 13) || (x =? 32))%N.
Definition isDigit (c : ascii) : bool :=          (* \d *)
  let x := Strings.byte c in ((48 <=? x) && (x <=? 57))%N.
Definition isAlnum (c : ascii) : bool :=          (* [a-zA-Z0-9] *)
  let x := Strings.byte c in
  ((97 <=? x) && (x <=? 122) || (65 <=? x) && (x <=? 90)
   || (48 <=? x) && (x <=? 57))%N.
Definition isAlnumDash (c : ascii) : bool :=      (* [a-zA-Z0-9-] *)
  isAlnum c || Ascii.eqb c "-".
Definition notNewline (c : ascii) : bool :=       (* . *)
  negb (Ascii.eqb c "010").
Definition anyChar (c : ascii) : bool :=          (* [\s\S] *)
  isPerlSpace c || negb (isPerlSpace c).
Definition notSemiSpace (c : ascii) : bool :=     (* [^; ] *)
  negb (Ascii.eqb c ";" || Ascii.eqb c " ").

End Regexp.

(* ===================================================================== *)
(** ** Package [prometheus]: descriptors *)
(* ===================================================================== *)

Module prometheus.

(** A metric descriptor ([prometheus.Desc]) as far as the collector and the
    registry look at it: the fully-qualified name, the names of the variable
    labels and the constant labels.  The help text is left out. *)
Record Desc := {
  fqName         : gostring;
  variableLabels : list gostring;
  constLabels    : gmap gostring gostring
}.

Definition NewDesc (fqName : gostring) (variableLabels : list gostring)
    (constLabels : gmap gostring gostring) : Desc :=
  {| fqName := fqName; variableLabels := variableLabels;
     constLabels := constLabels |}.

(** [prometheus.BuildFQName]: the parts that are not empty, joined by [_];
    empty when the name is. *)
Definition BuildFQName (namespace subsystem name : gostring) : gostring :=
  match name with
  | [] => []
  | _ :: _ =>
    (match namespace with [] => [] | _ :: _ => namespace ++ b "_" end) ++
    (match subsystem with [] => [] | _ :: _ => subsystem ++ b "_" end) ++
    name
  end.

End prometheus.

(* ===================================================================== *)
(** ** Package [collector]: helper.go *)
(* ===================================================================== *)

Module helper.
Import Regexp.

Definition nginxUp : Z := 1.
Definition nginxDown : Z := 0.

(** [proxy_pass\s+(.*?);] *)
Definition reProxyPass : regex :=
  Cats [Lits (b "proxy_pass"); Plus (Class isPerlSpace);
        Group 1 (Star false (Class notNewline)); Lit ";"].

(** [\d{1,3}] *)
Definition digits13 : regex :=
  Cat (Class isDigit) (Opt (Cat (Class isDigit) (Opt (Class isDigit)))).

(** [(:\d+)?] as group [i] *)
Definition optPort (i : nat) : regex :=
  Opt (Group i (Cat (Lit ":") (Plus (Class isDigit)))).

(** [^\d{1,3}\.\d{1,3}\.\d{1,3}\.\d{1,3}(:\d+)?$] *)
Definition ipFormat : regex :=
  Cats [BeginText; digits13; Lit "."; digits13; Lit "."; digits13; Lit ".";
        digits13; optPort 1; EndText].

(** [[a-zA-Z0-9]([a-zA-Z0-9-]*[a-zA-Z0-9])?], the inner group numbered [i] *)
Definition label (i : nat) : regex :=
  Cat (Class isAlnum)
      (Opt (Group i (Cat (Star true (Class isAlnumDash)) (Class isAlnum)))).

(** [^([a-zA-Z0-9]([a-zA-Z0-9-]*[a-zA-Z0-9])?)(\.[a-zA-Z0-9]([a-zA-Z0-9-]*[a-zA-Z0-9])?)*(:\d+)?$] *)
Definition domainFormat : regex :=
  Cats [BeginText; Group 1 (label 2);
        Star true (Group 3 (Cat (Lit ".") (label 4)));
        optPort 5; EndText].

(** [upstream\s+%s\s*\{([\s\S]*?)\}] with [%s] the quoted name:
    [regexp.QuoteMeta] makes the name match itself, character by character. *)
Definition reUpstreamBlock (upstreamName : gostring) : regex :=
  Cats [Lits (b "upstream"); Plus (Class isPerlSpace); Lits upstreamName;
        Star true (Class isPerlSpace); Lit "{";
        Group 1 (Star false (Class anyChar)); Lit "}"].

(** [server\s+([^; ]+);] *)
Definition reServer : regex :=
  Cats [Lits (b "server"); Plus (Class isPerlSpace);
        Group 1 (Plus (Class notSemiSpace)); Lit ";"].

(** The loop [for _, serverMatch := range serverMatches]. *)
Definition collectServers (serverMatches : list (list gostring)) : list gostring :=
  fold_left (fun servers serverMatch =>
               if Nat.ltb 1 (length serverMatch)
               then servers ++ [nth 1 serverMatch []]
               else servers)
            serverMatches [].

(** [findUpstreamServers]: the server addresses of the first upstream block
    of that name, or an error when there is no such block. *)
Definition findUpstreamServers (content upstreamName : gostring)
    : list gostring * error :=
  let blockMatch := FindStringSubmatch (reUpstreamBlock upstreamName) content in
  if Nat.ltb (length blockMatch) 2 then
    ([], Some (b "upstream block '" ++ upstreamName ++ b "' not found"))
  else
    let upstreamContent := nth 1 blockMatch [] in
    let serverMatches := FindAllStringSubmatch reServer upstreamContent in
    (collectServers serverMatches, None).

(** The preprocessing of a directive's value: trim, then drop the scheme. *)
Definition cleanTarget (v : gostring) : gostring :=
  Strings.TrimPrefix
    (Strings.TrimPrefix (Strings.TrimSpace v) (b "http://")) (b "https://").

(** The body of the loop over the matches of [proxy_pass\s+(.*?);]: what
    one directive appends to [targets]. *)
Definition directiveTargets (contentStr : gostring) (match_ : list gostring)
    : list gostring :=
  if Nat.ltb 1 (length match_) then
    let target := cleanTarget (nth 1 match_ []) in
    if negb (MatchString ipFormat target) && negb (MatchString domainFormat target)
    then
      match findUpstreamServers contentStr target with
      | (upstreamServers, None) => upstreamServers
      | (_, Some _) => []
      end
    else [target]
  else [].

(** [extractProxyTarget] on the text that [os.ReadFile] returned. *)
Definition extractTargets (contentStr : gostring) : list gostring :=
  fold_left (fun targets match_ => targets ++ directiveTargets contentStr match_)
            (FindAllStringSubmatch reProxyPass contentStr) [].

Definition extractProxyTarget (w : World) (filePath : gostring)
    : list gostring * error :=
  match wReadFile w filePath with
  | None => ([], Some (b "read error"))
  | Some content => (extractTargets content, None)
  end.

Definition dialAddress (proxyTarget : gostring) : gostring :=
  if negb (Strings.Contains proxyTarget (b ":"))
  then proxyTarget ++ b ":80" else proxyTarget.

(** [tcpTest] of the collector package: 3 second timeout. *)
Definition tcpTest (w : World) (proxyTarget : gostring)
    : Z * error * list NetEvent :=
  let proxyTarget := dialAddress proxyTarget in
  match wDial w proxyTarget 3 with
  | DialErr => (0, None, [EvDial proxyTarget 3])
  | DialConn conn => (1, None, [EvDial proxyTarget 3; EvClose conn])
  | DialNone => (0, None, [EvDial proxyTarget 3])
  end%Z.

Definition newGlobalMetric (namespace metricName : gostring)
    (constLabels : gmap gostring gostring) : prometheus.Desc :=
  prometheus.NewDesc (namespace ++ b "_" ++ metricName) [] constLabels.

(** [newUpMetric]: the descriptor of the gauge it creates. *)
Definition newUpMetric (namespace : gostring)
    (constLabels : gmap gostring gostring) : prometheus.Desc :=
  prometheus.NewDesc (prometheus.BuildFQName namespace [] (b "up")) []
                     constLabels.

(** A loop [for k, v := range m { c[k] = v }] that visits the entries of
    [m] in the order [visit]. *)
Definition copyLabels (visit : list (gostring * gostring))
    (c : gmap gostring gostring) : gmap gostring gostring :=
  fold_left (fun c kv => <[fst kv := snd kv]> c) visit c.

(** [MergeLabels], the two maps visited in the orders [visitA] and
    [visitB]: Go leaves the order of a [range] over a map open. *)
Definition MergeLabels (visitA visitB : list (gostring * gostring))
    : gmap gostring gostring :=
  copyLabels visitB (copyLabels visitA ∅).

End helper.

(* ===================================================================== *)
(** ** Package [fmt]: scanning with a format *)
(* ===================================================================== *)

(** [fmt.Fscanf] as far as [templateMetrics] needs it: literal text, spaces
    and newlines in the format, and the verb [%d] stored into an [*int64].
    The template has no [%%], no width and no other verb; the model reports
    an error for them.  The limit of 2^30 runes per scan is left out.
    [None] is a scan error. *)

Module Fmt.

Definition isSpaceByte (c : ascii) : bool :=
  let x := Strings.byte c in ((9 <=? x) && (x <=? 13) || (x =? 32))%N.

Definition isNewline (c : ascii) : bool := Ascii.eqb c "010".

(** The run of space characters at the head of the format: how many
    newlines it has, whether spaces follow the last newline, and the rest. *)
Fixpoint spaceRun (format : gostring) (newlines : nat) (trailingSpace : bool)
    : nat * bool * gostring :=
  match format with
  | c :: format' =>
    if isSpaceByte c then
      if isNewline c then spaceRun format' (S newlines) false
      else spaceRun format' newlines true
    else (newlines, trailingSpace, format)
  | [] => (newlines, trailingSpace, [])
  end.

(** Input white space other than newline, consumed. *)
Fixpoint skipBlanks (fuel : nat) (s : gostring) : gostring :=
  match fuel with
  | O => s
  | S fuel' =>
    match s with
    | c :: _ =>
      if isNewline c then s
      else match Strings.spaceWidth s with
           | Some w => skipBlanks fuel' (skipn w s)
           | None => s
           end
    | [] => s
    end
  end.

(** A newline of the format: spaces, then a newline or the end of input. *)
Definition matchNewline (s : gostring) : option gostring :=
  match skipBlanks (length s) s with
  | [] => Some []
  | c :: s' => if isNewline c then Some s' else None
  end.

Fixpoint matchNewlines (n : nat) (s : gostring) : option gostring :=
  match n with
  | O => Some s
  | S n' =>
    match matchNewline s with
    | Some s' => matchNewlines n' s'
    | None => None
    end
  end.

(** Spaces of the format after its last newline, or standing alone. *)
Definition matchTrailingSpace (newlines : nat) (s : gostring) : option gostring :=
  match s with
  | [] => Some []
  | c :: _ =>
    if Nat.eqb newlines 0 then
      match Strings.spaceWidth s with
      | None => None                  (* expected space in input *)
      | Some _ => if isNewline c then None else Some (skipBlanks (length s) s)
      end
    else Some (skipBlanks (length s) s)
  end.

Inductive advanced :=
| AdvTo (format : gostring) (s : gostring)   (* format and input left *)
| AdvMismatch                                 (* -1 *)
| AdvError.

(** [ss.advance]: match format text against the input up to the next verb. *)
Fixpoint advance (fuel : nat) (format : gostring) (s : gostring) : advanced :=
  match fuel with
  | O => AdvTo format s
  | S fuel' =>
    match format with
    | [] => AdvTo [] s
    | fmtc :: format' =>
      if isSpaceByte fmtc then
        match spaceRun format 0 false with
        | (newlines, trailingSpace, rest) =>
          match matchNewlines newlines s with
          | None => AdvError
          | Some s1 =>
            if trailingSpace then
              match matchTrailingSpace newlines s1 with
              | None => AdvError
              | Some s2 => advance fuel' rest s2
              end
            else advance fuel' rest s1
          end
        end
      else if Ascii.eqb fmtc "%" then
        match format' with
        | [] => AdvError
        | nextc :: _ => if Ascii.eqb nextc "%" then AdvError else AdvTo format s
        end
      else
        match s with
        | [] => AdvError                      (* unexpected EOF *)
        | inputc :: s' =>
          if Ascii.eqb fmtc inputc then advance fuel' format' s'
          else AdvMismatch
        end
    end
  end.

(** [ss.SkipSpace] with [nlIsSpace = false]. *)
Fixpoint SkipSpace (fuel : nat) (s : gostring) : option gostring :=
  match fuel with
  | O => Some s
  | S fuel' =>
    match s with
    | [] => Some []
    | r :: s' =>
      if Ascii.eqb r "013" &&
         match s' with c :: _ => isNewline c | [] => false end
      then SkipSpace fuel' s'
      else if isNewline r then None           (* unexpected newline *)
      else match Strings.spaceWidth s with
           | Some w => SkipSpace fuel' (skipn w s)
           | None => Some s
           end
    end
  end.

Definition isSign (c : ascii) : bool := Ascii.eqb c "+" || Ascii.eqb c "-".
Definition isDecimalDigit (c : ascii) : bool :=            (* "0123456789_" *)
  Regexp.isDigit c || Ascii.eqb c "_".

(** The longest prefix of characters accepted by [ok], and the rest. *)
Fixpoint acceptRun (ok : ascii -> bool) (s : gostring) : gostring * gostring :=
  match s with
  | c :: s' =>
    if ok c then let (tok, rest) := acceptRun ok s' in (c :: tok, rest)
    else ([], s)
  | [] => ([], [])
  end.

(** [strconv.ParseUint(tok, 10, 64)] without the range check. *)
Fixpoint parseDigits (tok : gostring) (acc : Z) : option Z :=
  match tok with
  | [] => Some acc
  | c :: tok' =>
    if Regexp.isDigit c
    then parseDigits tok' (10 * acc + (Z.of_N (Strings.byte c) - 48))
    else None
  end.

(** [strconv.ParseInt(tok, 10, 64)]. *)
Definition ParseInt (tok : gostring) : option Z :=
  let (neg, digits) :=
    match tok with
    | c :: tok' =>
      if Ascii.eqb c "+" then (false, tok')
      else if Ascii.eqb c "-" then (true, tok')
      else (false, tok)
    | [] => (false, [])
    end in
  match digits with
  | [] => None
  | _ :: _ =>
    match parseDigits digits 0 with
    | None => None
    | Some un =>
      let v := if neg then - un else un in
      if (- 2 ^ 63 <=? v) && (v <=? 2 ^ 63 - 1) then Some v else None
    end
  end%Z.

(** [ss.scanInt] for the verb [d] and 64 bits. *)
Definition scanInt (s : gostring) : option (Z * gostring) :=
  match SkipSpace (length s) s with
  | None => None
  | Some [] => None                             (* EOF *)
  | Some ((c :: s1') as s1) =>
    let (sign, s2) := if isSign c then ([c], s1') else ([], s1) in
    match s2 with
    | [] => None                                (* EOF *)
    | d :: _ =>
      if isDecimalDigit d then
        let (digits, s3) := acceptRun isDecimalDigit s2 in
        match ParseInt (sign ++ digits) with
        | Some v => Some (v, s3)
        | None => None
        end
      else None                                 (* expected integer *)
    end
  end.

(** [ss.doScanf] for [nargs] operands of type [*int64]; [vals] are the
    values stored so far. *)
Fixpoint doScanf (fuel : nat) (format : gostring) (s : gostring)
    (nargs : nat) (vals : list Z) : option (list Z) :=
  match fuel with
  | O => None
  | S fuel' =>
    match format with
    | [] => if Nat.ltb (length vals) nargs then None else Some vals
    | _ :: _ =>
      match advance (length format) format s with
      | AdvError | AdvMismatch => None
      | AdvTo format' s' =>
        if Nat.ltb (length format') (length format)
        then doScanf fuel' format' s' nargs vals
        else
          match format with
          | _percent :: verb :: rest =>
            if Ascii.eqb verb "d" then
              match SkipSpace (length s') s' with
              | None => None
              | Some s1 =>
                if Nat.leb nargs (length vals) then None  (* too few operands *)
                else
                  match scanInt s1 with
                  | None => None
                  | Some (v, s2) => doScanf fuel' rest s2 nargs (vals ++ [v])
                  end
              end
            else None
          | _ => None
          end
      end
    end
  end.

Definition Fscanf (r : gostring) (format : gostring) (nargs : nat)
    : option (list Z) :=
  doScanf (S (length format)) format r nargs [].

End Fmt.

(* ===================================================================== *)
(** ** Package [client] *)
(* ===================================================================== *)

Module client.

Definition nl : gostring := ["010"%char].

Definition templateMetrics : gostring :=
  b "Active connections: %d" ++ nl ++
  b "server accepts handled requests" ++ nl ++
  b "%d %d %d" ++ nl ++
  b "Reading: %d Writing: %d Waiting: %d" ++ nl.

Record NginxClient := { apiEndpoint : gostring }.

Record StubConnections := {
  Active : Z; Accepted : Z; Handled : Z; Reading : Z; Writing : Z; Waiting : Z
}.

Record StubStats := { Connections : StubConnections; Requests : Z }.

(** [HealthCheckResult]: [TcpSuccess = 1.0], [TcpFailure = 0.0]. *)
Definition TcpSuccess : Z := 1.
Definition TcpFailure : Z := 0.

Record UpstreamTargetHealth := { Target : gostring; Health : Z }.

Record CustomStats := {
  ModifiedTimes   : gmap gostring Z;
  UpstreamHealths : gmap gostring (list UpstreamTargetHealth)
}.

(** The first statement of [tcpTest]: the address that is dialled. *)
Definition dialAddress (proxyTarget : gostring) : gostring :=
  if negb (Strings.Contains proxyTarget (b ":"))
  then proxyTarget ++ b ":80" else proxyTarget.

(** [tcpTest] of the client package: 5 second timeout. *)
Definition tcpTest (w : World) (proxyTarget : gostring)
    : Z * error * list NetEvent :=
  let proxyTarget := dialAddress proxyTarget in
  match wDial w proxyTarget 5 with
  | DialErr => (TcpFailure, None, [EvDial proxyTarget 5])
  | DialConn conn => (TcpSuccess, None, [EvDial proxyTarget 5; EvClose conn])
  | DialNone => (TcpFailure, None, [EvDial proxyTarget 5])
  end.

(** [[^\s{]] *)
Definition notSpaceBrace (c : ascii) : bool :=
  negb (Regexp.isPerlSpace c || Ascii.eqb c "{").

(** [upstream\s+([^\s{]+)\s*\{([\s\S]*?)\}] *)
Definition reUpstreamBlock : Regexp.regex :=
  Regexp.Cats
    [Regexp.Lits (b "upstream"); Regexp.Plus (Regexp.Class Regexp.isPerlSpace);
     Regexp.Group 1 (Regexp.Plus (Regexp.Class notSpaceBrace));
     Regexp.Star true (Regexp.Class Regexp.isPerlSpace); Regexp.Lit "{";
     Regexp.Group 2 (Regexp.Star false (Regexp.Class Regexp.anyChar));
     Regexp.Lit "}"].

(** [server\s+([^; ]+);] *)
Definition reServer : Regexp.regex :=
  Regexp.Cats
    [Regexp.Lits (b "server"); Regexp.Plus (Regexp.Class Regexp.isPerlSpace);
     Regexp.Group 1 (Regexp.Plus (Regexp.Class Regexp.notSemiSpace));
     Regexp.Lit ";"].

(** The loop [for _, serverMatch := range serverMatches]. *)
Definition collectServers (serverMatches : list (list gostring)) : list gostring :=
  fold_left (fun servers serverMatch =>
               if Nat.ltb 1 (length serverMatch)
               then servers ++ [nth 1 serverMatch []]
               else servers)
            serverMatches [].

(** One turn of the loop over the upstream blocks. *)
Definition upstreamStep (upstreams : gmap gostring (list gostring))
    (upstreamMatch : list gostring) : gmap gostring (list gostring) :=
  if Nat.ltb (length upstreamMatch) 3 then upstreams
  else
    let upstreamName := nth 1 upstreamMatch [] in
    let upstreamContent := nth 2 upstreamMatch [] in
    let servers :=
      collectServers (Regexp.FindAllStringSubmatch reServer upstreamContent) in
    if Nat.ltb 0 (length servers)
    then <[upstreamName := servers]> upstreams
    else upstreams.

(** [findAllUpstreamServers]: every upstream block of the text with its
    server addresses. *)
Definition findAllUpstreamServers (content : gostring)
    : gmap gostring (list gostring) * error :=
  (fold_left upstreamStep
             (Regexp.FindAllStringSubmatch reUpstreamBlock content) ∅,
   None).

Definition parseStubStats (r : gostring) : StubStats + gostring :=
  match Fmt.Fscanf r templateMetrics 7 with
  | Some [active; accepted; handled; requests; reading; writing; waiting] =>
    inl {| Connections := {| Active := active; Accepted := accepted;
                             Handled := handled; Reading := reading;
                             Writing := writing; Waiting := waiting |};
           Requests := requests |}
  | _ => inr (b "failed to scan template metrics")
  end.

Definition GetStubStats (w : World) (client : NginxClient)
    : StubStats + gostring :=
  if negb (wNewRequest w (apiEndpoint client))
  then inr (b "failed to create a get request")
  else
    match wHttpGet w (apiEndpoint client) with
    | HttpTransportErr => inr (b "failed to get")
    | HttpResponse status body =>
      if negb (Z.eqb status 200) then inr (b "expected 200 response")
      else
        match body with
        | None => inr (b "failed to read the response body")
        | Some body =>
          match parseStubStats body with
          | inr _ => inr (b "failed to parse response body")
          | inl stats => inl stats
          end
        end
    end.

(** The files of a cycle: the configuration file, then what the walk of its
    [conf.d] directory reports without error and not as a directory. *)
Definition discover (w : World) (nginxConfigPath : gostring) : list gostring :=
  nginxConfigPath ::
  map wcPath
      (List.filter (fun c => negb (wcErr c) && negb (wcIsDir c))
                   (wWalkDir w (wConfDir w nginxConfigPath))).

Section GetCustomStats.

(** [extractProxyTarget] of this package is not part of the sources at hand;
    [GetCustomStats] discards its error, and is stated for any such function. *)
Variable extractProxyTarget : World -> gostring -> list gostring * error.

(** The loop over the targets of one file. *)
Definition probeAll (w : World) (proxyTargetServers : list gostring)
    : list UpstreamTargetHealth :=
  fold_left (fun healths target =>
               let '(result, _, _) := tcpTest w target in
               healths ++ [{| Target := target; Health := result |}])
            proxyTargetServers [].

(** One turn of the loop over the files. *)
Definition customStatsStep (w : World) (customStats : CustomStats)
    (file : gostring) : CustomStats :=
  match wStat w file with
  | None => customStats
  | Some info =>
    let (proxyTargetServers, _) := extractProxyTarget w file in
    {| ModifiedTimes := <[file := fiModTime info]> (ModifiedTimes customStats);
       UpstreamHealths :=
         <[file := probeAll w proxyTargetServers]> (UpstreamHealths customStats) |}
  end.

Definition GetCustomStats (w : World) (nginxConfigPath : gostring)
    : option CustomStats * error :=
  let customStats := {| ModifiedTimes := ∅; UpstreamHealths := ∅ |} in
  let files := discover w nginxConfigPath in
  (Some (fold_left (customStatsStep w) files customStats), None).

End GetCustomStats.

End client.

(* ===================================================================== *)
(** ** Package [collector]: nginx.go *)
(* ===================================================================== *)

Inductive ValueType := GaugeValue | CounterValue.

(** What [Collect] sends on its channel. *)
Inductive Metric :=
| MUp (v : Z)                                            (* c.upMetric *)
| MStub (name : gostring) (t : ValueType) (v : Z)        (* c.metrics[name] *)
| MConfigMod (file : gostring) (unix : Z)                (* c.configModDesc *)
| MHealth (file target : gostring) (v : Z).              (* c.upstreamHealthCheckDesc *)

Module collector.
Import client.

Record NginxCollector := {
  nginxClient     : NginxClient;
  nginxConfigPath : gostring
}.

(** The seven live counters, as sent after the up metric. *)
Definition stubMetrics (stats : StubStats) : list Metric :=
  [ MStub (b "connections_active") GaugeValue (Active (Connections stats));
    MStub (b "connections_accepted") CounterValue (Accepted (Connections stats));
    MStub (b "connections_handled") CounterValue (Handled (Connections stats));
    MStub (b "connections_reading") GaugeValue (Reading (Connections stats));
    MStub (b "connections_writing") GaugeValue (Writing (Connections stats));
    MStub (b "connections_waiting") GaugeValue (Waiting (Connections stats));
    MStub (b "http_requests_total") CounterValue (Requests stats) ].

(** The descriptors of the seven live counters, by metric name: the map
    literal of [NewNginxCollector]. *)
Definition stubDescs (namespace : gostring)
    (constLabels : gmap gostring gostring) : gmap gostring prometheus.Desc :=
  <[b "connections_active" :=
      helper.newGlobalMetric namespace (b "connections_active") constLabels]>
  (<[b "connections_accepted" :=
      helper.newGlobalMetric namespace (b "connections_accepted") constLabels]>
  (<[b "connections_handled" :=
      helper.newGlobalMetric namespace (b "connections_handled") constLabels]>
  (<[b "connections_reading" :=
      helper.newGlobalMetric namespace (b "connections_reading") constLabels]>
  (<[b "connections_writing" :=
      helper.newGlobalMetric namespace (b "connections_writing") constLabels]>
  (<[b "connections_waiting" :=
      helper.newGlobalMetric namespace (b "connections_waiting") constLabels]>
  (<[b "http_requests_total" :=
      helper.newGlobalMetric namespace (b "http_requests_total") constLabels]>
   ∅)))))).

(** The label values [Collect] gives [prometheus.MustNewConstMetric]. *)
Definition labelValues (m : Metric) : list gostring :=
  match m with
  | MUp _ | MStub _ _ _ => []
  | MConfigMod file _ => [file]
  | MHealth file target _ => [file; target]
  end.

(** [collector/nginx.go]: the revision that reports modification times only. *)
Module Mtime.

Definition fileMetrics (w : World) (f : gostring) : list Metric :=
  match wStat w f with
  | None => []
  | Some info =>
    if negb (Strings.HasSuffix (fiName info) (b ".conf")) then []
    else [MConfigMod f (fiModTime info)]
  end.

Definition Collect (w : World) (c : NginxCollector) : list Metric :=
  match GetStubStats w (nginxClient c) with
  | inr _ => [MUp helper.nginxDown]
  | inl stats =>
    MUp helper.nginxUp :: stubMetrics stats ++
    flat_map (fileMetrics w) (discover w (nginxConfigPath c))
  end.

(** The descriptor fields of this revision's [NginxCollector]. *)
Record Descriptors := {
  upMetric      : prometheus.Desc;
  metrics       : gmap gostring prometheus.Desc;
  configModDesc : prometheus.Desc
}.

Definition NewNginxCollector (nginxClient : NginxClient)
    (namespace : gostring) (constLabels : gmap gostring gostring)
    (nginxConfigPath : gostring) : NginxCollector * Descriptors :=
  ({| collector.nginxClient := nginxClient;
      collector.nginxConfigPath := nginxConfigPath |},
   {| metrics := stubDescs namespace constLabels;
      upMetric := helper.newUpMetric namespace constLabels;
      configModDesc :=
        prometheus.NewDesc
          (prometheus.BuildFQName namespace (b "config") (b "last_modified_seconds"))
          [b "file"] constLabels |}).

(** [Describe]; [visit] is the order in which the [range] statement visits
    the entries of [c.metrics]. *)
Definition Describe (d : Descriptors)
    (visit : list (gostring * prometheus.Desc)) : list prometheus.Desc :=
  upMetric d :: map snd visit ++ [configModDesc d].

(** The descriptor [Collect] makes a metric with. *)
Definition descriptorOf (d : Descriptors) (m : Metric) : option prometheus.Desc :=
  match m with
  | MUp _ => Some (upMetric d)
  | MStub name _ _ => metrics d !! name
  | MConfigMod _ _ => Some (configModDesc d)
  | MHealth _ _ _ => None
  end.

End Mtime.

(** The revision that probes the proxy targets itself. *)
Module Inline.

Definition healthMetrics (w : World) (f : gostring) (proxyTargets : list gostring)
    : list Metric :=
  map (fun target =>
         let '(netResult, _, _) := helper.tcpTest w target in
         MHealth f target netResult)
      proxyTargets.

Definition fileMetrics (w : World) (f : gostring) : list Metric :=
  match wStat w f with
  | None => []
  | Some info =>
    if negb (Strings.HasSuffix (fiName info) (b ".conf")) then []
    else
      match helper.extractProxyTarget w f with
      | (_, Some _) => []
      | (proxyTargets, None) =>
        healthMetrics w f proxyTargets ++ [MConfigMod f (fiModTime info)]
      end
  end.

Definition Collect (w : World) (c : NginxCollector) : list Metric :=
  match GetStubStats w (nginxClient c) with
  | inr _ => [MUp helper.nginxDown]
  | inl stats =>
    MUp helper.nginxUp :: stubMetrics stats ++
    flat_map (fileMetrics w) (discover w (nginxConfigPath c))
  end.

(** The descriptor fields of this revision's [NginxCollector]. *)
Record Descriptors := {
  upMetric                : prometheus.Desc;
  metrics                 : gmap gostring prometheus.Desc;
  configModDesc           : prometheus.Desc;
  upstreamHealthCheckDesc : prometheus.Desc
}.

Definition NewNginxCollector (nginxClient : NginxClient)
    (namespace : gostring) (constLabels : gmap gostring gostring)
    (nginxConfigPath : gostring) : NginxCollector * Descriptors :=
  ({| collector.nginxClient := nginxClient;
      collector.nginxConfigPath := nginxConfigPath |},
   {| metrics := stubDescs namespace constLabels;
      upMetric := helper.newUpMetric namespace constLabels;
      configModDesc :=
        prometheus.NewDesc
          (prometheus.BuildFQName namespace (b "config") (b "last_modified_seconds"))
          [b "file"] constLabels;
      upstreamHealthCheckDesc :=
        prometheus.NewDesc
          (prometheus.BuildFQName namespace (b "upstream") (b "health_check_status"))
          [b "file"; b "target"] constLabels |}).

(** [Describe]; [visit] is the order in which the [range] statement visits
    the entries of [c.metrics]. *)
Definition Describe (d : Descriptors)
    (visit : list (gostring * prometheus.Desc)) : list prometheus.Desc :=
  upMetric d :: map snd visit ++ [configModDesc d; upstreamHealthCheckDesc d].

(** The descriptor [Collect] makes a metric with. *)
Definition descriptorOf (d : Descriptors) (m : Metric) : option prometheus.Desc :=
  match m with
  | MUp _ => Some (upMetric d)
  | MStub name _ _ => metrics d !! name
  | MConfigMod _ _ => Some (configModDesc d)
  | MHealth _ _ _ => Some (upstreamHealthCheckDesc d)
  end.

End Inline.

(** The revision that asks the client for [CustomStats]. *)
Module Custom.

(** The descriptor fields of this revision's [NginxCollector]. *)
Record Descriptors := {
  upMetric                : prometheus.Desc;
  metrics                 : gmap gostring prometheus.Desc;
  configModDesc           : prometheus.Desc;
  upstreamHealthCheckDesc : prometheus.Desc
}.

Definition NewNginxCollector (nginxClient : NginxClient)
    (namespace : gostring) (constLabels : gmap gostring gostring)
    (nginxConfigPath : gostring) : NginxCollector * Descriptors :=
  ({| collector.nginxClient := nginxClient;
      collector.nginxConfigPath := nginxConfigPath |},
   {| metrics := stubDescs namespace constLabels;
      upMetric := helper.newUpMetric namespace constLabels;
      configModDesc :=
        prometheus.NewDesc
          (prometheus.BuildFQName namespace (b "config") (b "last_modified_seconds"))
          [b "file"] constLabels;
      upstreamHealthCheckDesc :=
        prometheus.NewDesc
          (prometheus.BuildFQName namespace (b "upstream") (b "health_check_status"))
          [b "file"; b "target"] constLabels |}).

(** [Describe]; [visit] is the order in which the [range] statement visits
    the entries of [c.metrics]. *)
Definition Describe (d : Descriptors)
    (visit : list (gostring * prometheus.Desc)) : list prometheus.Desc :=
  upMetric d :: configModDesc d :: upstreamHealthCheckDesc d :: map snd visit.

(** The descriptor [Collect] makes a metric with. *)
Definition descriptorOf (d : Descriptors) (m : Metric) : option prometheus.Desc :=
  match m with
  | MUp _ => Some (upMetric d)
  | MStub name _ _ => metrics d !! name
  | MConfigMod _ _ => Some (configModDesc d)
  | MHealth _ _ _ => Some (upstreamHealthCheckDesc d)
  end.


Section Collect.
Variable extractProxyTarget : World -> gostring -> list gostring * error.

Definition modMetrics (m : gmap gostring Z) : list Metric :=
  map (fun '(file, modTime) => MConfigMod file modTime) (map_to_list m).

Definition healthMetrics (m : gmap gostring (list UpstreamTargetHealth))
    : list Metric :=
  flat_map (fun '(file, healths) =>
              map (fun health => MHealth file (Target health) (Health health))
                  healths)
           (map_to_list m).

Definition Collect (w : World) (c : NginxCollector) : list Metric :=
  match GetStubStats w (nginxClient c) with
  | inr _ => [MUp helper.nginxDown]
  | inl stats =>
    MUp helper.nginxUp :: stubMetrics stats ++
    match GetCustomStats extractProxyTarget w (nginxConfigPath c) with
    | (_, Some _) => []
    | (None, None) => []
    | (Some customStats, None) =>
      modMetrics (ModifiedTimes customStats) ++
      healthMetrics (UpstreamHealths customStats)
    end
  end.

End Collect.

End Custom.

End collector.

(* ===================================================================== *)
(** ** Package [main]: exporter.go *)
(* ===================================================================== *)

Module exporter.

(** How a call ends that indexes a slice: it returns, or the run time
    panics with an index out of range. *)
Inductive outcome (A : Type) :=
| Returned (a : A)
| Panicked.
Arguments Returned {A} a.
Arguments Panicked {A}.

Section Durations.

(** [time.ParseDuration]: the duration in nanoseconds, [None] for an
    error. *)
Variable ParseDuration : gostring -> option Z.

Definition parsePositiveDuration (s : gostring) : Z * error :=
  match ParseDuration s with
  | None => (0%Z, Some (b "failed to parse duration"))
  | Some dur =>
    if (dur <? 0)%Z then (0%Z, Some (b "negative duration is not valid"))
    else (dur, None)
  end.

(** [positiveDuration.Set]: the duration [pd] holds afterwards, and the
    error. *)
Definition positiveDuration_Set (pd : Z) (s : gostring) : Z * error :=
  match parsePositiveDuration s with
  | (_, Some err) => (pd, Some err)
  | (dur, None) => (dur, None)
  end.

End Durations.

Definition parseUnixSocketAddress (address : gostring)
    : outcome (gostring * gostring * error) :=
  let addressParts := Strings.Split address (b ":") in
  let addressPartsLength := length addressParts in
  if Nat.ltb 3 addressPartsLength || Nat.ltb addressPartsLength 1 then
    Returned ([], [],
              Some (b "address for unix domain socket has wrong format"))
  else
    match nth_error addressParts 1 with
    | None => Panicked
    | Some unixSocketPath =>
      let requestPath :=
        if Nat.eqb addressPartsLength 3 then nth 2 addressParts [] else [] in
      Returned (unixSocketPath, requestPath, None)
    end.

(** The loop of [main] over [os.Args] that rewrites deprecated flags: what
    it makes of one argument. *)
Definition convertDeprecatedFlag (arg : gostring) : gostring :=
  if Strings.HasPrefix arg (b "-") && negb (Strings.HasPrefix arg (b "--"))
     && Nat.ltb 2 (length arg)
  then b "-" ++ arg
  else arg.

Definition convertDeprecatedFlags (args : list gostring) : list gostring :=
  map convertDeprecatedFlag args.

(** Where [registerCollector] scrapes: the process exits, or the client is
    given the address [addr] and the transport dials the unix socket
    [socketPath], if there is one. *)
Inductive scrapeTarget :=
| Exit (code : Z)
| Scrape (socketPath : option gostring) (addr : gostring).

(** The first statement of [registerCollector]. *)
Definition registerCollector (addr : gostring) : outcome scrapeTarget :=
  if Strings.HasPrefix addr (b "unix:") then
    match parseUnixSocketAddress addr with
    | Panicked => Panicked
    | Returned (_, _, Some _) => Returned (Exit 1)
    | Returned (socketPath, requestPath, None) =>
      Returned (Scrape (Some socketPath) (b "http://unix" ++ requestPath))
    end
  else Returned (Scrape None addr).

Definition convertFlagToEnvar (f : gostring) : gostring :=
  fold_left (fun env s => Strings.ReplaceAll env s (b "_"))
            [b "-"; b "."] (Strings.ToUpper f).

(** *** Requests and their headers *)

(** Go's maps and slices are references.  The heap holds the header maps
    ([http.Header]: from a key to a slice of values) and the arrays behind
    the slices, each at a location. *)
Inductive object :=
| HeaderMap (entries : gmap gostring nat)    (* a map[string][]string *)
| Values (vs : list gostring).              (* the array behind a []string *)

Abbreviation heap := (gmap nat object).

(** [http.Request] as far as the code looks at it: the header, and the
    other fields taken together. *)
Record Request := { Header : nat; otherFields : nat }.

(** [make]: a new object at a location not in use. *)
Definition alloc (h : heap) (o : object) : heap * nat :=
  let l := fresh (dom h) in (<[l := o]> h, l).

(** The entries of the map at [m]; a nil map has none. *)
Definition entriesAt (h : heap) (m : nat) : gmap gostring nat :=
  match h !! m with
  | Some (HeaderMap entries) => entries
  | _ => ∅
  end.

(** The elements of the slice at [l]; a nil slice has none. *)
Definition valuesAt (h : heap) (l : nat) : list gostring :=
  match h !! l with
  | Some (Values vs) => vs
  | _ => []
  end.

(** One turn of the loop of [cloneRequest]: a new slice, the values copied
    into it, and [r.Header[key] = newValues]. *)
Definition cloneStep (m : nat) (h : heap) (kv : gostring * nat) : heap :=
  let (h1, newValues) := alloc h (Values (valuesAt h (snd kv))) in
  <[m := HeaderMap (<[fst kv := newValues]> (entriesAt h1 m))]> h1.

(** [cloneRequest]; [visit] is the order in which the [range] statement
    visits the entries of [req.Header]. *)
Definition cloneRequest (visit : list (gostring * nat)) (h : heap)
    (req : Request) : heap * Request :=
  let (h1, m) := alloc h (HeaderMap ∅) in
  (fold_left (cloneStep m) visit h1,
   {| Header := m; otherFields := otherFields req |}).

(** [http.Header.Set] for a key in canonical form, as ["User-Agent"] is:
    the key is given a new slice with the one value. *)
Definition Header_Set (h : heap) (m : nat) (key value : gostring) : heap :=
  let (h1, vs) := alloc h (Values [value]) in
  <[m := HeaderMap (<[key := vs]> (entriesAt h1 m))]> h1.

(** What [userAgentRoundTripper.RoundTrip] hands to the round tripper it
    wraps: the heap and the request. *)
Definition outgoing (agent : gostring) (visit : list (gostring * nat))
    (h : heap) (req : Request) : heap * Request :=
  let (h1, req') := cloneRequest visit h req in
  (Header_Set h1 (Header req') (b "User-Agent") agent, req').

Section RoundTrip.

(** [rt.rt.RoundTrip]: the heap afterwards and the response, [None] for an
    error. *)
Variable inner : heap -> Request -> heap * option nat.

Definition RoundTrip (agent : gostring) (visit : list (gostring * nat))
    (h : heap) (req : Request) : heap * option nat * error :=
  let (h2, req') := outgoing agent visit h req in
  match inner h2 req' with
  | (h3, None) => (h3, None, Some (b "round trip failed"))
  | (h3, Some roundTrip) => (h3, Some roundTrip, None)
  end.

End RoundTrip.

End exporter.

(* ===================================================================== *)
(** ** Concurrent invocations of [Collect] *)
(* ===================================================================== *)

(** [Collect] locks the collector's mutex first and unlocks it, deferred,
    last.  Invocations run as interleaved steps under an arbitrary
    schedule; a [Lock] on a locked mutex waits. *)

Module Threads.

(** What one invocation of [Collect] does, step by step. *)
Inductive Action :=
| ALock                  (* c.mutex.Lock() *)
| AFetchStatus           (* c.nginxClient.GetStubStats() *)
| ASend (m : Metric)     (* ch <- m *)
| AUnlock.               (* the deferred c.mutex.Unlock() *)

(** The steps of an invocation that sends the metrics [out]: both the early
    return and the normal return run the deferred unlock last. *)
Definition collectActions (out : list Metric) : list Action :=
  ALock :: AFetchStatus :: map ASend out ++ [AUnlock].

(** The collector's mutex, what each invocation still has to do, and what
    has happened so far. *)
Record Shared := {
  locked  : bool;
  pending : nat -> list Action;
  trace   : list (nat * Action)
}.

Definition start (programs : nat -> list Action) : Shared :=
  {| locked := false; pending := programs; trace := [] |}.

Definition setPending (st : Shared) (i : nat) (rest : list Action)
    : nat -> list Action :=
  fun j => if Nat.eqb j i then rest else pending st j.

(** Invocation [i] is scheduled: it takes its next step, unless it has
    finished or waits for the mutex. *)
Definition step (st : Shared) (i : nat) : Shared :=
  match pending st i with
  | [] => st
  | ALock :: rest =>
    if locked st then st
    else {| locked := true; pending := setPending st i rest;
            trace := trace st ++ [(i, ALock)] |}
  | AUnlock :: rest =>
    {| locked := false; pending := setPending st i rest;
       trace := trace st ++ [(i, AUnlock)] |}
  | a :: rest =>
    {| locked := locked st; pending := setPending st i rest;
       trace := trace st ++ [(i, a)] |}
  end.

Definition run (schedule : list nat) (st : Shared) : Shared :=
  fold_left step schedule st.

End Threads.

(* ===================================================================== *)
(** ** Sample worlds *)
(* ===================================================================== *)

Module Sample.
Import client collector.

Fixpoint eqs (x y : gostring) : bool :=
  match x, y with
  | [], [] => true
  | c :: x', d :: y' => Ascii.eqb c d && eqs x' y'
  | _, _ => false
  end.

Definition statusBody : gostring :=
  b "Active connections: 291 " ++ nl ++
  b "server accepts handled requests" ++ nl ++
  b " 16630948 16630949 31070465 " ++ nl ++
  b "Reading: 6 Writing: 179 Waiting: 106 " ++ nl.

Definition nginxConf : gostring := b "/etc/nginx/nginx.conf".
Definition appConf : gostring := b "/etc/nginx/conf.d/app.conf".
Definition mimeTypes : gostring := b "/etc/nginx/conf.d/mime.types".

Definition appConfText : gostring :=
  b "upstream my_backend { server 10.0.0.1:80; server 10.0.0.2:80; }" ++ nl ++
  b "server { location / { proxy_pass http://my_backend; } }" ++ nl.

Definition nginxConfText : gostring :=
  b "http { server { location / { proxy_pass http://10.0.0.5:9000; } } }" ++ nl.

(** A host with three files, one listener, and a given status response. *)
Definition world (status : HttpResult) : World := {|
  wStat := fun p =>
    if eqs p nginxConf then Some {| fiName := b "nginx.conf"; fiModTime := 1700000000 |}
    else if eqs p appConf then Some {| fiName := b "app.conf"; fiModTime := 1700000100 |}
    else if eqs p mimeTypes then Some {| fiName := b "mime.types"; fiModTime := 1600000000 |}
    else None;
  wReadFile := fun p =>
    if eqs p nginxConf then Some nginxConfText
    else if eqs p appConf then Some appConfText
    else if eqs p mimeTypes then Some (b "types { text/html html; }")
    else None;
  wWalkDir := fun d =>
    if eqs d (b "/etc/nginx/conf.d") then
      [ {| wcPath := b "/etc/nginx/conf.d"; wcIsDir := true; wcErr := false |};
        {| wcPath := appConf; wcIsDir := false; wcErr := false |};
        {| wcPath := mimeTypes; wcIsDir := false; wcErr := false |} ]
    else [ {| wcPath := d; wcIsDir := false; wcErr := true |} ];
  wConfDir := fun _ => b "/etc/nginx/conf.d";
  wDial := fun addr _ => if eqs addr (b "10.0.0.5:9000") then DialConn 7 else DialErr;
  wNewRequest := fun _ => true;
  wHttpGet := fun _ => status
|}.

Definition worldUp : World := world (HttpResponse 200 (Some statusBody)).
Definition worldDown : World := world HttpTransportErr.

Definition theCollector : NginxCollector :=
  {| nginxClient := {| apiEndpoint := b "http://127.0.0.1:8080/stub_status" |};
     nginxConfigPath := nginxConf |}.

End Sample.

(* ===================================================================== *)
(** * The terms the theorems are stated in *)
(* ===================================================================== *)

Section CycleTerms.
Import client collector.

(** The status fetch of a cycle failed. *)
Definition statusFailed (w : World) (c : NginxCollector) : Prop :=
  exists e, GetStubStats w (nginxClient c) = inr e.

(** The [file] label of a metric. *)
Definition fileLabel (m : Metric) : option gostring :=
  match m with
  | MConfigMod file _ | MHealth file _ _ => Some file
  | MUp _ | MStub _ _ _ => None
  end.

Definition isUp (m : Metric) : bool :=
  match m with
  | MUp _ => true
  | _ => false
  end.

(** What [tcpTest] makes of the outcome of the dial. *)
Definition probeOutcome (r : DialResult) : Z :=
  match r with
  | DialConn _ => 1
  | DialErr | DialNone => 0
  end.

End CycleTerms.

Section RegexpTerms.
Import Regexp.

(** [matches r pos u rest]: the expression [r] can match the text [u] at
    offset [pos] when [rest] follows [u]. *)
Inductive matches : regex -> nat -> gostring -> gostring -> Prop :=
| MEmpty pos rest : matches Empty pos [] rest
| MLit c pos rest : matches (Lit c) pos [c] rest
| MClass p c pos rest : p c = true -> matches (Class p) pos [c] rest
| MCat r1 r2 pos u1 u2 rest :
    matches r1 pos u1 (u2 ++ rest) ->
    matches r2 (pos + length u1) u2 rest ->
    matches (Cat r1 r2) pos (u1 ++ u2) rest
| MAltL r1 r2 pos u rest : matches r1 pos u rest -> matches (Alt r1 r2) pos u rest
| MAltR r1 r2 pos u rest : matches r2 pos u rest -> matches (Alt r1 r2) pos u rest
| MStarNil g r pos rest : matches (Star g r) pos [] rest
| MStarCons g r pos u1 u2 rest :
    u1 <> [] ->
    matches r pos u1 (u2 ++ rest) ->
    matches (Star g r) (pos + length u1) u2 rest ->
    matches (Star g r) pos (u1 ++ u2) rest
| MGroup i r pos u rest : matches r pos u rest -> matches (Group i r) pos u rest
| MBegin rest : matches BeginText 0 [] rest
| MEnd pos : matches EndText pos [] [].

(** What the continuation of a successful run was given. *)
Definition continued {A} (r : regex) (pos : nat) (s : gostring)
    (k : nat -> gostring -> caps -> option A) (a : A) : Prop :=
  exists u rest cs',
    s = u ++ rest /\ matches r pos u rest /\
    k (pos + length u) rest cs' = Some a.

(** Can the expression match the empty text? *)
Fixpoint nullable (r : regex) : bool :=
  match r with
  | Empty | BeginText | EndText | Star _ _ => true
  | Lit _ | Class _ => false
  | Cat r1 r2 => nullable r1 && nullable r2
  | Alt r1 r2 => nullable r1 || nullable r2
  | Group _ r1 => nullable r1
  end.

(** Every character the expression can match is in [P]. *)
Fixpoint allIn (P : ascii -> bool) (r : regex) : Prop :=
  match r with
  | Lit c => P c = true
  | Class p => forall c, p c = true -> P c = true
  | Cat r1 r2 | Alt r1 r2 => allIn P r1 /\ allIn P r2
  | Star _ r1 | Group _ r1 => allIn P r1
  | Empty | BeginText | EndText => True
  end.

(** Every text the expression can match starts, resp. ends, in [P]. *)
Fixpoint firstIn (P : ascii -> bool) (r : regex) : Prop :=
  match r with
  | Lit c => P c = true
  | Class p => forall c, p c = true -> P c = true
  | Cat r1 r2 => firstIn P r1 /\ (nullable r1 = true -> firstIn P r2)
  | Alt r1 r2 => firstIn P r1 /\ firstIn P r2
  | Star _ r1 | Group _ r1 => firstIn P r1
  | Empty | BeginText | EndText => True
  end.

Fixpoint lastIn (P : ascii -> bool) (r : regex) : Prop :=
  match r with
  | Lit c => P c = true
  | Class p => forall c, p c = true -> P c = true
  | Cat r1 r2 => lastIn P r2 /\ (nullable r2 = true -> lastIn P r1)
  | Alt r1 r2 => lastIn P r1 /\ lastIn P r2
  | Star _ r1 | Group _ r1 => lastIn P r1
  | Empty | BeginText | EndText => True
  end.

Fixpoint startsAnchored (r : regex) : bool :=
  match r with
  | BeginText => true
  | Cat r1 _ => startsAnchored r1
  | _ => false
  end.

Fixpoint endsAnchored (r : regex) : bool :=
  match r with
  | EndText => true
  | Cat _ r2 => endsAnchored r2
  | _ => false
  end.

(** The next character, if any, is outside the class. *)
Definition stopsAt (p : ascii -> bool) (rest : gostring) : Prop :=
  match rest with
  | [] => True
  | c :: _ => p c = false
  end.

End RegexpTerms.

Section ExtractorTerms.
Import Regexp helper.

(** White space in the sense of [\s]. *)
Definition perlSpaces (ws : gostring) : Prop :=
  Forall (fun c => isPerlSpace c = true) ws.

(** The text [u] is a forwarding directive [proxy_pass <value>;]: the word,
    white space, a value on one line, a semicolon. *)
Definition forwardingDirective (value u : gostring) : Prop :=
  exists ws,
    u = b "proxy_pass" ++ ws ++ value ++ b ";" /\
    ws <> [] /\ perlSpaces ws /\
    Forall (fun c => c <> "010"%char) value.

(** [[a-zA-Z0-9.:-]]: what a value matching either format is made of. *)
Definition hostChar (c : ascii) : bool :=
  isAlnumDash c || Ascii.eqb c "." || Ascii.eqb c ":".

(** The value matches the IPv4 format or the hostname format. *)
Definition addressFormat (t : gostring) : Prop :=
  MatchString ipFormat t = true \/ MatchString domainFormat t = true.

(** The value with a leading [http://] or [https://] removed. *)
Definition stripScheme (value : gostring) : gostring :=
  if Strings.HasPrefix value (b "http://") then skipn 7 value
  else if Strings.HasPrefix value (b "https://") then skipn 8 value
  else value.

(** A plain server entry [server <addr>;]: white space before it, white
    space between the word and the address, an address without white
    space, semicolon or brace. *)
Record ServerEntry := {
  eLead : gostring;
  eGap  : gostring;
  eAddr : gostring
}.

Definition entryText (e : ServerEntry) : gostring :=
  b "server" ++ eGap e ++ eAddr e ++ b ";".

Definition addrChar (c : ascii) : Prop :=
  isPerlSpace c = false /\ c <> ";"%char /\ c <> "}"%char.

Definition plainEntry (e : ServerEntry) : Prop :=
  perlSpaces (eLead e) /\
  eGap e <> [] /\ perlSpaces (eGap e) /\
  eAddr e <> [] /\ Forall addrChar (eAddr e).

(** The inside of an upstream block: the entries, then white space. *)
Fixpoint blockBody (entries : list ServerEntry) (trail : gostring) : gostring :=
  match entries with
  | [] => trail
  | e :: entries' => eLead e ++ entryText e ++ blockBody entries' trail
  end.

(** An upstream block [upstream <name> { <body> }]. *)
Definition upstreamBlock (name body u : gostring) : Prop :=
  exists ws1 ws2,
    u = b "upstream" ++ ws1 ++ name ++ ws2 ++ b "{" ++ body ++ b "}" /\
    ws1 <> [] /\ perlSpaces ws1 /\ perlSpaces ws2.

(** A block of that name starts at offset [i] of the text. *)
Definition blockStartsAt (name content : gostring) (i : nat) : Prop :=
  exists body u post, skipn i content = u ++ post /\ upstreamBlock name body u.

End ExtractorTerms.

Section StatusPageTerms.
Import client.

Definition blankRune (r : gostring) : Prop :=
  Strings.spaceWidth r = Some (length r) /\ r <> nl.

Inductive blanks : gostring -> Prop :=
| blanks_nil : blanks []
| blanks_cons r B : blankRune r -> blanks B -> blanks (r ++ B).

(** The pieces of a positional template. *)
Inductive Item :=
| IWord (w : gostring)   (* this text *)
| IGap                   (* one or more blanks *)
| INum                   (* blanks, then a decimal integer *)
| INewline               (* blanks, then a newline *)
| IEnd.                  (* blanks, then a newline or the end of the input *)

(** [conformsFrom items s acc r]: the text [s] starts with the items, in
    order, and [r] is [acc] followed by the integers read. *)
Fixpoint conformsFrom (items : list Item) (s : gostring) (acc r : list Z) : Prop :=
  match items with
  | [] => r = acc
  | IWord w :: items' => exists s', s = w ++ s' /\ conformsFrom items' s' acc r
  | IGap :: items' =>
    exists B s', s = B ++ s' /\ blanks B /\ B <> [] /\ conformsFrom items' s' acc r
  | INum :: items' =>
    exists B tok s' v,
      s = B ++ tok ++ s' /\ blanks B /\ Fmt.ParseInt tok = Some v /\
      conformsFrom items' s' (acc ++ [v]) r
  | INewline :: items' =>
    exists B s', s = B ++ nl ++ s' /\ blanks B /\ conformsFrom items' s' acc r
  | IEnd :: items' =>
    exists B, blanks B /\ (s = B \/ exists tail, s = B ++ nl ++ tail) /\
              conformsFrom items' [] acc r
  end.

Definition conforms (items : list Item) (s : gostring) (vals : list Z) : Prop :=
  conformsFrom items s [] vals.

Definition stubTemplate : list Item :=
  [ IWord (b "Active"); IGap; IWord (b "connections:"); IGap; INum; INewline;
    IWord (b "server"); IGap; IWord (b "accepts"); IGap; IWord (b "handled");
    IGap; IWord (b "requests"); INewline;
    INum; IGap; INum; IGap; INum; INewline;
    IWord (b "Reading:"); IGap; INum; IGap;
    IWord (b "Writing:"); IGap; INum; IGap;
    IWord (b "Waiting:"); IGap; INum; IEnd ].

End StatusPageTerms.

Section ThreadTerms.
Import Threads.

Definition programOf (outs : nat -> list Metric) (i : nat) : list Action :=
  collectActions (outs i).

(** The steps invocation [i] has taken. *)
Definition stepsOf (i : nat) (tr : list (nat * Action)) : list Action :=
  map snd (List.filter (fun e => Nat.eqb (fst e) i) tr).

(** Invocation [i] holds the mutex: it has locked and not yet unlocked. *)
Definition inside (st : Shared) (i : nat) : Prop :=
  match pending st i with
  | [] | ALock :: _ => False
  | _ => True
  end.

Record invariant (outs : nat -> list Metric) (st : Shared) : Prop := {
  inv_progress : forall i,
      programOf outs i = stepsOf i (trace st) ++ pending st i;
  inv_holder   : locked st = true -> exists i, inside st i;
  inv_locked   : forall i, inside st i -> locked st = true;
  inv_single   : forall i j, inside st i -> inside st j -> i = j;
  inv_serial   : forall t1 i a t2 j a' t3,
      trace st = t1 ++ (i, a) :: t2 ++ (j, a') :: t3 -> i <> j ->
      In (i, AUnlock) (t1 ++ (i, a) :: t2)
}.

(** The state after invocation [i] took the step [a]. *)
Definition after (st : Shared) (i : nat) (a : Action) (rest : list Action)
    : Shared :=
  {| locked := match a with
               | ALock => true
               | AUnlock => false
               | _ => locked st
               end;
     pending := setPending st i rest;
     trace := trace st ++ [(i, a)] |}.

End ThreadTerms.

Section ExporterTerms.

(** How many times the character occurs in the text. *)
Definition occurrences (c : ascii) (s : gostring) : nat :=
  length (List.filter (Ascii.eqb c) s).

(** The text has no such character. *)
Definition free (c : ascii) (s : gostring) : Prop :=
  Forall (fun x => x <> c) s.

Definition isASCII (s : gostring) : Prop :=
  Forall (fun c => (Strings.byte c < 128)%N) s.

Definition isLower (c : ascii) : bool :=
  let x := Strings.byte c in ((97 <=? x) && (x <=? 122))%N.

End ExporterTerms.

Section DescriptorTerms.
Import collector.

(** The names of the seven live counters. *)
Definition stubNames : list gostring :=
  [ b "connections_active"; b "connections_accepted"; b "connections_handled";
    b "connections_reading"; b "connections_writing"; b "connections_waiting";
    b "http_requests_total" ].

(** [visit] is an order in which a [range] statement can visit the map. *)
Definition visits {V} (m : gmap gostring V) (visit : list (gostring * V)) : Prop :=
  visit ≡ₚ map_to_list m.

(** The metric can be made and is described: its descriptor is not nil,
    takes as many label values as the metric has, and is among those that
    [Describe] sends. *)
Definition described (descriptor : option prometheus.Desc)
    (sent : list prometheus.Desc) (m : Metric) : Prop :=
  exists d, descriptor = Some d /\
            length (labelValues m) = length (prometheus.variableLabels d) /\
            In d sent.

(** The entries of the map of counters in the order of the map literal. *)
Definition literalOrder (namespace : gostring)
    (constLabels : gmap gostring gostring) : list (gostring * prometheus.Desc) :=
  map (fun name => (name, helper.newGlobalMetric namespace name constLabels))
      stubNames.

End DescriptorTerms.

Section OutputTerms.
Import client collector.

(** The status fetch of a cycle succeeded. *)
Definition statusFetched (w : World) (c : NginxCollector) : Prop :=
  exists stats, GetStubStats w (nginxClient c) = inl stats.

(** The path is a candidate of the cycle. *)
Definition candidate (w : World) (c : NginxCollector) (file : gostring) : Prop :=
  In file (discover w (nginxConfigPath c)).

(** The file labels of the modification-time metrics, in order. *)
Definition modifiedFiles (out : list Metric) : list gostring :=
  flat_map (fun m => match m with
                     | MConfigMod file _ => [file]
                     | _ => []
                     end) out.


(** The file passes the checks of the loop over the candidates: it can be
    statted and its base name ends in [.conf]; with [mustRead], it can also
    be read. *)
Definition kept (w : World) (mustRead : bool) (file : gostring) : bool :=
  match wStat w file with
  | Some info =>
    Strings.HasSuffix (fiName info) (b ".conf") &&
    (negb mustRead || match wReadFile w file with Some _ => true | None => false end)
  | None => false
  end.

End OutputTerms.

Section UpstreamTerms.
Import Regexp.

(** A text that can be dialled: not empty, without semicolon or space. *)
Definition targetText (t : gostring) : Prop :=
  t <> [] /\ Forall (fun c => c <> ";"%char /\ c <> " "%char) t.

(** A name as an upstream block has it: not empty, without white space or
    opening brace. *)
Definition blockName (name : gostring) : Prop :=
  name <> [] /\ Forall (fun c => client.notSpaceBrace c = true) name.


(** An upstream block in a configuration text, with the text before it. *)
Record UpstreamText := {
  uPre     : gostring;          (* the text before the block *)
  uWs1     : gostring;          (* white space after the word [upstream] *)
  uName    : gostring;
  uWs2     : gostring;          (* white space before the brace *)
  uEntries : list ServerEntry;
  uTrail   : gostring           (* white space after the last entry *)
}.

Definition blockText (u : UpstreamText) : gostring :=
  b "upstream" ++ uWs1 u ++ uName u ++ uWs2 u ++ b "{" ++
  blockBody (uEntries u) (uTrail u) ++ b "}".

(** The blocks one after the other, then the text [post]. *)
Fixpoint configText (blocks : list UpstreamText) (post : gostring) : gostring :=
  match blocks with
  | [] => post
  | u :: blocks' => uPre u ++ blockText u ++ configText blocks' post
  end.

(** The word [upstream] occurs only where a block starts, the name has no
    white space or brace, and the body is made of plain server entries. *)
Definition plainBlock (u : UpstreamText) : Prop :=
  Strings.Contains (uPre u) (b "upstream") = false /\
  uWs1 u <> [] /\ perlSpaces (uWs1 u) /\
  blockName (uName u) /\ perlSpaces (uWs2 u) /\
  Forall plainEntry (uEntries u) /\ perlSpaces (uTrail u).

(** What a block adds to the map of upstreams: its servers under its name,
    unless it has none. *)
Definition recorded (upstreams : gmap gostring (list gostring))
    (u : UpstreamText) : gmap gostring (list gostring) :=
  match uEntries u with
  | [] => upstreams
  | _ :: _ => <[uName u := map eAddr (uEntries u)]> upstreams
  end.

End UpstreamTerms.

Section PageTerms.
Import client.

(** The range of a Go [int64]. *)
Definition int64 (v : Z) : Prop := (- 2 ^ 63 <= v <= 2 ^ 63 - 1)%Z.

(** The counters of a status, in the order of the page. *)
Definition counters (stats : StubStats) : list Z :=
  [ Active (Connections stats); Accepted (Connections stats);
    Handled (Connections stats); Requests stats;
    Reading (Connections stats); Writing (Connections stats);
    Waiting (Connections stats) ].

Definition digitChar (d : Z) : ascii := ascii_of_N (Z.to_N (48 + d)).

(** The decimal digits of a natural number, the last digit first. *)
Fixpoint digitsRev (fuel : nat) (n : Z) : gostring :=
  match fuel with
  | O => []
  | S fuel' =>
    digitChar (n mod 10) ::
    (if (n / 10 =? 0)%Z then [] else digitsRev fuel' (n / 10))
  end.

(** A number below 10^19 in decimal, as nginx prints a counter. *)
Definition decimal (n : Z) : gostring := rev (digitsRev 19 n).

Definition spaces (pad : gostring) : Prop := Forall (fun c => c = " "%char) pad.

(** The page that [stub_status] serves for these counters; [pad] is the
    run of spaces nginx puts at the end of the first, third and fourth
    line and at the start of the third (one space in nginx's output). *)
Definition statusPage (pad : gostring) (stats : StubStats) : gostring :=
  b "Active connections: " ++ decimal (Active (Connections stats)) ++ pad ++ nl ++
  b "server accepts handled requests" ++ nl ++
  pad ++ decimal (Accepted (Connections stats)) ++
  b " " ++ decimal (Handled (Connections stats)) ++
  b " " ++ decimal (Requests stats) ++ pad ++ nl ++
  b "Reading: " ++ decimal (Reading (Connections stats)) ++
  b " Writing: " ++ decimal (Writing (Connections stats)) ++
  b " Waiting: " ++ decimal (Waiting (Connections stats)) ++ pad ++ nl.

(** A character of the format that stands for itself. *)
Definition plainChar (c : ascii) : bool :=
  negb (Fmt.isSpaceByte c) && negb (Ascii.eqb c "%").

(** The next character, if any, does not continue a number. *)
Definition numberEnds (rest : gostring) : Prop :=
  match rest with
  | [] => True
  | c :: _ => Fmt.isDecimalDigit c = false
  end.

End PageTerms.

Section ProgressTerms.
Import Threads.


(** Scheduling invocation [j] makes it take the step [a]. *)
Definition canStep (st : Shared) (j : nat) (a : Action) : Prop :=
  trace (step st j) = trace st ++ [(j, a)].

End ProgressTerms.

Section RequestTerms.
Import exporter.

(** The values a header map gives a key. *)
Definition headerValues (h : heap) (m : nat) (key : gostring)
    : option (list gostring) :=
  valuesAt h <$> (entriesAt h m !! key).

(** The header of the request is a map in the heap and its slices are
    arrays in the heap. *)
Definition wellFormed (h : heap) (req : Request) : Prop :=
  (exists entries, h !! Header req = Some (HeaderMap entries)) /\
  (forall key l, entriesAt h (Header req) !! key = Some l ->
                 exists vs, h !! l = Some (Values vs)).

(** What the loop of [cloneRequest] has done after some turns: the cells of
    the heap [h] it started from are as they were, the clone's map is at
    [m], and each of its keys has a new slice with the values the key has
    in the map of the original. *)
Record cloning (h : heap) (src : gmap gostring nat) (m : nat)
    (done : list (gostring * nat)) (hc : heap) : Prop := {
  cl_frame : forall l o, h !! l = Some o -> hc !! l = Some o;
  cl_map   : exists entries, hc !! m = Some (HeaderMap entries) /\
      (forall key,
         match entries !! key with
         | Some nl =>
           h !! nl = None /\
           exists l, In (key, l) done /\
                     hc !! nl = Some (Values (valuesAt h l))
         | None => forall l, ~ In (key, l) done
         end)
}.

End RequestTerms.

(* ===================================================================== *)
(** * Theorems *)
(* ===================================================================== *)

(** ** Strings *)

Lemma HasPrefix_app (s t : gostring) : Strings.HasPrefix (s ++ t) s = true.
Proof.
  induction s as [|c s IH]; simpl; [reflexivity|].
  rewrite Ascii.eqb_refl. exact IH.
Qed.

Lemma HasPrefix_inv (s p : gostring) :
  Strings.HasPrefix s p = true -> exists t, s = p ++ t.
Proof.
  revert s. induction p as [|c p IH]; intros s H.
  - exists s. reflexivity.
  - destruct s as [|d s]; simpl in H; [discriminate|].
    apply andb_prop in H as [Hc Hp]. apply Ascii.eqb_eq in Hc. subst d.
    destruct (IH _ Hp) as [t ->]. exists t. reflexivity.
Qed.

Lemma Contains_char (c : ascii) (s : gostring) :
  Strings.Contains s [c] = true <-> In c s.
Proof.
  induction s as [|d s IH]; simpl.
  - split; [discriminate | contradiction].
  - rewrite andb_true_r. rewrite orb_true_iff, IH, Ascii.eqb_eq.
    split; (intros [H|H]; [left; congruence | right; exact H]).
Qed.

(** ** The reachability probe *)

Section Probe.
Import client.

(** C7.  For every world and every target string, [tcpTest] returns a nil
    error.  When the dial fails the result is [TcpFailure] (0) and nothing
    else happens; when it yields a connection, that connection is closed
    at once and the result is [TcpSuccess] (1). *)
Theorem tcpTest_never_errors (w : World) (proxyTarget : gostring) :
  exists result events,
    tcpTest w proxyTarget = (result, None, events) /\
    match wDial w (dialAddress proxyTarget) 5 with
    | DialConn conn =>
      result = 1%Z /\
      events = [EvDial (dialAddress proxyTarget) 5; EvClose conn]
    | DialErr | DialNone =>
      result = 0%Z /\ events = [EvDial (dialAddress proxyTarget) 5]
    end.
Proof.
  unfold tcpTest.
  destruct (wDial w (dialAddress proxyTarget) 5) as [|conn|];
    do 2 eexists; (split; [reflexivity|]); split; reflexivity.
Qed.

(** C8.  A target without a colon is dialled as the target followed by
    [:80]; a target with a colon is dialled as it is.  The dialled address
    is the one of the [EvDial] event that [tcpTest] starts with. *)
Theorem tcpTest_default_port (w : World) (proxyTarget : gostring) :
  (exists result events,
     tcpTest w proxyTarget =
     (result, None, EvDial (dialAddress proxyTarget) 5 :: events)) /\
  (~ In ":"%char proxyTarget ->
     dialAddress proxyTarget = proxyTarget ++ b ":80") /\
  (In ":"%char proxyTarget -> dialAddress proxyTarget = proxyTarget).
Proof.
  split; [|split].
  - unfold tcpTest.
    destruct (wDial w (dialAddress proxyTarget) 5); do 2 eexists; reflexivity.
  - intros Hno. unfold dialAddress.
    destruct (Strings.Contains proxyTarget (b ":")) eqn:E; [|reflexivity].
    apply Contains_char in E. contradiction.
  - intros Hin. unfold dialAddress.
    apply (Contains_char ":"%char) in Hin. change [":"%char] with (b ":") in Hin.
    rewrite Hin. reflexivity.
Qed.

Lemma tcpTest_default_port_witness :
  dialAddress (b "10.0.0.5") = b "10.0.0.5:80" /\
  dialAddress (b "10.0.0.5:9000") = b "10.0.0.5:9000".
Proof.
  split.
  - apply (proj1 (proj2 (tcpTest_default_port Sample.worldUp (b "10.0.0.5")))).
    vm_compute. intuition discriminate.
  - apply (proj2 (proj2 (tcpTest_default_port Sample.worldUp (b "10.0.0.5:9000")))).
    vm_compute. tauto.
Defined.

End Probe.

(** ** The collection cycle *)

Section Cycle.
Import client collector.

Lemma stubMetrics_not_up (stats : StubStats) :
  Forall (fun m => isUp m = false /\ fileLabel m = None) (stubMetrics stats).
Proof. unfold stubMetrics. repeat constructor. Qed.

Lemma Mtime_fileMetrics_label (w : World) (f : gostring) :
  Forall (fun m => fileLabel m = Some f) (Mtime.fileMetrics w f).
Proof.
  unfold Mtime.fileMetrics. destruct (wStat w f) as [info|]; [|constructor].
  destruct (Strings.HasSuffix _ _); simpl; repeat constructor.
Qed.

Lemma Inline_fileMetrics_label (w : World) (f : gostring) :
  Forall (fun m => fileLabel m = Some f) (Inline.fileMetrics w f).
Proof.
  unfold Inline.fileMetrics. destruct (wStat w f) as [info|]; [|constructor].
  destruct (Strings.HasSuffix _ _); simpl; [|constructor].
  destruct (helper.extractProxyTarget w f) as [ts [e|]]; [constructor|].
  apply Forall_app. split; [|repeat constructor].
  unfold Inline.healthMetrics. apply Forall_map, List.Forall_forall. intros t _.
  destruct (helper.tcpTest w t) as [[r e] ev]. reflexivity.
Qed.

Lemma Custom_modMetrics_label (m : gmap gostring Z) :
  Forall (fun x => isUp x = false) (Custom.modMetrics m).
Proof.
  unfold Custom.modMetrics. apply Forall_map, List.Forall_forall.
  intros [file t] _. reflexivity.
Qed.

Lemma Custom_healthMetrics_label (m : gmap gostring (list UpstreamTargetHealth)) :
  Forall (fun x => isUp x = false) (Custom.healthMetrics m).
Proof.
  unfold Custom.healthMetrics. apply List.Forall_forall. intros x Hx.
  apply in_flat_map in Hx as [[file hs] [_ Hx]].
  apply in_map_iff in Hx as [h [<- _]]. reflexivity.
Qed.

Lemma labelled_not_up (f : gostring) (l : list Metric) :
  Forall (fun m => fileLabel m = Some f) l -> Forall (fun m => isUp m = false) l.
Proof.
  apply List.Forall_impl. intros [] H; simpl in *; congruence.
Qed.

Lemma flat_map_not_up (g : gostring -> list Metric) (files : list gostring) :
  (forall f, Forall (fun m => fileLabel m = Some f) (g f)) ->
  Forall (fun m => isUp m = false) (flat_map g files).
Proof.
  intros Hg. apply List.Forall_forall. intros m Hm.
  apply in_flat_map in Hm as [f [_ Hm]].
  pose proof (labelled_not_up f _ (Hg f)) as H.
  rewrite List.Forall_forall in H. auto.
Qed.

(** The shape shared by the three revisions of [Collect]. *)
Lemma up_flag_of_shape (w : World) (c : NginxCollector) (rest : list Metric)
    (out : list Metric) :
  out = match GetStubStats w (nginxClient c) with
        | inr _ => [MUp helper.nginxDown]
        | inl stats => MUp helper.nginxUp :: stubMetrics stats ++ rest
        end ->
  Forall (fun m => isUp m = false) rest ->
  (statusFailed w c -> out = [MUp 0%Z]) /\
  (In (MUp 0%Z) out <-> statusFailed w c).
Proof.
  intros -> Hrest. unfold statusFailed.
  destruct (GetStubStats w (nginxClient c)) as [stats|e].
  - split; [intros [e He]; discriminate|].
    split; [|intros [e He]; discriminate].
    intros [H|H]; [discriminate|]. exfalso.
    apply in_app_or in H as [H|H].
    + pose proof (stubMetrics_not_up stats) as F. rewrite List.Forall_forall in F.
      destruct (F _ H) as [F1 _]. discriminate.
    + rewrite List.Forall_forall in Hrest. specialize (Hrest _ H). discriminate.
  - split; [reflexivity|]. split; [eauto|]. intros _. left. reflexivity.
Qed.

(** C1, as the code has it.  In each of the three revisions of [Collect], a
    cycle whose status fetch fails sends the up metric with value 0 and
    nothing else: no modification-time and no health metric.  The up metric
    with value 0 is sent exactly when the status fetch failed. *)
Theorem Collect_status_failure
    (extract : World -> gostring -> list gostring * error)
    (w : World) (c : NginxCollector) :
  Forall (fun out =>
            (statusFailed w c -> out = [MUp 0%Z]) /\
            (In (MUp 0%Z) out <-> statusFailed w c))
         [Mtime.Collect w c; Inline.Collect w c; Custom.Collect extract w c].
Proof.
  assert (Hc : forall customStats : option CustomStats * error,
             Forall (fun m => isUp m = false)
               (match customStats with
                | (Some customStats, None) =>
                  Custom.modMetrics (ModifiedTimes customStats) ++
                  Custom.healthMetrics (UpstreamHealths customStats)
                | _ => []
                end)).
  { intros [[cs|] [e|]]; try constructor.
    apply Forall_app. split;
      [apply Custom_modMetrics_label | apply Custom_healthMetrics_label]. }
  constructor; [|constructor; [|constructor; [|constructor]]].
  - apply (up_flag_of_shape w c
             (flat_map (Mtime.fileMetrics w) (discover w (nginxConfigPath c))));
      [reflexivity|].
    apply flat_map_not_up, Mtime_fileMetrics_label.
  - apply (up_flag_of_shape w c
             (flat_map (Inline.fileMetrics w) (discover w (nginxConfigPath c))));
      [reflexivity|].
    apply flat_map_not_up, Inline_fileMetrics_label.
  - eapply (up_flag_of_shape w c); [|apply (Hc (GetCustomStats extract w (nginxConfigPath c)))].
    unfold Custom.Collect.
    destruct (GetStubStats w (nginxClient c)); [|reflexivity].
    destruct (GetCustomStats extract w (nginxConfigPath c)) as [[cs|] [e|]];
      reflexivity.
Qed.

Lemma Collect_status_failure_witness :
  Mtime.Collect Sample.worldDown Sample.theCollector = [MUp 0%Z].
Proof.
  apply (proj1 (List.Forall_inv
                  (Collect_status_failure helper.extractProxyTarget
                     Sample.worldDown Sample.theCollector))).
  exists (b "failed to get"). reflexivity.
Defined.

(** C1 as stated fails: with the status endpoint unreachable, the
    configuration file is there and ends in [.conf], yet the cycle sends the
    up metric alone, without the file's modification time or its probe. *)
Lemma Collect_failure_sends_no_file_metric :
  statusFailed Sample.worldDown Sample.theCollector /\
  In Sample.nginxConf
     (discover Sample.worldDown (nginxConfigPath Sample.theCollector)) /\
  wStat Sample.worldDown Sample.nginxConf =
    Some {| fiName := b "nginx.conf"; fiModTime := 1700000000 |} /\
  helper.extractProxyTarget Sample.worldDown Sample.nginxConf =
    ([b "10.0.0.5:9000"], None) /\
  ~ In (MConfigMod Sample.nginxConf 1700000000)
       (Mtime.Collect Sample.worldDown Sample.theCollector) /\
  ~ In (MConfigMod Sample.nginxConf 1700000000)
       (Inline.Collect Sample.worldDown Sample.theCollector) /\
  ~ In (MHealth Sample.nginxConf (b "10.0.0.5:9000") 1)
       (Inline.Collect Sample.worldDown Sample.theCollector).
Proof.
  split; [exists (b "failed to get"); reflexivity|].
  split; [left; reflexivity|].
  split; [reflexivity|].
  split; [vm_compute; reflexivity|].
  repeat split; intros [H|[]]; discriminate H.
Qed.

Lemma Collect_success_shape_Mtime (w : World) (c : NginxCollector)
    (stats : StubStats) :
  GetStubStats w (nginxClient c) = inl stats ->
  Mtime.Collect w c =
  MUp 1%Z :: stubMetrics stats ++
  flat_map (Mtime.fileMetrics w) (discover w (nginxConfigPath c)).
Proof. intros H. unfold Mtime.Collect. rewrite H. reflexivity. Qed.

Lemma Collect_success_shape_Inline (w : World) (c : NginxCollector)
    (stats : StubStats) :
  GetStubStats w (nginxClient c) = inl stats ->
  Inline.Collect w c =
  MUp 1%Z :: stubMetrics stats ++
  flat_map (Inline.fileMetrics w) (discover w (nginxConfigPath c)).
Proof. intros H. unfold Inline.Collect. rewrite H. reflexivity. Qed.

(** A metric labelled with [f] comes from the turn of the loop for [f]. *)
Lemma labelled_metric_origin (g : gostring -> list Metric)
    (stats : StubStats) (files : list gostring) (f : gostring) (m : Metric) :
  (forall f', Forall (fun m => fileLabel m = Some f') (g f')) ->
  In m (MUp 1%Z :: stubMetrics stats ++ flat_map g files) ->
  fileLabel m = Some f -> In m (g f).
Proof.
  intros Hg [<-|Hm] Hl; [discriminate|].
  apply in_app_or in Hm as [Hm|Hm].
  - pose proof (stubMetrics_not_up stats) as F.
    rewrite List.Forall_forall in F. destruct (F _ Hm) as [_ F2]. congruence.
  - apply in_flat_map in Hm as [f' [_ Hm]].
    pose proof (Hg f') as F. rewrite List.Forall_forall in F.
    specialize (F _ Hm). assert (f' = f) by congruence. subst f'. exact Hm.
Qed.

(** C3, as the code has it.  On a cycle whose status fetch succeeded, a
    candidate that can be statted and whose base name ends in [.conf] sends
    a modification-time metric labelled with its path (in the revision that
    probes, provided the file can also be read), whatever happens to the
    other candidates.  A candidate that cannot be statted, or whose base
    name does not end in [.conf], or (in the revision that probes) that
    cannot be read, sends no metric labelled with its path. *)
Theorem candidate_reported_or_dropped (w : World) (c : NginxCollector)
    (stats : StubStats) (f : gostring) :
  GetStubStats w (nginxClient c) = inl stats ->
  In f (discover w (nginxConfigPath c)) ->
  (forall info,
     wStat w f = Some info ->
     Strings.HasSuffix (fiName info) (b ".conf") = true ->
     In (MConfigMod f (fiModTime info)) (Mtime.Collect w c) /\
     (wReadFile w f <> None ->
      In (MConfigMod f (fiModTime info)) (Inline.Collect w c))) /\
  (wStat w f = None \/
   (exists info, wStat w f = Some info /\
                 Strings.HasSuffix (fiName info) (b ".conf") = false) ->
   forall m, In m (Mtime.Collect w c) \/ In m (Inline.Collect w c) ->
             fileLabel m <> Some f) /\
  (wReadFile w f = None ->
   forall m, In m (Inline.Collect w c) -> fileLabel m <> Some f).
Proof.
  intros Hs Hf.
  rewrite (Collect_success_shape_Mtime w c stats Hs).
  rewrite (Collect_success_shape_Inline w c stats Hs).
  split; [|split].
  - intros info Hstat Hsuf. split.
    + right. apply in_or_app. right. apply in_flat_map. exists f.
      split; [exact Hf|]. unfold Mtime.fileMetrics.
      rewrite Hstat, Hsuf. left. reflexivity.
    + intros Hread. right. apply in_or_app. right. apply in_flat_map.
      exists f. split; [exact Hf|]. unfold Inline.fileMetrics.
      rewrite Hstat, Hsuf. simpl. unfold helper.extractProxyTarget.
      destruct (wReadFile w f) as [content|]; [|congruence].
      apply in_or_app. right. left. reflexivity.
  - intros Hdrop m Hm Hl.
    assert (Mtime.fileMetrics w f = [] /\ Inline.fileMetrics w f = []) as [E1 E2].
    { unfold Mtime.fileMetrics, Inline.fileMetrics.
      destruct Hdrop as [-> | [info [-> ->]]]; split; reflexivity. }
    destruct Hm as [Hm|Hm].
    + apply (labelled_metric_origin _ _ _ f) in Hm;
        [|apply Mtime_fileMetrics_label|exact Hl].
      rewrite E1 in Hm. exact Hm.
    + apply (labelled_metric_origin _ _ _ f) in Hm;
        [|apply Inline_fileMetrics_label|exact Hl].
      rewrite E2 in Hm. exact Hm.
  - intros Hread m Hm Hl.
    apply (labelled_metric_origin _ _ _ f) in Hm;
      [|apply Inline_fileMetrics_label|exact Hl].
    unfold Inline.fileMetrics, helper.extractProxyTarget in Hm.
    rewrite Hread in Hm. destruct (wStat w f) as [info|]; [|exact Hm].
    destruct (Strings.HasSuffix _ _); exact Hm.
Qed.

Lemma candidate_reported_or_dropped_witness :
  In (MConfigMod Sample.appConf 1700000100)
     (Inline.Collect Sample.worldUp Sample.theCollector).
Proof.
  assert (Hs : exists stats,
             GetStubStats Sample.worldUp (nginxClient Sample.theCollector)
             = inl stats).
  { eexists. vm_compute. reflexivity. }
  destruct Hs as [stats Hs].
  assert (Hf : In Sample.appConf
                 (discover Sample.worldUp (nginxConfigPath Sample.theCollector))).
  { right. left. reflexivity. }
  destruct (candidate_reported_or_dropped Sample.worldUp Sample.theCollector
              stats Sample.appConf Hs Hf) as [H _].
  apply (H {| fiName := b "app.conf"; fiModTime := 1700000100 |});
    [reflexivity | reflexivity | discriminate].
Defined.

(** C3 as stated fails: [mime.types] is a candidate of the cycle and can be
    statted, yet neither revision sends a metric for it. *)
Lemma statted_candidate_without_metric :
  (exists stats,
     GetStubStats Sample.worldUp (nginxClient Sample.theCollector) = inl stats) /\
  In Sample.mimeTypes
     (discover Sample.worldUp (nginxConfigPath Sample.theCollector)) /\
  wStat Sample.worldUp Sample.mimeTypes =
    Some {| fiName := b "mime.types"; fiModTime := 1600000000 |} /\
  (forall unix,
     ~ In (MConfigMod Sample.mimeTypes unix)
          (Mtime.Collect Sample.worldUp Sample.theCollector)) /\
  (forall unix,
     ~ In (MConfigMod Sample.mimeTypes unix)
          (Inline.Collect Sample.worldUp Sample.theCollector)).
Proof.
  split; [eexists; vm_compute; reflexivity|].
  split; [right; right; left; reflexivity|].
  split; [reflexivity|].
  split; intros unix H; vm_compute in H;
    repeat (destruct H as [H|H]; [discriminate H|]); exact H.
Qed.

(** ** [GetCustomStats] *)

Section CustomStats.
Variable extract : World -> gostring -> list gostring * error.
Variable w : World.

Lemma probeAll_spec (targets : list gostring) :
  map Target (probeAll w targets) = targets /\
  Forall (fun h => Health h = probeOutcome (wDial w (dialAddress (Target h)) 5))
         (probeAll w targets).
Proof.
  unfold probeAll.
  assert (G : forall acc,
    let r := fold_left (fun healths target =>
               let '(result, _, _) := tcpTest w target in
               healths ++ [{| Target := target; Health := result |}])
               targets acc in
    map Target r = map Target acc ++ targets /\
    (Forall (fun h => Health h = probeOutcome (wDial w (dialAddress (Target h)) 5)) acc ->
     Forall (fun h => Health h = probeOutcome (wDial w (dialAddress (Target h)) 5)) r)).
  { induction targets as [|t ts IH]; intros acc; simpl.
    - rewrite app_nil_r. auto.
    - destruct (tcpTest w t) as [[result e] ev] eqn:E.
      destruct (IH (acc ++ [{| Target := t; Health := result |}])) as [H1 H2].
      split.
      + rewrite H1, map_app, <- app_assoc. reflexivity.
      + intros Hacc. apply H2. apply Forall_app. split; [exact Hacc|].
        constructor; [|constructor]. simpl.
        unfold tcpTest in E. destruct (wDial w (dialAddress t) 5);
          inversion E; reflexivity. }
  destruct (G []) as [H1 H2]. split; [exact H1 | apply H2; constructor].
Qed.

Lemma customStats_unstatted (files : list gostring) (cs : CustomStats)
    (file : gostring) :
  wStat w file = None ->
  ModifiedTimes (fold_left (customStatsStep extract w) files cs) !! file = ModifiedTimes cs !! file /\
  UpstreamHealths (fold_left (customStatsStep extract w) files cs) !! file = UpstreamHealths cs !! file.
Proof.
  intros Hnone. revert cs.
  induction files as [|f files IH]; intros cs; simpl; [auto|].
  destruct (IH (customStatsStep extract w cs f)) as [H1 H2].
  rewrite H1, H2. unfold customStatsStep.
  destruct (wStat w f) as [info|] eqn:E; [|auto].
  destruct (extract w f) as [targets e]. simpl.
  assert (f <> file) by congruence.
  rewrite !lookup_insert_ne by assumption. auto.
Qed.

Lemma customStats_settled (files : list gostring) (cs : CustomStats)
    (file : gostring) (info : FileInfo) :
  wStat w file = Some info ->
  ModifiedTimes cs !! file = Some (fiModTime info) ->
  UpstreamHealths cs !! file = Some (probeAll w (fst (extract w file))) ->
  ModifiedTimes (fold_left (customStatsStep extract w) files cs) !! file = Some (fiModTime info) /\
  UpstreamHealths (fold_left (customStatsStep extract w) files cs) !! file
    = Some (probeAll w (fst (extract w file))).
Proof.
  intros Hstat. revert cs.
  induction files as [|f files IH]; intros cs Hm Hh; simpl; [auto|].
  apply IH; unfold customStatsStep;
    destruct (wStat w f) as [info'|] eqn:E; try assumption;
    destruct (extract w f) as [targets e] eqn:Ex; simpl;
    (destruct (decide (f = file)) as [->|Hne];
     [rewrite lookup_insert_eq | rewrite lookup_insert_ne by assumption; assumption]).
  - congruence.
  - rewrite Ex. reflexivity.
Qed.

Lemma customStats_statted (files : list gostring) (cs : CustomStats)
    (file : gostring) (info : FileInfo) :
  In file files ->
  wStat w file = Some info ->
  ModifiedTimes (fold_left (customStatsStep extract w) files cs) !! file = Some (fiModTime info) /\
  UpstreamHealths (fold_left (customStatsStep extract w) files cs) !! file
    = Some (probeAll w (fst (extract w file))).
Proof.
  intros Hin Hstat. revert cs.
  induction files as [|f files IH]; intros cs; [contradiction|]. simpl.
  destruct Hin as [->|Hin]; [|apply IH; exact Hin].
  apply (customStats_settled files _ file info Hstat);
    unfold customStatsStep; rewrite Hstat;
    destruct (extract w file) as [targets e]; simpl;
    apply lookup_insert_eq.
Qed.

(** C10.  For every configuration path, every world and every extractor,
    [GetCustomStats] returns a non-nil [CustomStats] and a nil error.  A file
    that cannot be statted has no entry in either map.  A candidate that can
    be statted has its modification time and one health entry per extracted
    target, in order, each 1 or 0 after the outcome of its dial (a failed
    extraction leaves whatever targets came with the discarded error).  The
    caller never takes its error branch: on a successful status fetch it
    sends the up metric, the counters and the metrics of both maps. *)
Theorem GetCustomStats_never_fails (nginxConfigPath : gostring) :
  exists customStats,
    GetCustomStats extract w nginxConfigPath = (Some customStats, None) /\
    (forall file, wStat w file = None ->
       ModifiedTimes customStats !! file = None /\
       UpstreamHealths customStats !! file = None) /\
    (forall file info,
       In file (discover w nginxConfigPath) -> wStat w file = Some info ->
       ModifiedTimes customStats !! file = Some (fiModTime info) /\
       exists healths,
         UpstreamHealths customStats !! file = Some healths /\
         map Target healths = fst (extract w file) /\
         Forall (fun h => Health h
                          = probeOutcome (wDial w (dialAddress (Target h)) 5))
                healths) /\
    (forall c stats,
       collector.nginxConfigPath c = nginxConfigPath ->
       GetStubStats w (nginxClient c) = inl stats ->
       Custom.Collect extract w c =
       MUp 1%Z :: stubMetrics stats ++
       Custom.modMetrics (ModifiedTimes customStats) ++
       Custom.healthMetrics (UpstreamHealths customStats)).
Proof.
  eexists. split; [reflexivity|]. split; [|split].
  - intros file Hnone.
    destruct (customStats_unstatted (discover w nginxConfigPath)
                {| ModifiedTimes := ∅; UpstreamHealths := ∅ |} file Hnone)
      as [H1 H2].
    rewrite H1, H2. simpl. rewrite !lookup_empty. auto.
  - intros file info Hin Hstat.
    destruct (customStats_statted (discover w nginxConfigPath)
                {| ModifiedTimes := ∅; UpstreamHealths := ∅ |} file info Hin Hstat)
      as [H1 H2].
    split; [exact H1|].
    eexists. split; [exact H2|]. apply probeAll_spec.
  - intros c stats <- Hs. unfold Custom.Collect. rewrite Hs. reflexivity.
Qed.

End CustomStats.

Lemma GetCustomStats_never_fails_witness :
  exists customStats,
    GetCustomStats helper.extractProxyTarget Sample.worldUp Sample.nginxConf
      = (Some customStats, None) /\
    ModifiedTimes customStats !! Sample.nginxConf = Some 1700000000%Z.
Proof.
  destruct (GetCustomStats_never_fails helper.extractProxyTarget
              Sample.worldUp Sample.nginxConf) as (cs & E & _ & H & _).
  exists cs. split; [exact E|].
  apply (H Sample.nginxConf
           {| fiName := b "nginx.conf"; fiModTime := 1700000000 |});
    [left; reflexivity | reflexivity].
Defined.

End Cycle.

(** ** Regular expressions: what a successful match tells *)

Section RegexpSound.
Import Regexp.

Lemma orelse_Some {A} (x y : option A) (a : A) :
  orelse x y = Some a -> x = Some a \/ y = Some a.
Proof. destruct x; simpl; auto. Qed.

Lemma starLoop_sound {A} (g : bool) (r : regex)
    (k : nat -> gostring -> caps -> option A) (a : A) :
  (forall pos s cs k', run r pos s cs k' = Some a -> continued r pos s k' a) ->
  forall fuel pos s cs,
    starLoop (run r) g k fuel pos s cs = Some a ->
    continued (Star g r) pos s k a.
Proof.
  intros IHr. induction fuel as [|fuel IH]; intros pos s cs H; simpl in H.
  - exists [], s, cs. rewrite Nat.add_0_r. repeat split; [constructor|exact H].
  - assert (Hcases :
      run r pos s cs (fun pos' s' cs' =>
        if Nat.ltb pos pos' then starLoop (run r) g k fuel pos' s' cs'
        else None) = Some a \/ k pos s cs = Some a).
    { destruct g; apply orelse_Some in H; tauto. }
    destruct Hcases as [Hagain|Hstop].
    + apply IHr in Hagain as (u1 & rest1 & cs1 & -> & Hm1 & Hk).
      destruct (Nat.ltb_spec pos (pos + length u1)) as [Hlt|]; [|discriminate].
      apply IH in Hk as (u2 & rest2 & cs2 & -> & Hm2 & Hk2).
      exists (u1 ++ u2), rest2, cs2. rewrite <- app_assoc, length_app, Nat.add_assoc.
      repeat split; [|exact Hk2].
      constructor; [|exact Hm1|exact Hm2].
      intros ->. simpl in Hlt. lia.
    + exists [], s, cs. rewrite Nat.add_0_r. repeat split; [constructor|exact Hstop].
Qed.

Lemma run_sound {A} (r : regex) (a : A) :
  forall pos s cs k, run r pos s cs k = Some a -> continued r pos s k a.
Proof.
  induction r as [|c|p|r1 IH1 r2 IH2|r1 IH1 r2 IH2|g r IH|i r IH| |];
    intros pos s cs k H; simpl in H.
  - exists [], s, cs. rewrite Nat.add_0_r. repeat split; [constructor|exact H].
  - destruct s as [|c' s']; [discriminate|].
    destruct (Ascii.eqb_spec c' c) as [->|]; [|discriminate].
    exists [c], s', cs. simpl. rewrite Nat.add_1_r.
    repeat split; [constructor|exact H].
  - destruct s as [|c' s']; [discriminate|].
    destruct (p c') eqn:Hp; [|discriminate].
    exists [c'], s', cs. simpl. rewrite Nat.add_1_r.
    repeat split; [constructor; exact Hp|exact H].
  - apply IH1 in H as (u1 & rest1 & cs1 & -> & Hm1 & Hk).
    apply IH2 in Hk as (u2 & rest2 & cs2 & -> & Hm2 & Hk2).
    exists (u1 ++ u2), rest2, cs2. rewrite <- app_assoc, length_app, Nat.add_assoc.
    repeat split; [|exact Hk2]. constructor; assumption.
  - apply orelse_Some in H as [H|H].
    + apply IH1 in H as (u & rest & cs1 & -> & Hm & Hk).
      exists u, rest, cs1. repeat split; [apply MAltL; exact Hm|exact Hk].
    + apply IH2 in H as (u & rest & cs1 & -> & Hm & Hk).
      exists u, rest, cs1. repeat split; [apply MAltR; exact Hm|exact Hk].
  - apply (starLoop_sound g r k a IH (S (length s)) pos s cs). exact H.
  - apply IH in H as (u & rest & cs1 & -> & Hm & Hk).
    exists u, rest, ((i, firstn (pos + length u - pos) (u ++ rest)) :: cs1).
    repeat split; [constructor; exact Hm|exact Hk].
  - destruct (Nat.eqb_spec pos 0) as [->|]; [|discriminate].
    exists [], s, cs. repeat split; [constructor|exact H].
  - destruct s; [|discriminate].
    exists [], [], cs. rewrite Nat.add_0_r. repeat split; [constructor|exact H].
Qed.

(** A search that finds something found a match of the expression. *)
Lemma search_sound (r : regex) (s : gostring) :
  forall pos f, search r pos s = Some f ->
  exists pre, s = pre ++ fText f ++ fRest f /\
              fStart f = pos + length pre /\
              matches r (fStart f) (fText f) (fRest f).
Proof.
  induction s as [|c s IH]; intros pos f H; simpl in H.
  - destruct (run r pos [] [] _) as [[[pos' s'] cs]|] eqn:E; [|discriminate].
    injection H as <-. simpl.
    apply run_sound in E as (u & rest & cs1 & Hs & Hm & Hk).
    injection Hk as <- <- <-. exists [].
    rewrite Nat.add_0_r. replace (pos + length u - pos) with (length u) by lia.
    symmetry in Hs. apply app_eq_nil in Hs as [-> ->]. auto.
  - destruct (run r pos (c :: s) [] _) as [[[pos' s'] cs]|] eqn:E.
    + injection H as <-. simpl.
      apply run_sound in E as (u & rest & cs1 & Hs & Hm & Hk).
      injection Hk as <- <- <-. exists [].
      rewrite Nat.add_0_r. replace (pos + length u - pos) with (length u) by lia.
      rewrite Hs, firstn_app, Nat.sub_diag, firstn_all. simpl.
      rewrite app_nil_r. auto.
    + apply IH in H as (pre & Hs & Hst & Hm).
      exists (c :: pre). simpl. rewrite Hs at 1. split; [reflexivity|].
      split; [lia|exact Hm].
Qed.

(** *** Reading a match off the expression *)

Lemma matches_Lits (l : gostring) (pos : nat) (u rest : gostring) :
  matches (Lits l) pos u rest -> u = l.
Proof.
  revert pos u. induction l as [|c l IH]; intros pos u H; simpl in H.
  - inversion H. reflexivity.
  - inversion H as [| | |? ? ? u1 u2 ? H1 H2| | | | | | |]; subst.
    inversion H1; subst. simpl. f_equal. eapply IH. exact H2.
Qed.

Lemma matches_Star_Class (g : bool) (p : ascii -> bool) (pos : nat)
    (u rest : gostring) :
  matches (Star g (Class p)) pos u rest -> Forall (fun c => p c = true) u.
Proof.
  intros H. remember (Star g (Class p)) as r eqn:Er.
  induction H; try discriminate; injection Er as -> ->.
  - constructor.
  - apply Forall_app. split; [|apply IHmatches2; reflexivity].
    inversion H0; subst. constructor; [assumption|constructor].
Qed.

Lemma matches_Plus_Class (p : ascii -> bool) (pos : nat) (u rest : gostring) :
  matches (Plus (Class p)) pos u rest ->
  u <> [] /\ Forall (fun c => p c = true) u.
Proof.
  intros H. inversion H as [| | |? ? ? u1 u2 ? H1 H2| | | | | | |]; subst.
  inversion H1; subst. split; [discriminate|].
  constructor; [assumption|]. eapply matches_Star_Class. exact H2.
Qed.

Lemma matches_nil_nullable (r : regex) (pos : nat) (u rest : gostring) :
  matches r pos u rest -> u = [] -> nullable r = true.
Proof.
  induction 1; intros E; simpl; try reflexivity; try discriminate; auto.
  - apply app_eq_nil in E as [-> ->]. rewrite IHmatches1, IHmatches2; reflexivity.
  - rewrite IHmatches by assumption. reflexivity.
  - rewrite IHmatches by assumption. apply orb_true_r.
Qed.

Lemma matches_allIn (P : ascii -> bool) (r : regex) (pos : nat)
    (u rest : gostring) :
  matches r pos u rest -> allIn P r -> Forall (fun c => P c = true) u.
Proof.
  induction 1; simpl; intros HP; try constructor; auto; try constructor.
  - apply Forall_app. destruct HP. split; auto.
  - destruct HP; auto.
  - destruct HP; auto.
  - apply Forall_app. split; auto.
Qed.

Lemma matches_firstIn (P : ascii -> bool) (r : regex) (pos : nat)
    (u rest : gostring) :
  matches r pos u rest -> firstIn P r ->
  forall c u', u = c :: u' -> P c = true.
Proof.
  induction 1; simpl; intros HP c0 u' E; try discriminate.
  - injection E as <- _. exact HP.
  - injection E as <- _. auto.
  - destruct HP as [HP1 HP2]. destruct u1 as [|d u1].
    + simpl in E. eapply IHmatches2; [|exact E].
      apply HP2. eapply matches_nil_nullable; [exact H|reflexivity].
    + injection E as <- _. eapply IHmatches1; [exact HP1|reflexivity].
  - destruct HP. eauto.
  - destruct HP. eauto.
  - destruct u1 as [|d u1]; [congruence|].
    injection E as <- _. eapply IHmatches1; [exact HP|reflexivity].
  - eauto.
Qed.

Lemma app_eq_snoc (u1 u2 u' : gostring) (c : ascii) :
  u1 ++ u2 = u' ++ [c] ->
  (u2 = [] /\ u1 = u' ++ [c]) \/ exists u2', u2 = u2' ++ [c].
Proof.
  intros E. destruct u2 as [|d u2] using rev_ind.
  - left. rewrite app_nil_r in E. auto.
  - right. rewrite app_assoc in E. apply app_inj_tail in E as [_ ->]. eauto.
Qed.

Lemma matches_lastIn (P : ascii -> bool) (r : regex) (pos : nat)
    (u rest : gostring) :
  matches r pos u rest -> lastIn P r ->
  forall u' c, u = u' ++ [c] -> P c = true.
Proof.
  induction 1; simpl; intros HP u' c0 E;
    try (destruct u'; discriminate).
  - destruct u' as [|? [|]]; try discriminate. injection E as <-. exact HP.
  - destruct u' as [|? [|]]; try discriminate. injection E as <-. auto.
  - destruct HP as [HP2 HP1].
    apply app_eq_snoc in E as [[-> E]|[u2' E]].
    + eapply IHmatches1; [|exact E].
      apply HP1. eapply matches_nil_nullable; [exact H0|reflexivity].
    + eapply IHmatches2; [exact HP2|exact E].
  - destruct HP. eauto.
  - destruct HP. eauto.
  - apply app_eq_snoc in E as [[-> E]|[u2' E]].
    + eapply IHmatches1; [exact HP|exact E].
    + eapply IHmatches2; [exact HP|exact E].
  - eauto.
Qed.

Lemma matches_startsAnchored (r : regex) (pos : nat) (u rest : gostring) :
  matches r pos u rest -> startsAnchored r = true -> pos = 0.
Proof. induction 1; simpl; intros E; try discriminate; auto. Qed.

Lemma matches_endsAnchored (r : regex) (pos : nat) (u rest : gostring) :
  matches r pos u rest -> endsAnchored r = true -> rest = [].
Proof. induction 1; simpl; intros E; try discriminate; auto. Qed.

(** An anchored expression that matches somewhere in [s] matches all of it. *)
Lemma MatchString_anchored (r : regex) (s : gostring) :
  startsAnchored r = true -> endsAnchored r = true ->
  MatchString r s = true -> matches r 0 s [].
Proof.
  intros Hb He H. unfold MatchString in H.
  destruct (search r 0 s) as [f|] eqn:E; [|discriminate].
  apply search_sound in E as (pre & Hs & Hst & Hm).
  pose proof (matches_startsAnchored _ _ _ _ Hm Hb) as H0.
  pose proof (matches_endsAnchored _ _ _ _ Hm He) as H1.
  rewrite H0 in Hm. rewrite H1 in Hm, Hs.
  assert (pre = []) by (destruct pre; [reflexivity|simpl in Hst; lia]).
  subst pre. rewrite app_nil_r in Hs. simpl in Hs. subst s. exact Hm.
Qed.

End RegexpSound.

(** ** The directive extractor *)

Section Extractor.
Import Regexp helper.

Lemma matches_Cat_inv (r1 r2 : regex) (pos : nat) (u rest : gostring) :
  matches (Cat r1 r2) pos u rest ->
  exists u1 u2, u = u1 ++ u2 /\ matches r1 pos u1 (u2 ++ rest) /\
                matches r2 (pos + length u1) u2 rest.
Proof. intros H. inversion H; subst. eauto. Qed.

Lemma matches_Lit_inv (c : ascii) (pos : nat) (u rest : gostring) :
  matches (Lit c) pos u rest -> u = [c].
Proof. intros H. inversion H. reflexivity. Qed.

Lemma matches_Empty_inv (pos : nat) (u rest : gostring) :
  matches Empty pos u rest -> u = [].
Proof. intros H. inversion H. reflexivity. Qed.

Lemma matches_Group_inv (i : nat) (r : regex) (pos : nat) (u rest : gostring) :
  matches (Group i r) pos u rest -> matches r pos u rest.
Proof. intros H. inversion H. assumption. Qed.

Lemma matches_reProxyPass (pos : nat) (u rest : gostring) :
  matches reProxyPass pos u rest -> exists value, forwardingDirective value u.
Proof.
  intros H. unfold reProxyPass in H. simpl Cats in H.
  apply matches_Cat_inv in H as (u1 & t1 & -> & H1 & H).
  apply matches_Cat_inv in H as (u2 & t2 & -> & H2 & H).
  apply matches_Cat_inv in H as (u3 & u4 & -> & H3 & H4).
  apply (matches_Lits (b "proxy_pass")) in H1.
  apply matches_Plus_Class in H2 as [H2n H2].
  apply matches_Group_inv, matches_Star_Class in H3.
  apply matches_Lit_inv in H4. subst.
  exists u3, u2. repeat split; auto.
  eapply List.Forall_impl; [|exact H3]. intros c Hc ->. discriminate.
Qed.

Lemma allMatches_none (fuel : nat) (r : regex) (pos : nat) (s : gostring)
    (prevEnd : option nat) :
  search r pos s = None -> allMatches fuel r pos s prevEnd = [].
Proof. intros H. destruct fuel; simpl; [reflexivity|]. rewrite H. reflexivity. Qed.

(** What is left after a match is shorter than the text searched. *)
Lemma search_rest_length (r : regex) (s : gostring) (pos : nat) (f : found) :
  search r pos s = Some f ->
  fStart f + length (fText f) + length (fRest f) = pos + length s.
Proof.
  intros H. apply search_sound in H as (pre & Hs & Hst & _).
  rewrite Hs, !length_app. lia.
Qed.

(** The loop over all matches never runs out of fuel: any fuel above the
    length of the text gives the same matches. *)
Lemma allMatches_fuel (r : regex) :
  forall fuel fuel' s pos prevEnd,
    length s < fuel -> length s < fuel' ->
    allMatches fuel r pos s prevEnd = allMatches fuel' r pos s prevEnd.
Proof.
  induction fuel as [|fuel IH]; intros fuel' s pos prevEnd H H'; [lia|].
  destruct fuel' as [|fuel']; [lia|]. cbn [allMatches].
  destruct (search r pos s) as [f|] eqn:E; [|reflexivity].
  pose proof (search_rest_length r s pos f E) as Hlen.
  destruct (Nat.eqb_spec (fStart f + length (fText f)) pos) as [Heq|Hne].
  - destruct s as [|c s]; [reflexivity|].
    rewrite (IH fuel' s); [reflexivity|simpl in H; lia|simpl in H'; lia].
  - f_equal. apply search_sound in E as (pre & Hs & Hst & _).
    apply IH; lia.
Qed.

(** The loop of [extractProxyTarget], directive by directive. *)
Lemma fold_append_flat_map {X} (g : X -> list gostring) (l : list X)
    (acc : list gostring) :
  fold_left (fun targets x => targets ++ g x) l acc = acc ++ flat_map g l.
Proof.
  revert acc. induction l as [|x l IH]; intros acc; simpl.
  - rewrite app_nil_r. reflexivity.
  - rewrite IH, app_assoc. reflexivity.
Qed.

Lemma extractTargets_flat_map (content : gostring) :
  extractTargets content =
  flat_map (directiveTargets content) (FindAllStringSubmatch reProxyPass content).
Proof. unfold extractTargets. rewrite fold_append_flat_map. reflexivity. Qed.

Lemma Contains_app (pre x post : gostring) :
  Strings.Contains (pre ++ x ++ post) x = true.
Proof.
  induction pre as [|c pre IH]; simpl.
  - destruct x as [|d x]; [destruct post; reflexivity|].
    simpl. rewrite Ascii.eqb_refl, HasPrefix_app. reflexivity.
  - rewrite IH. apply orb_true_r.
Qed.

(** C6.  When the file can be read and its text has no forwarding
    directive, that is, no place where [proxy_pass], white space, a value on
    one line and a semicolon follow each other, [extractProxyTarget] returns
    no target and a nil error. *)
Theorem extractProxyTarget_no_directive (w : World) (filePath content : gostring) :
  wReadFile w filePath = Some content ->
  (forall pre value u post,
     content = pre ++ u ++ post -> ~ forwardingDirective value u) ->
  extractProxyTarget w filePath = ([], None).
Proof.
  intros Hread Hno. unfold extractProxyTarget. rewrite Hread.
  rewrite extractTargets_flat_map. unfold FindAllStringSubmatch.
  rewrite allMatches_none; [reflexivity|].
  destruct (search reProxyPass 0 content) as [f|] eqn:E; [|reflexivity].
  exfalso. apply search_sound in E as (pre & Hs & _ & Hm).
  apply matches_reProxyPass in Hm as [value Hd].
  exact (Hno pre value (fText f) (fRest f) Hs Hd).
Qed.

Lemma extractProxyTarget_no_directive_witness :
  extractProxyTarget Sample.worldUp Sample.mimeTypes = ([], None).
Proof.
  apply (extractProxyTarget_no_directive Sample.worldUp Sample.mimeTypes
           (b "types { text/html html; }")).
  - reflexivity.
  - intros pre value u post E (ws & -> & _).
    pose proof (Contains_app pre (b "proxy_pass") (ws ++ value ++ b ";" ++ post)) as C.
    replace (pre ++ b "proxy_pass" ++ ws ++ value ++ b ";" ++ post)
      with (pre ++ (b "proxy_pass" ++ ws ++ value ++ b ";") ++ post) in C
      by (rewrite <- !app_assoc; reflexivity).
    rewrite <- E in C. vm_compute in C. discriminate C.
Defined.

(** *** Values that are addresses *)

Ltac by_byte c :=
  destruct c as [[|] [|] [|] [|] [|] [|] [|] [|]];
  try discriminate; try reflexivity.

Lemma isDigit_isAlnum (c : ascii) : isDigit c = true -> isAlnum c = true.
Proof. by_byte c. Qed.

Lemma isDigit_hostChar (c : ascii) : isDigit c = true -> hostChar c = true.
Proof. by_byte c. Qed.

Lemma isAlnum_hostChar (c : ascii) : isAlnum c = true -> hostChar c = true.
Proof. by_byte c. Qed.

Lemma isAlnumDash_hostChar (c : ascii) : isAlnumDash c = true -> hostChar c = true.
Proof. by_byte c. Qed.

Lemma spaceWidth_alnum (c : ascii) (s : gostring) :
  isAlnum c = true -> Strings.spaceWidth (c :: s) = None.
Proof.
  intros H. destruct s as [|c1 [|c2 s]]; by_byte c.
Qed.

Lemma spaceWidthRev_alnum (c : ascii) (r : gostring) :
  isAlnum c = true -> Strings.spaceWidthRev (c :: r) = None.
Proof.
  intros H. unfold Strings.spaceWidthRev.
  replace (Strings.spaceWidth [c]) with (@None nat) by (by_byte c).
  destruct r as [|c1 r]; [reflexivity|].
  assert (H2 : match Strings.spaceWidth [c1; c] with
               | Some 2 => true | _ => false end = false).
  { unfold Strings.spaceWidth.
    destruct ((9 <=? Strings.byte c1) && (Strings.byte c1 <=? 13)
              || (Strings.byte c1 =? 32))%N; [reflexivity|].
    replace ((Strings.byte c =? 133) || (Strings.byte c =? 160))%N
      with false by (by_byte c).
    rewrite andb_false_r. reflexivity. }
  rewrite H2. destruct r as [|c2 r]; [reflexivity|].
  assert (H3 : match Strings.spaceWidth [c2; c1; c] with
               | Some 3 => true | _ => false end = false).
  { unfold Strings.spaceWidth.
    destruct ((9 <=? Strings.byte c2) && (Strings.byte c2 <=? 13)
              || (Strings.byte c2 =? 32))%N; [reflexivity|].
    destruct ((Strings.byte c2 =? 194)
              && ((Strings.byte c1 =? 133) || (Strings.byte c1 =? 160)))%N;
      [reflexivity|].
    replace (Strings.byte c =? 128)%N with false by (by_byte c).
    replace (Strings.byte c =? 159)%N with false by (by_byte c).
    replace ((128 <=? Strings.byte c) && (Strings.byte c <=? 138)
             || (Strings.byte c =? 168) || (Strings.byte c =? 169)
             || (Strings.byte c =? 175))%N with false by (by_byte c).
    rewrite !andb_false_r. reflexivity. }
  rewrite H3. reflexivity.
Qed.

(** A string that starts and ends with a letter or digit has nothing to trim. *)
Lemma TrimSpace_alnum_ends (v : gostring) :
  (exists c v', v = c :: v' /\ isAlnum c = true) ->
  (exists v' c, v = v' ++ [c] /\ isAlnum c = true) ->
  Strings.TrimSpace v = v.
Proof.
  intros (c & v' & E & Hc) (v'' & d & E' & Hd). unfold Strings.TrimSpace.
  assert (Hl : Strings.trimLeftSpace (length v) v = v).
  { subst v. change (length (c :: v')) with (S (length v')).
    cbv beta iota delta [Strings.trimLeftSpace].
    rewrite (spaceWidth_alnum c v' Hc). reflexivity. }
  rewrite Hl.
  assert (Hr : Strings.trimRightSpaceRev (length v) (rev v) = rev v).
  { rewrite E'. rewrite rev_app_distr, length_app. simpl.
    rewrite Nat.add_1_r. change (rev [d] ++ rev v'') with (d :: rev v'').
    cbv beta iota delta [Strings.trimRightSpaceRev].
    rewrite (spaceWidthRev_alnum d (rev v'') Hd). reflexivity. }
  rewrite Hr. apply rev_involutive.
Qed.

Lemma ipFormat_shape :
  nullable ipFormat = false /\ firstIn isAlnum ipFormat /\
  lastIn isAlnum ipFormat /\ allIn hostChar ipFormat.
Proof.
  split; [reflexivity|].
  unfold ipFormat, digits13, optPort, Opt, Plus. simpl.
  repeat split; intros; try discriminate;
    auto using isDigit_isAlnum, isDigit_hostChar.
Qed.

Lemma domainFormat_shape :
  nullable domainFormat = false /\ firstIn isAlnum domainFormat /\
  lastIn isAlnum domainFormat /\ allIn hostChar domainFormat.
Proof.
  split; [reflexivity|].
  unfold domainFormat, label, optPort, Opt, Plus. simpl.
  repeat split; intros; try discriminate;
    auto using isDigit_isAlnum, isDigit_hostChar, isAlnum_hostChar,
               isAlnumDash_hostChar.
Qed.

(** An address starts and ends with a letter or digit and consists of
    letters, digits, dots, colons and hyphens. *)
Lemma addressFormat_shape (t : gostring) :
  addressFormat t ->
  (exists c t', t = c :: t' /\ isAlnum c = true) /\
  (exists t' c, t = t' ++ [c] /\ isAlnum c = true) /\
  Forall (fun c => hostChar c = true) t.
Proof.
  intros H.
  assert (G : exists r, matches r 0 t [] /\ nullable r = false /\
                        firstIn isAlnum r /\ lastIn isAlnum r /\
                        allIn hostChar r).
  { destruct H as [H|H].
    - exists ipFormat. split; [|apply ipFormat_shape].
      apply MatchString_anchored; [reflexivity|reflexivity|exact H].
    - exists domainFormat. split; [|apply domainFormat_shape].
      apply MatchString_anchored; [reflexivity|reflexivity|exact H]. }
  destruct G as (r & Hm & Hn & Hf & Hl & Ha).
  assert (Hne : t <> []).
  { intros ->. pose proof (matches_nil_nullable _ _ _ _ Hm eq_refl). congruence. }
  split; [|split].
  - destruct t as [|c t']; [congruence|]. exists c, t'. split; [reflexivity|].
    eapply matches_firstIn; [exact Hm|exact Hf|reflexivity].
  - destruct (exists_last Hne) as (t' & c & ->). exists t', c.
    split; [reflexivity|].
    eapply matches_lastIn; [exact Hm|exact Hl|reflexivity].
  - eapply matches_allIn; [exact Hm|exact Ha].
Qed.

Lemma cleanTarget_address (value : gostring) :
  addressFormat (stripScheme value) -> cleanTarget value = stripScheme value.
Proof.
  intros H. apply addressFormat_shape in H as (Hfirst & Hlast & Hall).
  assert (Hsuffix : exists p, value = p ++ stripScheme value /\
            (p = [] \/ exists p', p = "h"%char :: p')).
  { unfold stripScheme.
    destruct (Strings.HasPrefix value (b "http://")) eqn:E1.
    - apply HasPrefix_inv in E1 as [t ->]. exists (b "http://").
      split; [reflexivity|]. right. eexists. reflexivity.
    - destruct (Strings.HasPrefix value (b "https://")) eqn:E2.
      + apply HasPrefix_inv in E2 as [t ->]. exists (b "https://").
        split; [reflexivity|]. right. eexists. reflexivity.
      + exists []. auto. }
  destruct Hsuffix as (p & Hv & Hp).
  assert (Htrim : Strings.TrimSpace value = value).
  { apply TrimSpace_alnum_ends.
    - destruct Hp as [->|[p' ->]].
      + simpl in Hv. rewrite Hv. exact Hfirst.
      + rewrite Hv. exists "h"%char. eexists. split; [reflexivity|reflexivity].
    - destruct Hlast as (t' & c & Et & Hc). exists (p ++ t'), c.
      split; [|exact Hc]. rewrite Hv at 1. rewrite Et, app_assoc. reflexivity. }
  unfold cleanTarget. rewrite Htrim. unfold stripScheme in *.
  unfold Strings.TrimPrefix.
  destruct (Strings.HasPrefix value (b "http://")) eqn:E1.
  - change (length (b "http://")) with 7.
    destruct (Strings.HasPrefix (skipn 7 value) (b "https://")) eqn:E3;
      [|reflexivity].
    exfalso. apply HasPrefix_inv in E3 as [t E3]. rewrite E3 in Hall.
    apply Forall_app in Hall as [Hall _].
    rewrite List.Forall_forall in Hall.
    specialize (Hall "/"%char). simpl in Hall.
    assert (hostChar "/" = true) by (apply Hall; tauto). discriminate.
  - destruct (Strings.HasPrefix value (b "https://")); reflexivity.
Qed.

(** C5.  For every forwarding directive found in a text, if its value with
    a leading [http://] or [https://] removed matches the IPv4 format or the
    hostname format, then the directive contributes exactly that stripped
    value, which is therefore among the extracted targets. *)
Theorem directive_address_target (content : gostring)
    (match_ : list gostring) (value : gostring) :
  In match_ (FindAllStringSubmatch reProxyPass content) ->
  nth_error match_ 1 = Some value ->
  addressFormat (stripScheme value) ->
  directiveTargets content match_ = [stripScheme value] /\
  In (stripScheme value) (extractTargets content).
Proof.
  intros Hin Hnth Hfmt.
  assert (Hd : directiveTargets content match_ = [stripScheme value]).
  { unfold directiveTargets.
    assert (Hlen : Nat.ltb 1 (length match_) = true).
    { apply Nat.ltb_lt. apply nth_error_Some. congruence. }
    rewrite Hlen. rewrite (nth_error_nth _ _ _ Hnth).
    rewrite (cleanTarget_address value Hfmt).
    destruct Hfmt as [-> | ->]; simpl; [reflexivity|].
    rewrite andb_false_r. reflexivity. }
  split; [exact Hd|].
  rewrite extractTargets_flat_map. apply in_flat_map.
  exists match_. split; [exact Hin|]. rewrite Hd. left. reflexivity.
Qed.

Lemma directive_address_target_witness :
  In (b "10.0.0.5:9000") (extractTargets Sample.nginxConfText).
Proof.
  apply (directive_address_target Sample.nginxConfText
           [b "proxy_pass http://10.0.0.5:9000;"; b "http://10.0.0.5:9000"]
           (b "http://10.0.0.5:9000")).
  - vm_compute. left. reflexivity.
  - reflexivity.
  - left. vm_compute. reflexivity.
Defined.

(** *** Running the matcher on text of a known shape *)

Lemma run_Lits {A} (l : gostring) (pos : nat) (s : gostring) (cs : caps)
    (k : nat -> gostring -> caps -> option A) :
  run (Lits l) pos (l ++ s) cs k = k (pos + length l) s cs.
Proof.
  revert pos. induction l as [|c l IH]; intros pos; simpl.
  - rewrite Nat.add_0_r. reflexivity.
  - rewrite Ascii.eqb_refl, IH. f_equal. lia.
Qed.

Lemma run_Class_stop {A} (p : ascii -> bool) (pos : nat) (rest : gostring)
    (cs : caps) (k : nat -> gostring -> caps -> option A) :
  stopsAt p rest -> run (Class p) pos rest cs k = None.
Proof. destruct rest as [|c rest]; simpl; [reflexivity|]. intros ->. reflexivity. Qed.

Lemma starLoop_S {A}
    (body : nat -> gostring -> caps ->
            (nat -> gostring -> caps -> option A) -> option A)
    (g : bool) (k : nat -> gostring -> caps -> option A)
    (fuel pos : nat) (s : gostring) (cs : caps) :
  starLoop body g k (S fuel) pos s cs =
  if g
  then orelse (body pos s cs (fun pos' s' cs' =>
                 if Nat.ltb pos pos' then starLoop body g k fuel pos' s' cs'
                 else None))
              (k pos s cs)
  else orelse (k pos s cs)
              (body pos s cs (fun pos' s' cs' =>
                 if Nat.ltb pos pos' then starLoop body g k fuel pos' s' cs'
                 else None)).
Proof. destruct g; reflexivity. Qed.

Lemma run_Class_cons {A} (p : ascii -> bool) (pos : nat) (c : ascii)
    (s : gostring) (cs : caps) (k : nat -> gostring -> caps -> option A) :
  run (Class p) pos (c :: s) cs k = if p c then k (S pos) s cs else None.
Proof. reflexivity. Qed.

(** A greedy star over a class takes the whole run of characters of the
    class, when what follows the star then succeeds. *)
Lemma starLoop_greedy_class {A} (p : ascii -> bool)
    (k : nat -> gostring -> caps -> option A) (a : A) (rest : gostring)
    (cs : caps) :
  stopsAt p rest ->
  forall ws fuel pos,
    Forall (fun c => p c = true) ws ->
    length ws <= fuel ->
    k (pos + length ws) rest cs = Some a ->
    starLoop (run (Class p)) true k fuel pos (ws ++ rest) cs = Some a.
Proof.
  intros Hstop. induction ws as [|c ws IH]; intros fuel pos Hws Hfuel Hk.
  - rewrite Nat.add_0_r in Hk. destruct fuel as [|fuel]; [exact Hk|].
    rewrite starLoop_S. simpl app.
    rewrite run_Class_stop by exact Hstop. exact Hk.
  - destruct fuel as [|fuel]; [simpl in Hfuel; lia|].
    inversion Hws as [|? ? Hc Hws']; subst.
    rewrite starLoop_S. simpl app. rewrite run_Class_cons, Hc.
    replace (Nat.ltb pos (S pos)) with true by (symmetry; apply Nat.ltb_lt; lia).
    rewrite (IH fuel (S pos) Hws'); [reflexivity|simpl in Hfuel; lia|].
    rewrite <- Hk. f_equal. simpl. lia.
Qed.

(** A lazy star over a class stops at the first place where what follows
    the star succeeds. *)
Lemma starLoop_lazy_class {A} (p : ascii -> bool)
    (k : nat -> gostring -> caps -> option A) (a : A) (rest : gostring)
    (cs : caps) :
  forall body fuel pos,
    Forall (fun c => p c = true) body ->
    length body <= fuel ->
    (forall b1 b2, body = b1 ++ b2 -> b2 <> [] ->
                   k (pos + length b1) (b2 ++ rest) cs = None) ->
    k (pos + length body) rest cs = Some a ->
    starLoop (run (Class p)) false k fuel pos (body ++ rest) cs = Some a.
Proof.
  induction body as [|c body IH]; intros fuel pos Hb Hfuel Hnone Hk.
  - rewrite Nat.add_0_r in Hk. destruct fuel as [|fuel]; [exact Hk|].
    rewrite starLoop_S. simpl app. rewrite Hk. reflexivity.
  - destruct fuel as [|fuel]; [simpl in Hfuel; lia|].
    inversion Hb as [|? ? Hc Hb']; subst.
    rewrite starLoop_S. simpl app.
    pose proof (Hnone [] (c :: body) eq_refl ltac:(discriminate)) as H0.
    simpl in H0. rewrite Nat.add_0_r in H0. rewrite H0.
    rewrite run_Class_cons, Hc. simpl orelse.
    replace (Nat.ltb pos (S pos)) with true by (symmetry; apply Nat.ltb_lt; lia).
    apply IH; [exact Hb'|simpl in Hfuel; lia| |].
    + intros b1 b2 E Hne. specialize (Hnone (c :: b1) b2).
      simpl in Hnone. rewrite E in Hnone.
      replace (S pos + length b1) with (pos + S (length b1)) by lia.
      apply Hnone; [reflexivity|exact Hne].
    + rewrite <- Hk. f_equal. simpl. lia.
Qed.

(** One or more characters of a class, greedily. *)
Lemma run_Plus_class {A} (p : ascii -> bool)
    (k : nat -> gostring -> caps -> option A) (a : A) (ws rest : gostring)
    (pos : nat) (cs : caps) :
  ws <> [] -> Forall (fun c => p c = true) ws -> stopsAt p rest ->
  k (pos + length ws) rest cs = Some a ->
  run (Plus (Class p)) pos (ws ++ rest) cs k = Some a.
Proof.
  intros Hne Hws Hstop Hk. destruct ws as [|c ws]; [congruence|].
  inversion Hws as [|? ? Hc Hws']; subst.
  unfold Plus. change (run (Cat (Class p) (Star true (Class p))) pos
                         ((c :: ws) ++ rest) cs k)
    with (if p c
          then starLoop (run (Class p)) true k (S (length (ws ++ rest)))
                        (S pos) (ws ++ rest) cs
          else None).
  rewrite Hc.
  apply (starLoop_greedy_class p k a rest cs Hstop ws
           (S (length (ws ++ rest))) (S pos) Hws').
  - rewrite length_app. lia.
  - rewrite <- Hk. f_equal. simpl. lia.
Qed.

(** Zero or more characters of a class, greedily. *)
Lemma run_Star_class {A} (p : ascii -> bool)
    (k : nat -> gostring -> caps -> option A) (a : A) (ws rest : gostring)
    (pos : nat) (cs : caps) :
  Forall (fun c => p c = true) ws -> stopsAt p rest ->
  k (pos + length ws) rest cs = Some a ->
  run (Star true (Class p)) pos (ws ++ rest) cs k = Some a.
Proof.
  intros Hws Hstop Hk.
  apply (starLoop_greedy_class p k a rest cs Hstop ws
           (S (length (ws ++ rest))) pos Hws); [|exact Hk].
  rewrite length_app. lia.
Qed.

Lemma search_here (r : regex) (pos : nat) (s : gostring) (pos' : nat)
    (s' : gostring) (cs : caps) :
  run r pos s [] report = Some (pos', s', cs) ->
  search r pos s =
  Some {| fStart := pos; fText := firstn (pos' - pos) s; fRest := s';
          fCaps := cs |}.
Proof.
  intros H. destruct s; simpl; rewrite H; reflexivity.
Qed.

Lemma search_skip (r : regex) (s : gostring) :
  forall pre pos,
    (forall p1 p2, pre = p1 ++ p2 -> p2 <> [] ->
                   run r (pos + length p1) (p2 ++ s) [] report = None) ->
    search r pos (pre ++ s) = search r (pos + length pre) s.
Proof.
  induction pre as [|c pre IH]; intros pos Hnone; simpl.
  - rewrite Nat.add_0_r. reflexivity.
  - pose proof (Hnone [] (c :: pre) eq_refl ltac:(discriminate)) as H0.
    simpl in H0. rewrite Nat.add_0_r in H0. rewrite H0.
    rewrite IH; [f_equal; lia|].
    intros p1 p2 E Hne. specialize (Hnone (c :: p1) p2). simpl in Hnone.
    replace (S pos + length p1) with (pos + S (length p1)) by lia.
    apply Hnone; [rewrite E; reflexivity|exact Hne].
Qed.

(** *** Upstream blocks *)

Lemma run_Cat {A} (r1 r2 : regex) (pos : nat) (s : gostring) (cs : caps)
    (k : nat -> gostring -> caps -> option A) :
  run (Cat r1 r2) pos s cs k =
  run r1 pos s cs (fun pos' s' cs' => run r2 pos' s' cs' k).
Proof. reflexivity. Qed.

Lemma run_Group {A} (i : nat) (r : regex) (pos : nat) (s : gostring)
    (cs : caps) (k : nat -> gostring -> caps -> option A) :
  run (Group i r) pos s cs k =
  run r pos s cs (fun pos' s' cs' =>
    k pos' s' ((i, firstn (pos' - pos) s) :: cs')).
Proof. reflexivity. Qed.

Lemma firstn_consumed (pos : nat) (u rest : gostring) :
  firstn (pos + length u - pos) (u ++ rest) = u.
Proof.
  replace (pos + length u - pos) with (length u) by lia.
  rewrite firstn_app, Nat.sub_diag, firstn_all. apply app_nil_r.
Qed.

Lemma addrChar_notSemiSpace (addr : gostring) :
  Forall addrChar addr -> Forall (fun c => notSemiSpace c = true) addr.
Proof.
  apply List.Forall_impl. intros c (Hs & Hsemi & _). unfold notSemiSpace.
  destruct (Ascii.eqb_spec c ";"); [congruence|].
  destruct (Ascii.eqb_spec c " "); [subst; discriminate|]. reflexivity.
Qed.

Lemma run_reServer (e : ServerEntry) (pos : nat) (rest : gostring) :
  plainEntry e ->
  run reServer pos (entryText e ++ rest) [] report =
  Some (pos + length (entryText e), rest, [(1, eAddr e)]).
Proof.
  intros (_ & Hgn & Hg & Han & Ha).
  unfold reServer, entryText. cbn [Cats]. rewrite <- !app_assoc.
  rewrite run_Cat, run_Lits, run_Cat.
  apply run_Plus_class; [exact Hgn|exact Hg| |].
  { destruct (eAddr e) as [|c addr]; [congruence|].
    inversion Ha as [|? ? (Hc & _) _]. exact Hc. }
  rewrite run_Cat, run_Group.
  apply run_Plus_class; [exact Han|apply addrChar_notSemiSpace; exact Ha|reflexivity|].
  rewrite firstn_consumed. simpl. unfold report.
  rewrite !length_app. simpl. do 3 f_equal. lia.
Qed.

Lemma run_reServer_space {A} (c : ascii) (s : gostring) (pos : nat)
    (cs : caps) (k : nat -> gostring -> caps -> option A) :
  isPerlSpace c = true -> run reServer pos (c :: s) cs k = None.
Proof.
  intros Hc. simpl. destruct (Ascii.eqb_spec c "s") as [->|]; [discriminate|].
  reflexivity.
Qed.

Lemma search_reServer_spaces (ws : gostring) (pos : nat) :
  perlSpaces ws -> search reServer pos ws = None.
Proof.
  revert pos. induction ws as [|c ws IH]; intros pos H; [reflexivity|].
  inversion H as [|? ? Hc Hws]; subst.
  change (search reServer pos (c :: ws))
    with (match run reServer pos (c :: ws) [] report with
          | Some (pos', s', cs) =>
            Some {| fStart := pos; fText := firstn (pos' - pos) (c :: ws);
                    fRest := s'; fCaps := cs |}
          | None => search reServer (S pos) ws
          end).
  rewrite (run_reServer_space c ws pos [] report Hc). apply IH. exact Hws.
Qed.

Lemma search_reServer_entry (e : ServerEntry) (pos : nat) (rest : gostring) :
  plainEntry e ->
  search reServer pos (eLead e ++ entryText e ++ rest) =
  Some {| fStart := pos + length (eLead e); fText := entryText e;
          fRest := rest; fCaps := [(1, eAddr e)] |}.
Proof.
  intros He. rewrite search_skip.
  - rewrite (search_here _ _ _ _ _ _ (run_reServer e _ rest He)).
    rewrite firstn_consumed. reflexivity.
  - intros p1 p2 E Hne. destruct p2 as [|c p2]; [congruence|].
    apply run_reServer_space. destruct He as (Hl & _).
    unfold perlSpaces in Hl. rewrite E in Hl.
    apply Forall_app in Hl as [_ Hl]. inversion Hl; assumption.
Qed.

(** All the matches of the server pattern in a block body. *)
Lemma allMatches_reServer (trail : gostring) :
  perlSpaces trail ->
  forall entries fuel pos prevEnd,
    Forall plainEntry entries ->
    length entries < fuel ->
    allMatches fuel reServer pos (blockBody entries trail) prevEnd =
    map (fun e => [entryText e; eAddr e]) entries.
Proof.
  intros Ht. induction entries as [|e entries IH];
    intros fuel pos prevEnd He Hfuel.
  - apply allMatches_none. apply search_reServer_spaces. exact Ht.
  - destruct fuel as [|fuel]; [lia|].
    inversion He as [|? ? He1 He2]; subst.
    cbn [allMatches blockBody]. rewrite (search_reServer_entry e pos _ He1).
    cbn [fStart fText fRest].
    replace (Nat.eqb (pos + length (eLead e) + length (entryText e)) pos)
      with false.
    + cbn [map]. f_equal. apply IH; [exact He2|simpl in Hfuel; lia].
    + symmetry. apply Nat.eqb_neq. unfold entryText.
      rewrite length_app. simpl. lia.
Qed.

Lemma collectServers_entries (entries : list ServerEntry) :
  collectServers (map (fun e => [entryText e; eAddr e]) entries) =
  map eAddr entries.
Proof.
  unfold collectServers.
  assert (G : forall acc,
    fold_left (fun servers serverMatch =>
                 if Nat.ltb 1 (length serverMatch)
                 then servers ++ [nth 1 serverMatch []]
                 else servers)
              (map (fun e => [entryText e; eAddr e]) entries) acc
    = acc ++ map eAddr entries).
  { induction entries as [|e entries IH]; intros acc; simpl.
    - rewrite app_nil_r. reflexivity.
    - rewrite IH, <- app_assoc. reflexivity. }
  apply G.
Qed.

Lemma blockBody_length (entries : list ServerEntry) (trail : gostring) :
  length entries <= length (blockBody entries trail).
Proof.
  induction entries as [|e entries IH]; [simpl; lia|].
  cbn [blockBody]. unfold entryText. rewrite !length_app.
  change (length (b "server")) with 6. cbn [length] in *. lia.
Qed.

Lemma perlSpaces_no_brace (ws : gostring) :
  perlSpaces ws -> Forall (fun c => c <> "}"%char) ws.
Proof. apply List.Forall_impl. intros c Hc ->. discriminate. Qed.

Lemma blockBody_no_brace (entries : list ServerEntry) (trail : gostring) :
  Forall plainEntry entries -> perlSpaces trail ->
  Forall (fun c => c <> "}"%char) (blockBody entries trail).
Proof.
  intros He Ht. induction He as [|e entries (Hl & _ & Hg & _ & Ha) _ IH]; simpl.
  - apply perlSpaces_no_brace. exact Ht.
  - unfold entryText.
    apply Forall_app; split; [apply perlSpaces_no_brace; exact Hl|].
    rewrite <- !app_assoc. simpl.
    repeat (constructor; [discriminate|]).
    apply Forall_app; split; [apply perlSpaces_no_brace; exact Hg|].
    apply Forall_app; split.
    { eapply List.Forall_impl; [|exact Ha]. intros c (_ & _ & H). exact H. }
    simpl. constructor; [discriminate|exact IH].
Qed.

Lemma numSubexp_Lits (l : gostring) : numSubexp (Lits l) = 0.
Proof. induction l; simpl; auto. Qed.

Lemma anyChar_all (s : gostring) : Forall (fun c => anyChar c = true) s.
Proof.
  apply List.Forall_forall. intros c _. unfold anyChar.
  destruct (isPerlSpace c); reflexivity.
Qed.

(** The pattern of [findUpstreamServers] on a block whose body has no
    closing brace: the capture is the body. *)
Lemma run_reUpstreamBlock (name ws1 ws2 body post : gostring) (pos : nat) :
  ws1 <> [] -> perlSpaces ws1 -> perlSpaces ws2 ->
  stopsAt isPerlSpace name -> name <> [] ->
  Forall (fun c => c <> "}"%char) body ->
  exists pos',
    run (reUpstreamBlock name) pos
        (b "upstream" ++ ws1 ++ name ++ ws2 ++ b "{" ++ body ++ b "}" ++ post)
        [] report
    = Some (pos', post, [(1, body)]).
Proof.
  intros H1n H1 H2 Hname Hnn Hbody. eexists.
  unfold reUpstreamBlock. cbn [Cats].
  rewrite run_Cat, run_Lits, run_Cat.
  apply run_Plus_class; [exact H1n|exact H1| |].
  { destruct name as [|c name]; [congruence|]. exact Hname. }
  rewrite run_Cat, run_Lits, run_Cat.
  apply run_Star_class; [exact H2|reflexivity|].
  rewrite run_Cat. simpl app.
  change (run (Lit "{") ?p ("{"%char :: ?s) ?cs ?k) with (k (S p) s cs).
  cbv beta. rewrite run_Cat, run_Group.
  match goal with
  | |- run (Star false (Class anyChar)) ?p ?s ?cs ?k = _ =>
    change (run (Star false (Class anyChar)) p s cs k)
      with (starLoop (run (Class anyChar)) false k (S (length s)) p s cs)
  end.
  apply starLoop_lazy_class.
  - apply anyChar_all.
  - rewrite length_app. lia.
  - intros b1 b2 E Hne. destruct b2 as [|c b2]; [congruence|].
    rewrite E in Hbody. apply Forall_app in Hbody as [_ Hbody].
    inversion Hbody as [|? ? Hc _]; subst. simpl.
    destruct (Ascii.eqb_spec c "}"); [congruence|reflexivity].
  - rewrite firstn_consumed. simpl. reflexivity.
Qed.

Lemma matches_reUpstreamBlock (name : gostring) (pos : nat) (u rest : gostring) :
  matches (reUpstreamBlock name) pos u rest ->
  exists body, upstreamBlock name body u.
Proof.
  intros H. unfold reUpstreamBlock in H. cbn [Cats] in H.
  apply matches_Cat_inv in H as (u1 & t1 & -> & H1 & H).
  apply matches_Cat_inv in H as (u2 & t2 & -> & H2 & H).
  apply matches_Cat_inv in H as (u3 & t3 & -> & H3 & H).
  apply matches_Cat_inv in H as (u4 & t4 & -> & H4 & H).
  apply matches_Cat_inv in H as (u5 & t5 & -> & H5 & H).
  apply matches_Cat_inv in H as (u6 & u7 & -> & H6 & H7).
  apply (matches_Lits (b "upstream")) in H1.
  apply matches_Plus_Class in H2 as [H2n H2].
  apply matches_Lits in H3. apply matches_Star_Class in H4.
  apply matches_Lit_inv in H5. apply matches_Lit_inv in H7. subst.
  exists u6, u2, u4. repeat split; auto.
Qed.

(** [findUpstreamServers] on the first block of a name. *)
Lemma findUpstreamServers_block (name pre ws1 ws2 trail post : gostring)
    (entries : list ServerEntry) (content : gostring) :
  content = pre ++ b "upstream" ++ ws1 ++ name ++ ws2 ++ b "{" ++
            blockBody entries trail ++ b "}" ++ post ->
  ws1 <> [] -> perlSpaces ws1 -> perlSpaces ws2 ->
  stopsAt isPerlSpace name -> name <> [] ->
  Forall plainEntry entries -> perlSpaces trail ->
  (forall i, i < length pre -> ~ blockStartsAt name content i) ->
  findUpstreamServers content name = (map eAddr entries, None).
Proof.
  intros Ec H1n H1 H2 Hname Hnn He Ht Hfirst.
  destruct (run_reUpstreamBlock name ws1 ws2 (blockBody entries trail) post
              (0 + length pre) H1n H1 H2 Hname Hnn
              (blockBody_no_brace entries trail He Ht)) as [pos' Hrun].
  assert (Hsearch : exists f,
            search (reUpstreamBlock name) 0 content = Some f /\
            fCaps f = [(1, blockBody entries trail)]).
  { rewrite Ec. rewrite search_skip.
    - rewrite (search_here _ _ _ _ _ _ Hrun). eexists. split; reflexivity.
    - intros p1 p2 E Hne.
      destruct (run (reUpstreamBlock name) (0 + length p1) _ [] report)
        as [[[q s'] cs]|] eqn:R; [|reflexivity].
      exfalso. apply run_sound in R as (u & rest & cs' & Hs & Hm & _).
      apply matches_reUpstreamBlock in Hm as [body Hb].
      apply (Hfirst (length p1)).
      + rewrite E, length_app. destruct p2; [congruence|simpl; lia].
      + exists body, u, rest. split; [|exact Hb].
        rewrite Ec, E, <- app_assoc, skipn_app, skipn_all, Nat.sub_diag.
        simpl. exact Hs. }
  destruct Hsearch as (f & Hf & Hcaps).
  unfold findUpstreamServers, FindStringSubmatch. rewrite Hf.
  unfold submatches. rewrite Hcaps.
  replace (numSubexp (reUpstreamBlock name)) with 1
    by (unfold reUpstreamBlock; simpl; rewrite numSubexp_Lits; reflexivity).
  simpl. unfold FindAllStringSubmatch.
  rewrite (allMatches_reServer trail Ht entries); [| exact He |].
  - rewrite collectServers_entries. reflexivity.
  - pose proof (blockBody_length entries trail). lia.
Qed.

(** [findUpstreamServers] when no block of the name exists. *)
Lemma findUpstreamServers_no_block (name content : gostring) :
  (forall i, ~ blockStartsAt name content i) ->
  exists e, findUpstreamServers content name = ([], Some e).
Proof.
  intros Hno. unfold findUpstreamServers, FindStringSubmatch.
  destruct (search (reUpstreamBlock name) 0 content) as [f|] eqn:E.
  - exfalso. apply search_sound in E as (pre & Hs & _ & Hm).
    apply matches_reUpstreamBlock in Hm as [body Hb].
    apply (Hno (length pre)). exists body, (fText f), (fRest f).
    split; [|exact Hb].
    rewrite Hs at 1. rewrite skipn_app, skipn_all, Nat.sub_diag. reflexivity.
  - simpl. eauto.
Qed.

(** C4, as the code has it.  Take a forwarding directive found in a text
    whose cleaned value [name] matches neither the IPv4 format nor the
    hostname format.  If the first block [upstream name { ... }] of the text
    holds N plain server entries, the directive contributes exactly their N
    addresses, in block order.  If the text has no block of that name, the
    directive contributes nothing.  In both cases [extractProxyTarget]
    returns a nil error for a file that can be read. *)
Theorem directive_upstream_targets (content : gostring)
    (match_ : list gostring) (value name : gostring) :
  In match_ (FindAllStringSubmatch reProxyPass content) ->
  nth_error match_ 1 = Some value ->
  cleanTarget value = name ->
  ~ addressFormat name ->
  (forall pre ws1 ws2 entries trail post,
     content = pre ++ b "upstream" ++ ws1 ++ name ++ ws2 ++ b "{" ++
               blockBody entries trail ++ b "}" ++ post ->
     ws1 <> [] -> perlSpaces ws1 -> perlSpaces ws2 ->
     stopsAt isPerlSpace name -> name <> [] ->
     Forall plainEntry entries -> perlSpaces trail ->
     (forall i, i < length pre -> ~ blockStartsAt name content i) ->
     directiveTargets content match_ = map eAddr entries /\
     length (directiveTargets content match_) = length entries /\
     incl (map eAddr entries) (extractTargets content)) /\
  ((forall i, ~ blockStartsAt name content i) ->
   directiveTargets content match_ = []) /\
  (forall w filePath,
     wReadFile w filePath = Some content ->
     snd (extractProxyTarget w filePath) = None).
Proof.
  intros Hin Hnth Hclean Hfmt.
  assert (Hd : directiveTargets content match_ =
               match findUpstreamServers content name with
               | (upstreamServers, None) => upstreamServers
               | (_, Some _) => []
               end).
  { unfold directiveTargets.
    assert (Hlen : Nat.ltb 1 (length match_) = true).
    { apply Nat.ltb_lt. apply nth_error_Some. congruence. }
    rewrite Hlen, (nth_error_nth _ _ _ Hnth), Hclean.
    unfold addressFormat in Hfmt.
    destruct (MatchString ipFormat name); [tauto|].
    destruct (MatchString domainFormat name); [tauto|]. reflexivity. }
  split; [|split].
  - intros pre ws1 ws2 entries trail post Ec H1n H1 H2 Hname Hnn He Ht Hfirst.
    assert (Hres : directiveTargets content match_ = map eAddr entries).
    { rewrite Hd.
      rewrite (findUpstreamServers_block name pre ws1 ws2 trail post entries
                 content Ec H1n H1 H2 Hname Hnn He Ht Hfirst).
      reflexivity. }
    split; [exact Hres|]. split; [rewrite Hres; apply length_map|].
    intros t Ht'. rewrite extractTargets_flat_map. apply in_flat_map.
    exists match_. split; [exact Hin|]. rewrite Hres. exact Ht'.
  - intros Hno. rewrite Hd.
    destruct (findUpstreamServers_no_block name content Hno) as [e ->].
    reflexivity.
  - intros w filePath Hread. unfold extractProxyTarget. rewrite Hread.
    reflexivity.
Qed.

Lemma directive_upstream_targets_witness :
  directiveTargets Sample.appConfText
    [b "proxy_pass http://my_backend;"; b "http://my_backend"]
  = [b "10.0.0.1:80"; b "10.0.0.2:80"].
Proof.
  assert (Hno : ~ addressFormat (b "my_backend")).
  { intros [H|H]; vm_compute in H; discriminate H. }
  destruct (directive_upstream_targets Sample.appConfText
              [b "proxy_pass http://my_backend;"; b "http://my_backend"]
              (b "http://my_backend") (b "my_backend")) as [H _].
  - vm_compute. left. reflexivity.
  - reflexivity.
  - vm_compute. reflexivity.
  - exact Hno.
  - destruct (H [] (b " ") (b " ")
                [ {| eLead := b " "; eGap := b " "; eAddr := b "10.0.0.1:80" |};
                  {| eLead := b " "; eGap := b " "; eAddr := b "10.0.0.2:80" |} ]
                (b " ")
                (client.nl ++
                 b "server { location / { proxy_pass http://my_backend; } }" ++
                 client.nl)) as [R _].
    + reflexivity.
    + discriminate.
    + repeat constructor.
    + repeat constructor.
    + reflexivity.
    + discriminate.
    + repeat constructor; simpl; discriminate.
    + repeat constructor.
    + simpl. intros i Hi. lia.
    + exact R.
Defined.

(** C4 as stated fails: the block [upstream b] is declared with two plain
    server entries and the directive [proxy_pass http://b;] names it, yet
    the directive yields the single target [b], since [b] has the form of a
    hostname. *)
Lemma upstream_named_like_host :
  let content :=
    b "upstream b { server 10.0.0.1:80; server 10.0.0.2:80; }" ++ client.nl ++
    b "proxy_pass http://b;" in
  let entries :=
    [ {| eLead := b " "; eGap := b " "; eAddr := b "10.0.0.1:80" |};
      {| eLead := b " "; eGap := b " "; eAddr := b "10.0.0.2:80" |} ] in
  content = [] ++ b "upstream" ++ b " " ++ b "b" ++ b " " ++ b "{" ++
            blockBody entries (b " ") ++ b "}" ++
            client.nl ++ b "proxy_pass http://b;" /\
  Forall plainEntry entries /\
  FindAllStringSubmatch reProxyPass content =
    [[b "proxy_pass http://b;"; b "http://b"]] /\
  cleanTarget (b "http://b") = b "b" /\
  directiveTargets content [b "proxy_pass http://b;"; b "http://b"] = [b "b"] /\
  extractTargets content = [b "b"] /\
  extractTargets content <> map eAddr entries.
Proof.
  cbv zeta. split; [reflexivity|].
  split; [repeat constructor; simpl; discriminate|].
  split; [vm_compute; reflexivity|].
  split; [vm_compute; reflexivity|].
  split; [vm_compute; reflexivity|].
  split; [vm_compute; reflexivity|].
  vm_compute. discriminate.
Qed.

End Extractor.

(** ** The status page *)

Section StatusPage.
Import client.

Lemma spaceWidth_firstn (s : gostring) (w : nat) :
  Strings.spaceWidth s = Some w ->
  Strings.spaceWidth (firstn w s) = Some w /\ length (firstn w s) = w.
Proof.
  intros H. unfold Strings.spaceWidth in H.
  destruct s as [|c0 s]; [discriminate|].
  destruct ((9 <=? Strings.byte c0) && (Strings.byte c0 <=? 13)
            || (Strings.byte c0 =? 32))%N eqn:E0.
  { injection H as <-. simpl. unfold Strings.spaceWidth. rewrite E0. auto. }
  destruct s as [|c1 s]; [discriminate|].
  destruct ((Strings.byte c0 =? 194)
            && ((Strings.byte c1 =? 133) || (Strings.byte c1 =? 160)))%N eqn:E1.
  { injection H as <-. simpl. unfold Strings.spaceWidth. rewrite E0, E1. auto. }
  destruct s as [|c2 s]; [discriminate|].
  assert (w = 3) as ->.
  { repeat match type of H with
           | context [if ?c then _ else _] => destruct c
           end; congruence. }
  simpl. unfold Strings.spaceWidth. rewrite E0, E1. auto.
Qed.

Lemma skipBlanks_inv (fuel : nat) :
  forall s, exists B, blanks B /\ s = B ++ Fmt.skipBlanks fuel s.
Proof.
  induction fuel as [|fuel IH]; intros s; simpl.
  - exists []. split; [constructor|reflexivity].
  - destruct s as [|c s]; [exists []; split; [constructor|reflexivity]|].
    destruct (Fmt.isNewline c) eqn:En;
      [exists []; split; [constructor|reflexivity]|].
    destruct (Strings.spaceWidth (c :: s)) as [w|] eqn:Ew;
      [|exists []; split; [constructor|reflexivity]].
    destruct (spaceWidth_firstn _ _ Ew) as [H1 H2].
    destruct (IH (skipn w (c :: s))) as (B & HB & E).
    exists (firstn w (c :: s) ++ B). split.
    + constructor; [|exact HB]. split; [rewrite H2; exact H1|].
      intros Hnl. destruct w as [|w]; [discriminate|]. simpl in Hnl.
      injection Hnl as -> _. discriminate.
    + rewrite <- app_assoc, <- E. symmetry. apply firstn_skipn.
Qed.

Lemma spaceWidth_pos (s : gostring) (w : nat) :
  Strings.spaceWidth s = Some w -> 0 < w.
Proof.
  unfold Strings.spaceWidth. intros H.
  repeat match type of H with
         | context [match ?x with _ => _ end] => destruct x
         end; try discriminate; injection H as <-; lia.
Qed.

Lemma blanks_app (B1 B2 : gostring) : blanks B1 -> blanks B2 -> blanks (B1 ++ B2).
Proof.
  induction 1; intros H2; simpl; [exact H2|].
  rewrite <- app_assoc. constructor; auto.
Qed.

Lemma matchNewline_inv (s s1 : gostring) :
  Fmt.matchNewline s = Some s1 ->
  exists B, blanks B /\ (s = B ++ nl ++ s1 \/ (s = B /\ s1 = [])).
Proof.
  unfold Fmt.matchNewline. intros H.
  destruct (skipBlanks_inv (length s) s) as (B & HB & E).
  exists B. split; [exact HB|].
  destruct (Fmt.skipBlanks (length s) s) as [|c s'].
  - injection H as <-. right. rewrite app_nil_r in E. auto.
  - destruct (Fmt.isNewline c) eqn:En; [|discriminate]. injection H as <-.
    left. apply Ascii.eqb_eq in En. subst c. exact E.
Qed.

Lemma skipBlanks_cons (fuel : nat) (c : ascii) (s : gostring) (w : nat) :
  Fmt.isNewline c = false -> Strings.spaceWidth (c :: s) = Some w ->
  Fmt.skipBlanks (S fuel) (c :: s) = Fmt.skipBlanks fuel (skipn w (c :: s)).
Proof. intros En Ew. cbn [Fmt.skipBlanks]. rewrite En, Ew. reflexivity. Qed.

Lemma matchTrailingSpace_inv (s s2 : gostring) :
  Fmt.matchTrailingSpace 0 s = Some s2 ->
  (s = [] /\ s2 = []) \/ exists B, B <> [] /\ blanks B /\ s = B ++ s2.
Proof.
  unfold Fmt.matchTrailingSpace. intros H.
  destruct s as [|c s]; [injection H as <-; auto|]. right.
  change (Nat.eqb 0 0) with true in H. cbv iota in H.
  destruct (Strings.spaceWidth (c :: s)) as [w|] eqn:Ew; [|discriminate].
  destruct (Fmt.isNewline c) eqn:En; [discriminate|].
  replace s2 with (Fmt.skipBlanks (S (length s)) (c :: s))
    by (injection H as <-; reflexivity).
  rewrite (skipBlanks_cons _ _ _ _ En Ew).
  destruct (spaceWidth_firstn _ _ Ew) as [H1 H2].
  pose proof (spaceWidth_pos _ _ Ew) as Hw.
  destruct (skipBlanks_inv (length s) (skipn w (c :: s))) as (B & HB & E).
  exists (firstn w (c :: s) ++ B). split; [|split].
  - destruct w; [lia|]. discriminate.
  - constructor; [|exact HB]. split; [rewrite H2; exact H1|].
    intros Hnl. destruct w as [|w]; [discriminate|]. simpl in Hnl.
    injection Hnl as -> _. discriminate.
  - rewrite <- app_assoc, <- E. symmetry. apply firstn_skipn.
Qed.

Lemma SkipSpace_inv (fuel : nat) :
  forall s s1, Fmt.SkipSpace fuel s = Some s1 -> exists B, blanks B /\ s = B ++ s1.
Proof.
  induction fuel as [|fuel IH]; intros s s1 H; simpl in H.
  - injection H as <-. exists []. split; [constructor|reflexivity].
  - destruct s as [|r s]; [injection H as <-; exists []; split; [constructor|reflexivity]|].
    destruct (Ascii.eqb r "013" && match s with c :: _ => Fmt.isNewline c | [] => false end) eqn:Ecr.
    + apply andb_prop in Ecr as [Er _]. apply Ascii.eqb_eq in Er. subst r.
      apply IH in H as (B & HB & ->). exists ("013"%char :: B).
      split; [|reflexivity].
      apply (blanks_cons ["013"%char] B); [|exact HB].
      split; [reflexivity|discriminate].
    + destruct (Fmt.isNewline r) eqn:En; [discriminate|].
      destruct (Strings.spaceWidth (r :: s)) as [w|] eqn:Ew.
      * destruct (spaceWidth_firstn _ _ Ew) as [H1 H2].
        apply IH in H as (B & HB & E).
        exists (firstn w (r :: s) ++ B). split.
        -- constructor; [|exact HB]. split; [rewrite H2; exact H1|].
           intros Hnl. destruct w as [|w]; [discriminate|]. simpl in Hnl.
           injection Hnl as -> _. discriminate.
        -- rewrite <- app_assoc, <- E. symmetry. apply firstn_skipn.
      * injection H as <-. exists []. split; [constructor|reflexivity].
Qed.

Lemma acceptRun_inv (ok : ascii -> bool) (s : gostring) :
  forall tok rest, Fmt.acceptRun ok s = (tok, rest) -> s = tok ++ rest.
Proof.
  induction s as [|c s IH]; intros tok rest H; simpl in H.
  - injection H as <- <-. reflexivity.
  - destruct (ok c).
    + destruct (Fmt.acceptRun ok s) as [tok' rest'] eqn:E.
      injection H as <- <-. simpl. f_equal. apply IH. reflexivity.
    + injection H as <- <-. reflexivity.
Qed.

Lemma scanInt_inv (s s2 : gostring) (v : Z) :
  Fmt.scanInt s = Some (v, s2) ->
  exists B tok, blanks B /\ s = B ++ tok ++ s2 /\ Fmt.ParseInt tok = Some v.
Proof.
  unfold Fmt.scanInt. intros H.
  destruct (Fmt.SkipSpace (length s) s) as [s1|] eqn:Es; [|discriminate].
  apply SkipSpace_inv in Es as (B & HB & ->).
  destruct s1 as [|c s1']; [discriminate|].
  exists B. 
  destruct (Fmt.isSign c) eqn:Esign.
  - destruct s1' as [|d s1'']; [discriminate|].
    destruct (Fmt.isDecimalDigit d); [|discriminate].
    destruct (Fmt.acceptRun Fmt.isDecimalDigit (d :: s1'')) as [digits s3] eqn:Ea.
    destruct (Fmt.ParseInt ([c] ++ digits)) as [v'|] eqn:Ep; [|discriminate].
    injection H as <- <-. exists ([c] ++ digits). split; [exact HB|].
    split; [|exact Ep]. apply acceptRun_inv in Ea. rewrite Ea. reflexivity.
  - destruct (Fmt.isDecimalDigit c); [|discriminate].
    destruct (Fmt.acceptRun Fmt.isDecimalDigit (c :: s1')) as [digits s3] eqn:Ea.
    destruct (Fmt.ParseInt ([] ++ digits)) as [v'|] eqn:Ep; [|discriminate].
    injection H as <- <-. exists digits. split; [exact HB|].
    split; [|exact Ep]. apply acceptRun_inv in Ea. rewrite Ea. reflexivity.
Qed.

(** A literal character of the format. *)
Lemma advance_lit_inv (n : nat) (c : ascii) (fmt s f' s' : gostring) :
  Fmt.isSpaceByte c = false -> Ascii.eqb c "%" = false ->
  Fmt.advance (S n) (c :: fmt) s = Fmt.AdvTo f' s' ->
  exists s0, s = c :: s0 /\ Fmt.advance n fmt s0 = Fmt.AdvTo f' s'.
Proof.
  intros Hs Hp H. cbn [Fmt.advance] in H. rewrite Hs, Hp in H.
  destruct s as [|d s0]; [discriminate|].
  destruct (Ascii.eqb_spec c d) as [->|]; [|discriminate].
  exists s0. auto.
Qed.

(** A single space of the format, between two words or before a verb. *)
Lemma advance_gap_inv (n : nat) (c : ascii) (fmt rest s f' s' : gostring) :
  Fmt.isSpaceByte c = true ->
  Fmt.spaceRun (c :: fmt) 0 false = (0, true, rest) ->
  Fmt.advance (S n) (c :: fmt) s = Fmt.AdvTo f' s' ->
  exists s2,
    ((s = [] /\ s2 = []) \/ exists B, B <> [] /\ blanks B /\ s = B ++ s2) /\
    Fmt.advance n rest s2 = Fmt.AdvTo f' s'.
Proof.
  intros Hs Hrun H. cbn [Fmt.advance] in H. rewrite Hs, Hrun in H.
  cbn [Fmt.matchNewlines] in H.
  destruct (Fmt.matchTrailingSpace 0 s) as [s2|] eqn:E; [|discriminate].
  exists s2. split; [|exact H]. apply matchTrailingSpace_inv. exact E.
Qed.

(** A newline of the format. *)
Lemma advance_newline_inv (n : nat) (c : ascii) (fmt rest s f' s' : gostring) :
  Fmt.isSpaceByte c = true ->
  Fmt.spaceRun (c :: fmt) 0 false = (1, false, rest) ->
  Fmt.advance (S n) (c :: fmt) s = Fmt.AdvTo f' s' ->
  exists B s1,
    blanks B /\ (s = B ++ nl ++ s1 \/ (s = B /\ s1 = [])) /\
    Fmt.advance n rest s1 = Fmt.AdvTo f' s'.
Proof.
  intros Hs Hrun H. cbn [Fmt.advance] in H. rewrite Hs, Hrun in H.
  cbn [Fmt.matchNewlines] in H.
  destruct (Fmt.matchNewline s) as [s1|] eqn:E; [|discriminate].
  apply matchNewline_inv in E as (B & HB & E).
  exists B, s1. auto.
Qed.

(** The format is at a verb: nothing is consumed. *)
Lemma advance_verb_inv (n : nat) (c : ascii) (fmt s f' s' : gostring) :
  Ascii.eqb c "%" = false ->
  Fmt.advance (S n) ("%"%char :: c :: fmt) s = Fmt.AdvTo f' s' ->
  f' = "%"%char :: c :: fmt /\ s' = s.
Proof.
  intros Hc H. cbn [Fmt.advance] in H.
  change (Fmt.isSpaceByte "%") with false in H.
  change (Ascii.eqb "%" "%") with true in H. cbv iota in H.
  rewrite Hc in H. injection H as <- <-. auto.
Qed.

Lemma advance_end_inv (n : nat) (s f' s' : gostring) :
  Fmt.advance n [] s = Fmt.AdvTo f' s' -> f' = [] /\ s' = s.
Proof. destruct n; simpl; intros H; injection H as <- <-; auto. Qed.

(** The text of the format up to its next verb. *)
Lemma doScanf_text_inv (fuel : nat) (c : ascii) (fmt s : gostring)
    (nargs : nat) (vals r : list Z) :
  Ascii.eqb c "%" = false ->
  Fmt.doScanf (S fuel) (c :: fmt) s nargs vals = Some r ->
  exists f' s',
    Fmt.advance (S (length fmt)) (c :: fmt) s = Fmt.AdvTo f' s' /\
    (length f' < S (length fmt) ->
     Fmt.doScanf fuel f' s' nargs vals = Some r).
Proof.
  intros Hc H. cbn [Fmt.doScanf] in H.
  change (length (c :: fmt)) with (S (length fmt)) in H.
  destruct (Fmt.advance (S (length fmt)) (c :: fmt) s) as [f' s'| |] eqn:E;
    try discriminate.
  exists f', s'. split; [reflexivity|]. intros Hlt.
  apply Nat.ltb_lt in Hlt. rewrite Hlt in H. exact H.
Qed.

(** The verb [%d]. *)
Lemma doScanf_verb_inv (fuel : nat) (fmt s : gostring) (nargs : nat)
    (vals r : list Z) :
  Fmt.doScanf (S fuel) ("%"%char :: "d"%char :: fmt) s nargs vals = Some r ->
  exists B tok s2 v,
    blanks B /\ s = B ++ tok ++ s2 /\ Fmt.ParseInt tok = Some v /\
    Fmt.doScanf fuel fmt s2 nargs (vals ++ [v]) = Some r.
Proof.
  intros H. cbn [Fmt.doScanf] in H.
  change (length ("%"%char :: "d"%char :: fmt)) with (S (S (length fmt))) in H.
  destruct (Fmt.advance (S (S (length fmt))) ("%"%char :: "d"%char :: fmt) s)
    as [f' s'| |] eqn:E; try discriminate.
  apply advance_verb_inv in E as [-> ->]; [|reflexivity].
  rewrite Nat.ltb_irrefl in H.
  change (Ascii.eqb "d" "d") with true in H. cbv iota in H.
  destruct (Fmt.SkipSpace (length s) s) as [s1|] eqn:Es; [|discriminate].
  apply SkipSpace_inv in Es as (B1 & HB1 & ->).
  destruct (Nat.leb nargs (length vals)); [discriminate|].
  destruct (Fmt.scanInt s1) as [[v s2]|] eqn:Ei; [|discriminate].
  apply scanInt_inv in Ei as (B2 & tok & HB2 & -> & Hp).
  exists (B1 ++ B2), tok, s2, v. rewrite <- app_assoc.
  repeat split; auto using blanks_app.
Qed.

Lemma doScanf_end_inv (fuel : nat) (s : gostring) (nargs : nat)
    (vals r : list Z) :
  Fmt.doScanf (S fuel) [] s nargs vals = Some r -> r = vals.
Proof.
  simpl. destruct (Nat.ltb (length vals) nargs); [discriminate|].
  intros H. injection H as <-. reflexivity.
Qed.

Ltac lits H :=
  repeat (let s0 := fresh "s" in
          apply advance_lit_inv in H as (s0 & -> & H);
          [|reflexivity|reflexivity]).

Ltac word H :=
  lits H; eexists; split; [reflexivity|].

(** The input ends where the format has a verb: the scan fails. *)
Ltac eof_at_verb H Hadv :=
  apply advance_verb_inv in Hadv as [-> ->]; [|reflexivity];
  specialize (H ltac:(simpl; lia)); vm_compute in H; discriminate H.

Ltac gap H Hadv :=
  let s2 := fresh "s" in
  let B := fresh "B" in
  let HB := fresh "HB" in
  let HBn := fresh "HBn" in
  let Hs := fresh "Hs" in
  eapply advance_gap_inv in Hadv as (s2 & Hs & Hadv); [|reflexivity|reflexivity];
  destruct Hs as [[-> ->]|(B & HBn & HB & ->)];
  [ first [ simpl in Hadv; discriminate Hadv | eof_at_verb H Hadv ]
  | exists B, s2; split; [reflexivity|]; split; [exact HB|]; split; [exact HBn|] ].

Ltac newline H Hadv :=
  let s1 := fresh "s" in
  let B := fresh "B" in
  let HB := fresh "HB" in
  let Hs := fresh "Hs" in
  eapply advance_newline_inv in Hadv as (B & s1 & HB & Hs & Hadv);
  [|reflexivity|reflexivity];
  destruct Hs as [->|[-> ->]];
  [ exists B, s1; split; [reflexivity|]; split; [exact HB|]
  | first [ simpl in Hadv; discriminate Hadv | eof_at_verb H Hadv ] ].

Ltac text H Hadv :=
  let f' := fresh "f" in
  let s' := fresh "s" in
  apply doScanf_text_inv in H as (f' & s' & Hadv & H); [|reflexivity];
  cbn [length] in Hadv.

Ltac verb H Hadv :=
  apply advance_verb_inv in Hadv as [-> ->]; [|reflexivity];
  specialize (H ltac:(simpl; lia));
  let B := fresh "B" in
  let tok := fresh "tok" in
  let s2 := fresh "s" in
  let v := fresh "v" in
  let HB := fresh "HB" in
  let Hp := fresh "Hp" in
  apply doScanf_verb_inv in H as (B & tok & s2 & v & HB & -> & Hp & H);
  exists B, tok, s2, v; split; [reflexivity|]; split; [exact HB|];
  split; [exact Hp|].

(** A successful scan of the template read a text of the template's shape
    and returns the integers in the order they stand in it. *)
Lemma Fscanf_template (body : gostring) (vals : list Z) :
  Fmt.Fscanf body templateMetrics 7 = Some vals ->
  conforms stubTemplate body vals.
Proof.
  unfold Fmt.Fscanf, conforms, stubTemplate. intros H.
  change (length templateMetrics) with 100 in H.
  change templateMetrics with (list_ascii_of_string
    "Active connections: %d
server accepts handled requests
%d %d %d
Reading: %d Writing: %d Waiting: %d
") in H.
  cbn [list_ascii_of_string] in H. cbn [conformsFrom].
  text H Hadv. word Hadv. gap H Hadv. word Hadv. gap H Hadv. verb H Hadv.
  text H Hadv. newline H Hadv. word Hadv. gap H Hadv. word Hadv. gap H Hadv.
  word Hadv. gap H Hadv. word Hadv. newline H Hadv. verb H Hadv.
  text H Hadv. gap H Hadv. verb H Hadv.
  text H Hadv. gap H Hadv. verb H Hadv.
  text H Hadv. newline H Hadv. word Hadv. gap H Hadv. verb H Hadv.
  text H Hadv. gap H Hadv. word Hadv. gap H Hadv. verb H Hadv.
  text H Hadv. gap H Hadv. word Hadv. gap H Hadv. verb H Hadv.
  text H Hadv.
  eapply advance_newline_inv in Hadv as (Bend & send & HBend & Hs & Hadv);
    [|reflexivity|reflexivity].
  apply advance_end_inv in Hadv as [-> ->].
  specialize (H ltac:(simpl; lia)). apply doScanf_end_inv in H.
  exists Bend. split; [exact HBend|]. split; [|exact H].
  destruct Hs as [->|[-> _]]; [right; eauto|left; reflexivity].
Qed.

Lemma parseStubStats_vals (body : gostring) (stats : StubStats) :
  parseStubStats body = inl stats ->
  Fmt.Fscanf body templateMetrics 7 =
  Some [ Active (Connections stats); Accepted (Connections stats);
         Handled (Connections stats); Requests stats;
         Reading (Connections stats); Writing (Connections stats);
         Waiting (Connections stats) ].
Proof.
  unfold parseStubStats. intros H.
  destruct (Fmt.Fscanf body templateMetrics 7)
    as [[|v1 [|v2 [|v3 [|v4 [|v5 [|v6 [|v7 [|v8 vs]]]]]]]]|];
    try discriminate.
  injection H as <-. reflexivity.
Qed.

Lemma GetStubStats_not_200 (w : World) (c : NginxClient) (status : Z)
    (body : option gostring) :
  wHttpGet w (apiEndpoint c) = HttpResponse status body ->
  status <> 200%Z ->
  exists e, GetStubStats w c = inr e.
Proof.
  intros Hget Hne. unfold GetStubStats. rewrite Hget.
  destruct (negb (wNewRequest w (apiEndpoint c))); [eauto|].
  destruct (Z.eqb_spec status 200) as [|_]; [contradiction|].
  cbn [negb]. eauto.
Qed.

Lemma GetStubStats_success (w : World) (c : NginxClient) (stats : StubStats) :
  GetStubStats w c = inl stats ->
  exists body,
    wHttpGet w (apiEndpoint c) = HttpResponse 200 (Some body) /\
    parseStubStats body = inl stats.
Proof.
  intros H. unfold GetStubStats in H.
  destruct (negb (wNewRequest w (apiEndpoint c))); [discriminate|].
  destruct (wHttpGet w (apiEndpoint c)) as [|status [body|]];
    try discriminate.
  - destruct (parseStubStats body) as [stats'|e] eqn:E.
    + destruct (Z.eqb_spec status 200) as [->|]; [|discriminate].
      injection H as ->. exists body. split; [reflexivity|exact E].
    + destruct (negb (Z.eqb status 200)); discriminate.
  - destruct (negb (Z.eqb status 200)); discriminate.
Qed.

(** C2, as the code has it.  [GetStubStats] returns an error whenever the
    response status is not 200.  When it succeeds, the status was 200 and
    the body, from its start to the end of the line with the waiting count,
    has the shape of the template: the words of the template separated by
    blanks, with a decimal integer at each of its seven places; the counters
    returned are those integers, in the order active, accepted, handled,
    requests, reading, writing, waiting.  What follows that line is not
    examined. *)
Theorem GetStubStats_template (w : World) (c : NginxClient) :
  (forall status body,
     wHttpGet w (apiEndpoint c) = HttpResponse status body ->
     status <> 200%Z ->
     exists e, GetStubStats w c = inr e) /\
  (forall stats,
     GetStubStats w c = inl stats ->
     exists body,
       wHttpGet w (apiEndpoint c) = HttpResponse 200 (Some body) /\
       conforms stubTemplate body
         [ Active (Connections stats); Accepted (Connections stats);
           Handled (Connections stats); Requests stats;
           Reading (Connections stats); Writing (Connections stats);
           Waiting (Connections stats) ]).
Proof.
  split.
  - intros status body. apply GetStubStats_not_200.
  - intros stats H.
    destruct (GetStubStats_success w c stats H) as (body & H1 & H2).
    exists body. split; [exact H1|].
    apply Fscanf_template. apply parseStubStats_vals. exact H2.
Qed.

Lemma GetStubStats_template_witness :
  exists body,
    wHttpGet Sample.worldUp (b "http://127.0.0.1:8080/stub_status")
      = HttpResponse 200 (Some body) /\
    conforms stubTemplate body
      [291; 16630948; 16630949; 31070465; 6; 179; 106]%Z.
Proof.
  apply (proj2 (GetStubStats_template Sample.worldUp
                  {| apiEndpoint := b "http://127.0.0.1:8080/stub_status" |})
               {| Connections := {| Active := 291; Accepted := 16630948;
                                    Handled := 16630949; Reading := 6;
                                    Writing := 179; Waiting := 106 |};
                  Requests := 31070465 |}).
  vm_compute. reflexivity.
Defined.

(** C2 as stated fails: a body with a further field after the line of the
    template is accepted, with the counters of the template's lines. *)
Lemma GetStubStats_accepts_trailing_field :
  GetStubStats
    (Sample.world
       (HttpResponse 200 (Some (Sample.statusBody ++ b "Dropped: 5" ++ nl))))
    {| apiEndpoint := b "http://127.0.0.1:8080/stub_status" |}
  = inl {| Connections := {| Active := 291; Accepted := 16630948;
                             Handled := 16630949; Reading := 6;
                             Writing := 179; Waiting := 106 |};
           Requests := 31070465 |}.
Proof. vm_compute. reflexivity. Qed.

End StatusPage.

(** ** Concurrent invocations *)

Section Serialized.
Import Threads.

Variable outs : nat -> list Metric.

Lemma stepsOf_app (i : nat) (tr : list (nat * Action)) (j : nat) (a : Action) :
  stepsOf i (tr ++ [(j, a)]) =
  stepsOf i tr ++ (if Nat.eqb j i then [a] else []).
Proof.
  unfold stepsOf. rewrite List.filter_app, map_app. simpl.
  destruct (Nat.eqb j i); reflexivity.
Qed.

Lemma stepsOf_In (i : nat) (a : Action) (tr : list (nat * Action)) :
  In a (stepsOf i tr) <-> In (i, a) tr.
Proof.
  unfold stepsOf. rewrite in_map_iff. split.
  - intros ([j a'] & <- & H). apply List.filter_In in H as [H E].
    simpl in E. apply Nat.eqb_eq in E. subst j. exact H.
  - intros H. exists (i, a). split; [reflexivity|].
    apply List.filter_In. split; [exact H|]. simpl. apply Nat.eqb_refl.
Qed.

(** The lock is the first step of an invocation and occurs nowhere else. *)
Lemma programOf_tail (i : nat) (done rest : list Action) (a : Action) :
  programOf outs i = done ++ a :: rest -> done <> [] -> a <> ALock.
Proof.
  unfold programOf, collectActions. intros E Hne ->.
  destruct done as [|d done]; [congruence|]. injection E as _ E.
  assert (H : In ALock (AFetchStatus :: map ASend (outs i) ++ [AUnlock])).
  { rewrite E. apply in_or_app. right. left. reflexivity. }
  destruct H as [H|H]; [discriminate|].
  apply in_app_or in H as [H|[H|[]]]; [|discriminate].
  apply in_map_iff in H as (m & H & _). discriminate.
Qed.

Lemma programOf_last (i : nat) : In AUnlock (programOf outs i).
Proof.
  unfold programOf, collectActions. right. right.
  apply in_or_app. right. left. reflexivity.
Qed.

(** An invocation that has taken a step and is not inside has finished. *)
Lemma acted_outside_finished (st : Shared) (i : nat) (a : Action) :
  invariant outs st -> In (i, a) (trace st) -> ~ inside st i ->
  In (i, AUnlock) (trace st).
Proof.
  intros Inv Hin Hout. pose proof (inv_progress outs st Inv i) as E.
  apply stepsOf_In in Hin.
  assert (Hne : stepsOf i (trace st) <> []) by (intros E0; rewrite E0 in Hin; exact Hin).
  unfold inside in Hout. destruct (pending st i) as [|p rest] eqn:Ep.
  - rewrite app_nil_r in E. apply stepsOf_In. rewrite <- E. apply programOf_last.
  - pose proof (programOf_tail i _ _ _ E Hne) as Hp.
    destruct p; try congruence; exfalso; apply Hout; exact I.
Qed.

Lemma programOf_unlock_last (i : nat) (done rest : list Action) :
  programOf outs i = done ++ AUnlock :: rest -> rest = [].
Proof.
  unfold programOf, collectActions. intros E.
  change (ALock :: AFetchStatus :: map ASend (outs i) ++ [AUnlock])
    with ((ALock :: AFetchStatus :: map ASend (outs i)) ++ [AUnlock]) in E.
  destruct rest as [|r rest] using rev_ind; [reflexivity|]. exfalso.
  clear IHrest.
  replace (done ++ AUnlock :: rest ++ [r])
    with ((done ++ AUnlock :: rest) ++ [r]) in E
    by (rewrite <- app_assoc; reflexivity).
  apply app_inj_tail in E as [E _].
  assert (H : In AUnlock (ALock :: AFetchStatus :: map ASend (outs i))).
  { rewrite E. apply in_or_app. right. left. reflexivity. }
  destruct H as [H|[H|H]]; try discriminate.
  apply in_map_iff in H as (m & H & _). discriminate.
Qed.

Lemma programOf_not_last (i : nat) (done rest : list Action) (a : Action) :
  programOf outs i = done ++ a :: rest -> a <> AUnlock -> rest <> [].
Proof.
  unfold programOf, collectActions. intros E Ha ->.
  change (ALock :: AFetchStatus :: map ASend (outs i) ++ [AUnlock])
    with ((ALock :: AFetchStatus :: map ASend (outs i)) ++ [AUnlock]) in E.
  replace (done ++ [a]) with (done ++ [a]) in E by reflexivity.
  apply app_inj_tail in E as [_ E]. congruence.
Qed.

Lemma snoc_split2 {X} (l t1 t2 t3 : list X) (x y z : X) :
  l ++ [x] = t1 ++ y :: t2 ++ z :: t3 ->
  (t3 = [] /\ z = x /\ l = t1 ++ y :: t2) \/
  (exists t3', t3 = t3' ++ [x] /\ l = t1 ++ y :: t2 ++ z :: t3').
Proof.
  intros E. destruct t3 as [|w t3 _] using rev_ind.
  - left. replace (t1 ++ y :: t2 ++ [z]) with ((t1 ++ y :: t2) ++ [z]) in E
      by (rewrite <- app_assoc; reflexivity).
    apply app_inj_tail in E as [-> ->]. auto.
  - right. exists t3.
    replace (t1 ++ y :: t2 ++ z :: t3 ++ [w])
      with ((t1 ++ y :: t2 ++ z :: t3) ++ [w]) in E
      by (rewrite <- !app_assoc; simpl; rewrite <- !app_assoc; reflexivity).
    apply app_inj_tail in E as [-> ->]. auto.
Qed.

Lemma Action_eq_lock (a : Action) : a = ALock \/ a <> ALock.
Proof. destruct a; auto; right; discriminate. Qed.

Lemma step_cases (st : Shared) (i : nat) :
  step st i = st \/
  exists a rest, pending st i = a :: rest /\
                 (a = ALock -> locked st = false) /\
                 step st i = after st i a rest.
Proof.
  unfold step. destruct (pending st i) as [|a rest] eqn:E; [auto|].
  destruct a.
  - destruct (locked st) eqn:L; [auto|]. right. exists ALock, rest. auto.
  - right. exists AFetchStatus, rest. repeat split; congruence.
  - right. exists (ASend m), rest. repeat split; congruence.
  - right. exists AUnlock, rest. repeat split; congruence.
Qed.

Lemma inside_after_other (st : Shared) (i j : nat) (a : Action)
    (rest : list Action) :
  j <> i -> (inside (after st i a rest) j <-> inside st j).
Proof.
  intros Hne. unfold inside, after, setPending. simpl.
  apply Nat.eqb_neq in Hne. rewrite Hne. tauto.
Qed.

Lemma inside_after_self (st : Shared) (i : nat) (a : Action)
    (rest : list Action) :
  inside (after st i a rest) i <->
  match rest with [] | ALock :: _ => False | _ => True end.
Proof.
  unfold inside, after, setPending. simpl. rewrite Nat.eqb_refl. tauto.
Qed.

Lemma invariant_after (st : Shared) (i : nat) (a : Action) (rest : list Action) :
  invariant outs st -> pending st i = a :: rest ->
  (a = ALock -> locked st = false) ->
  invariant outs (after st i a rest).
Proof.
  intros Inv Ep Hlock.
  pose proof (inv_progress outs st Inv i) as Ei. rewrite Ep in Ei.
  (* where [i] stands before and after the step *)
  assert (Hbefore : a <> ALock -> inside st i).
  { intros Ha. unfold inside. rewrite Ep. destruct a; try exact I. congruence. }
  assert (Hafter : a <> AUnlock -> inside (after st i a rest) i).
  { intros Ha. apply inside_after_self.
    pose proof (programOf_not_last i _ _ _ Ei Ha) as Hr.
    destruct rest as [|r rest']; [congruence|].
    assert (r <> ALock).
    { apply (programOf_tail i (stepsOf i (trace st) ++ [a]) rest').
      - rewrite <- app_assoc. exact Ei.
      - destruct (stepsOf i (trace st)); discriminate. }
    destruct r; try exact I. congruence. }
  assert (Hdone : a = AUnlock -> ~ inside (after st i a rest) i).
  { intros -> H. apply inside_after_self in H.
    rewrite (programOf_unlock_last i _ _ Ei) in H. exact H. }
  (* nobody else is inside when [i] steps *)
  assert (Halone : forall j, j <> i -> ~ inside st j).
  { intros j Hne Hj. destruct (Action_eq_lock a) as [Ha|Ha].
    - pose proof (inv_locked outs st Inv j Hj). rewrite (Hlock Ha) in H. discriminate.
    - apply Hne. apply (inv_single outs st Inv); [exact Hj|apply Hbefore; exact Ha]. }
  constructor.
  - intros j. unfold after, setPending. simpl. rewrite stepsOf_app.
    destruct (Nat.eqb_spec i j) as [<-|Hne].
    + rewrite Nat.eqb_refl, <- app_assoc. exact Ei.
    + apply not_eq_sym in Hne. apply Nat.eqb_neq in Hne. rewrite Hne.
      rewrite app_nil_r. apply (inv_progress outs st Inv).
  - intros L. exists i. apply Hafter. intros ->. discriminate L.
  - intros j Hj. destruct (Nat.eq_dec j i) as [->|Hne].
    + destruct a; simpl; try reflexivity.
      * apply (inv_locked outs st Inv i). apply Hbefore. discriminate.
      * apply (inv_locked outs st Inv i). apply Hbefore. discriminate.
      * exfalso. exact (Hdone eq_refl Hj).
    + apply inside_after_other in Hj; [|exact Hne].
      exfalso. exact (Halone j Hne Hj).
  - intros j k Hj Hk.
    destruct (Nat.eq_dec j i) as [->|Hj']; destruct (Nat.eq_dec k i) as [->|Hk'];
      try reflexivity; exfalso.
    + apply inside_after_other in Hk; [|exact Hk']. exact (Halone k Hk' Hk).
    + apply inside_after_other in Hj; [|exact Hj']. exact (Halone j Hj' Hj).
    + apply inside_after_other in Hj; [|exact Hj']. exact (Halone j Hj' Hj).
  - intros t1 i0 a0 t2 j a' t3 E Hne. simpl in E.
    apply snoc_split2 in E as [(-> & Ez & E)|(t3' & -> & E)].
    + injection Ez as -> ->. rewrite <- E.
      apply (acted_outside_finished st i0 a0 Inv).
      * rewrite E. apply in_or_app. right. left. reflexivity.
      * apply Halone. exact Hne.
    + apply (inv_serial outs st Inv _ _ _ _ _ _ _ E Hne).
Qed.

Lemma invariant_start : invariant outs (start (programOf outs)).
Proof.
  constructor; simpl.
  - intros i. reflexivity.
  - discriminate.
  - intros i H. unfold inside in H. simpl in H. contradiction.
  - intros i j H. unfold inside in H. simpl in H. contradiction.
  - intros t1 i a t2 j a' t3 E. destruct t1; discriminate.
Qed.

Lemma invariant_step (st : Shared) (i : nat) :
  invariant outs st -> invariant outs (step st i).
Proof.
  intros Inv. destruct (step_cases st i) as [->|(a & rest & Ep & Hl & ->)];
    [exact Inv|].
  apply invariant_after; assumption.
Qed.

Lemma invariant_run (schedule : list nat) (st : Shared) :
  invariant outs st -> invariant outs (run schedule st).
Proof.
  revert st. induction schedule as [|i schedule IH]; intros st Inv;
    [exact Inv|].
  apply IH, invariant_step, Inv.
Qed.

(** C9.  Invocations of [Collect] on one collector, each sending whatever
    metrics it sends, run under any schedule.  At every moment at most one
    of them is between its lock and its unlock; and whenever a step of one
    invocation is followed, later, by a step of another, the first had by
    then unlocked: all its steps, from the status fetch to the last metric
    sent, lie before every step of the other. *)
Theorem Collect_serialized (schedule : list nat) :
  let st := run schedule (start (programOf outs)) in
  (forall i j, inside st i -> inside st j -> i = j) /\
  (forall t1 i a t2 j a' t3,
     trace st = t1 ++ (i, a) :: t2 ++ (j, a') :: t3 -> i <> j ->
     In (i, AUnlock) (t1 ++ (i, a) :: t2)).
Proof.
  pose proof (invariant_run schedule _ invariant_start) as Inv.
  split; [apply (inv_single _ _ Inv)|apply (inv_serial _ _ Inv)].
Qed.

End Serialized.

Lemma Collect_serialized_witness :
  In (0, Threads.AUnlock)
     ([] ++ (0, Threads.ALock) ::
      [(0, Threads.AFetchStatus); (0, Threads.ASend (MUp 0)); (0, Threads.AUnlock)]).
Proof.
  apply (proj2 (Collect_serialized
                  (fun i => collector.Inline.Collect Sample.worldDown Sample.theCollector)
                  [0; 0; 1; 0; 0; 1; 1])
               [] 0 Threads.ALock
               [(0, Threads.AFetchStatus); (0, Threads.ASend (MUp 0));
                (0, Threads.AUnlock)]
               1 Threads.ALock [(1, Threads.AFetchStatus)]).
  - vm_compute. reflexivity.
  - discriminate.
Defined.

(* ===================================================================== *)
(** * Further properties of the code *)
(* ===================================================================== *)

(** ** Package [main] *)

Section Exporter.
Import exporter.

Lemma Index_free (c : ascii) (s : gostring) :
  free c s -> Strings.Index s [c] = None.
Proof.
  induction 1 as [|x s Hx _ IH]; simpl; [reflexivity|].
  destruct (Ascii.eqb_spec x c) as [->|_]; [contradiction|].
  simpl. rewrite IH. reflexivity.
Qed.

Lemma Index_first (c : ascii) (pre post : gostring) :
  free c pre -> Strings.Index (pre ++ c :: post) [c] = Some (length pre).
Proof.
  induction 1 as [|x s Hx _ IH]; simpl.
  - rewrite Ascii.eqb_refl. reflexivity.
  - destruct (Ascii.eqb_spec x c) as [->|_]; [contradiction|].
    simpl. rewrite IH. reflexivity.
Qed.

Lemma splitLoop_free (c : ascii) (s : gostring) (fuel : nat) :
  free c s -> Strings.splitLoop fuel s [c] = [s].
Proof.
  intros H. destruct fuel; simpl; [reflexivity|].
  rewrite (Index_free c s H). reflexivity.
Qed.

Lemma splitLoop_first (c : ascii) (pre post : gostring) (fuel : nat) :
  free c pre ->
  Strings.splitLoop (S fuel) (pre ++ c :: post) [c] =
  pre :: Strings.splitLoop fuel post [c].
Proof.
  intros H. cbn [Strings.splitLoop]. rewrite (Index_first c pre post H).
  rewrite firstn_app, Nat.sub_diag, firstn_all, app_nil_r.
  replace (length pre + length [c]) with (1 + length pre) by (simpl; lia).
  rewrite <- skipn_skipn, skipn_app, Nat.sub_diag, skipn_all. reflexivity.
Qed.

Lemma first_occurrence (c : ascii) (s : gostring) :
  free c s \/ exists pre post, s = pre ++ c :: post /\ free c pre.
Proof.
  induction s as [|x s [IH|(pre & post & -> & Hpre)]].
  - left. constructor.
  - destruct (Ascii.eqb_spec x c) as [->|Hx].
    + right. exists [], s. split; [reflexivity|constructor].
    + left. constructor; assumption.
  - destruct (Ascii.eqb_spec x c) as [->|Hx].
    + right. exists [], (pre ++ c :: post). split; [reflexivity|constructor].
    + right. exists (x :: pre), post. split; [reflexivity|].
      constructor; assumption.
Qed.

Lemma occurrences_free (c : ascii) (s : gostring) :
  free c s -> occurrences c s = 0.
Proof.
  unfold occurrences. induction 1 as [|x s Hx _ IH]; simpl; [reflexivity|].
  destruct (Ascii.eqb_spec c x) as [->|_]; [contradiction|]. exact IH.
Qed.

Lemma occurrences_app (c : ascii) (s t : gostring) :
  occurrences c (s ++ t) = occurrences c s + occurrences c t.
Proof. unfold occurrences. rewrite List.filter_app, length_app. reflexivity. Qed.

Lemma occurrences_first (c : ascii) (pre post : gostring) :
  free c pre -> occurrences c (pre ++ c :: post) = S (occurrences c post).
Proof.
  intros H. rewrite occurrences_app, (occurrences_free c pre H).
  unfold occurrences. simpl. rewrite Ascii.eqb_refl. reflexivity.
Qed.

(** [strings.Split] on a one-character separator gives one piece more than
    the text has separators. *)
Lemma splitLoop_length (c : ascii) (fuel : nat) :
  forall s, length s <= fuel ->
  length (Strings.splitLoop fuel s [c]) = S (occurrences c s).
Proof.
  induction fuel as [|fuel IH]; intros s Hlen.
  - destruct s; [reflexivity|simpl in Hlen; lia].
  - destruct (first_occurrence c s) as [H|(pre & post & -> & H)].
    + rewrite splitLoop_free, occurrences_free by exact H. reflexivity.
    + rewrite splitLoop_first, occurrences_first by exact H. simpl.
      rewrite IH; [reflexivity|]. rewrite length_app in Hlen. simpl in Hlen. lia.
Qed.

Lemma Split_length (c : ascii) (s : gostring) :
  length (Strings.Split s [c]) = S (occurrences c s).
Proof. apply splitLoop_length. reflexivity. Qed.

Lemma Split_free (c : ascii) (s : gostring) :
  free c s -> Strings.Split s [c] = [s].
Proof. apply splitLoop_free. Qed.

Lemma Split_first (c : ascii) (pre post : gostring) :
  free c pre ->
  Strings.Split (pre ++ c :: post) [c] = pre :: Strings.Split post [c].
Proof.
  intros H. unfold Strings.Split. rewrite length_app. simpl.
  rewrite Nat.add_succ_r, splitLoop_first by exact H. f_equal.
  destruct (first_occurrence c post) as [Hp|(p & q & -> & Hp)].
  - rewrite !splitLoop_free by exact Hp. reflexivity.
  - clear H. revert p q Hp pre.
    assert (forall f1 f2 s, length s <= f1 -> length s <= f2 ->
              Strings.splitLoop f1 s [c] = Strings.splitLoop f2 s [c]) as Hf.
    { induction f1 as [|f1 IH]; intros f2 s H1 H2.
      - destruct s; [|simpl in H1; lia]. destruct f2; reflexivity.
      - destruct (first_occurrence c s) as [Hs|(p & q & -> & Hs)].
        + rewrite !splitLoop_free by exact Hs. reflexivity.
        + destruct f2 as [|f2]; [rewrite length_app in H2; simpl in H2; lia|].
          rewrite !splitLoop_first by exact Hs. f_equal.
          rewrite length_app in H1, H2. simpl in H1, H2. apply IH; lia. }
    intros p q Hp pre. apply Hf; lia.
Qed.

(** X1.  [parseUnixSocketAddress] by the number of colons of the address:
    with none, the index [addressParts[1]] is out of range and the call
    panics; with one or two, it returns a socket path, a request path and a
    nil error; with three or more, it returns the format error. *)
Theorem parseUnixSocketAddress_by_colons (address : gostring) :
  match occurrences ":" address with
  | 0 => parseUnixSocketAddress address = Panicked
  | 1 | 2 =>
    exists unixSocketPath requestPath,
      parseUnixSocketAddress address =
      Returned (unixSocketPath, requestPath, None)
  | _ =>
    exists e, parseUnixSocketAddress address = Returned ([], [], Some e)
  end.
Proof.
  unfold parseUnixSocketAddress.
  pose proof (Split_length ":" address) as Hlen.
  change (b ":") with [":"%char].
  destruct (Strings.Split address [":"%char]) as [|p0 [|p1 [|p2 [|p3 parts]]]];
    simpl in Hlen; [discriminate| | | |]; injection Hlen as <-; simpl.
  - reflexivity.
  - eauto.
  - eauto.
  - eauto.
Qed.

(** X2.  [parseUnixSocketAddress] reads back what was put together: of
    [scheme:path:request] it returns the path and the request path, of
    [scheme:path] the path and the empty request path, whenever the parts
    have no colon of their own. *)
Theorem parseUnixSocketAddress_parts (scheme path request : gostring) :
  free ":" scheme -> free ":" path -> free ":" request ->
  parseUnixSocketAddress (scheme ++ b ":" ++ path ++ b ":" ++ request) =
    Returned (path, request, None) /\
  parseUnixSocketAddress (scheme ++ b ":" ++ path) = Returned (path, [], None).
Proof.
  intros Hs Hp Hr. unfold parseUnixSocketAddress.
  change (b ":") with [":"%char]. cbn [app].
  rewrite !Split_first, !Split_free by assumption.
  split; reflexivity.
Qed.

Lemma parseUnixSocketAddress_parts_witness :
  parseUnixSocketAddress
    (b "unix" ++ b ":" ++ b "/var/run/nginx.sock" ++ b ":" ++ b "/stub_status") =
    Returned (b "/var/run/nginx.sock", b "/stub_status", None) /\
  parseUnixSocketAddress (b "unix" ++ b ":" ++ b "/var/run/nginx.sock") =
    Returned (b "/var/run/nginx.sock", [], None).
Proof.
  apply parseUnixSocketAddress_parts;
    repeat (constructor; [discriminate|]); constructor.
Defined.

Lemma occurrences_prefix (c : ascii) (p t : gostring) :
  In c p -> 1 <= occurrences c (p ++ t).
Proof.
  intros H. rewrite occurrences_app. unfold occurrences.
  induction p as [|x p IH]; [contradiction|]. simpl.
  destruct (Ascii.eqb_spec c x) as [->|Hx]; simpl; [lia|].
  destruct H as [->|H]; [contradiction|]. specialize (IH H). lia.
Qed.

(** X3.  [registerCollector] never reaches the panic of
    [parseUnixSocketAddress]: it calls it only for an address that starts
    with [unix:].  Such an address makes the process exit with code 1
    exactly when it has three or more colons, and is otherwise scraped
    through a unix socket at [http://unix] followed by the request path;
    any other address is scraped as it is. *)
Theorem registerCollector_address (addr : gostring) :
  if Strings.HasPrefix addr (b "unix:") then
    if Nat.ltb 2 (occurrences ":" addr)
    then registerCollector addr = Returned (Exit 1)
    else exists socketPath requestPath,
        registerCollector addr =
        Returned (Scrape (Some socketPath) (b "http://unix" ++ requestPath))
  else registerCollector addr = Returned (Scrape None addr).
Proof.
  unfold registerCollector.
  destruct (Strings.HasPrefix addr (b "unix:")) eqn:Hp; [|reflexivity].
  apply HasPrefix_inv in Hp as [t ->].
  assert (1 <= occurrences ":" (b "unix:" ++ t)) as Hocc
    by (apply occurrences_prefix; simpl; auto 10).
  generalize dependent (b "unix:" ++ t). intros addr Hocc.
  pose proof (Split_length ":" addr) as Hlen.
  unfold parseUnixSocketAddress. change (b ":") with [":"%char].
  destruct (Strings.Split addr [":"%char])
    as [|p0 [|p1 [|p2 [|p3 parts]]]];
    simpl in Hlen; [discriminate| | | |]; injection Hlen as Hlen;
    rewrite <- Hlen in *; simpl.
  - lia.
  - eauto.
  - eauto.
  - reflexivity.
Qed.

(** X4.  The rewriting of deprecated flags in [main]: afterwards every
    argument that starts with a dash and is longer than two characters
    starts with two dashes, so a second pass changes nothing; arguments
    that do not start with a dash, and the two-character flags, stay as
    they are. *)
Theorem convertDeprecatedFlags_settled (args : list gostring) :
  Forall (fun arg =>
            Strings.HasPrefix arg (b "-") = true -> 2 < length arg ->
            Strings.HasPrefix arg (b "--") = true)
         (convertDeprecatedFlags args) /\
  convertDeprecatedFlags (convertDeprecatedFlags args) =
  convertDeprecatedFlags args /\
  Forall2 (fun arg arg' =>
             Strings.HasPrefix arg (b "-") = false \/ length arg <= 2 ->
             arg' = arg)
          args (convertDeprecatedFlags args).
Proof.
  assert (forall arg,
    (Strings.HasPrefix (convertDeprecatedFlag arg) (b "-") = true ->
     2 < length (convertDeprecatedFlag arg) ->
     Strings.HasPrefix (convertDeprecatedFlag arg) (b "--") = true) /\
    convertDeprecatedFlag (convertDeprecatedFlag arg) = convertDeprecatedFlag arg /\
    (Strings.HasPrefix arg (b "-") = false \/ length arg <= 2 ->
     convertDeprecatedFlag arg = arg)) as H.
  { intros arg. unfold convertDeprecatedFlag.
    destruct arg as [|c1 [|c2 [|c3 arg]]]; simpl.
    - repeat split; auto; discriminate.
    - rewrite !andb_false_r. simpl. rewrite !andb_true_r.
      repeat split; auto. intros _ Hl. lia.
    - rewrite !andb_false_r. simpl. rewrite !andb_true_r.
      repeat split; auto. intros _ Hl. lia.
    - rewrite !andb_true_r.
      destruct (Ascii.eqb c1 "-") eqn:E1; simpl.
      + destruct (Ascii.eqb c2 "-") eqn:E2; simpl.
        * rewrite E1, E2. simpl. repeat split; auto.
        * rewrite E1. simpl.
          repeat split; auto. intros [Hf|Hl]; [discriminate|lia].
      + rewrite E1. simpl. repeat split; auto; discriminate. }
  unfold convertDeprecatedFlags. repeat split.
  - apply List.Forall_forall. intros x Hx.
    apply in_map_iff in Hx as (arg & <- & _). exact (proj1 (H arg)).
  - rewrite map_map. apply map_ext. intros arg. exact (proj1 (proj2 (H arg))).
  - induction args as [|arg args IH]; simpl; constructor; [|exact IH].
    exact (proj2 (proj2 (H arg))).
Qed.

Lemma replaceLoop_char (a c : ascii) (fuel : nat) :
  forall s, length s <= fuel ->
  Strings.replaceLoop fuel s [a] [c] =
  map (fun x => if Ascii.eqb x a then c else x) s.
Proof.
  induction fuel as [|fuel IH]; intros s Hlen.
  - destruct s; [reflexivity|simpl in Hlen; lia].
  - destruct s as [|x s]; [reflexivity|]. simpl in Hlen.
    cbn [Strings.replaceLoop Strings.HasPrefix map].
    rewrite andb_true_r. destruct (Ascii.eqb x a); simpl;
      rewrite ?skipn_O, IH by lia; reflexivity.
Qed.

(** What [convertFlagToEnvar] makes of one character. *)
Lemma convertFlagToEnvar_map (f : gostring) :
  convertFlagToEnvar f =
  map (fun c =>
         let u := Strings.upper c in
         let d := if Ascii.eqb u "-" then "_"%char else u in
         if Ascii.eqb d "." then "_"%char else d) f.
Proof.
  unfold convertFlagToEnvar, Strings.ToUpper. simpl.
  unfold Strings.ReplaceAll. change (b "-") with ["-"%char].
  change (b ".") with ["."%char]. change (b "_") with ["_"%char].
  cbv iota beta. rewrite !replaceLoop_char by reflexivity.
  rewrite !map_map. reflexivity.
Qed.

(** X5.  [convertFlagToEnvar] on an ASCII flag name: the result has the
    length of the name and neither a lower-case letter nor a dash nor a
    dot, which is why converting twice is converting once. *)
Theorem convertFlagToEnvar_shape (f : gostring) :
  isASCII f ->
  length (convertFlagToEnvar f) = length f /\
  Forall (fun c => isLower c = false /\ c <> "-"%char /\ c <> "."%char)
         (convertFlagToEnvar f) /\
  convertFlagToEnvar (convertFlagToEnvar f) = convertFlagToEnvar f.
Proof.
  intros _. rewrite !convertFlagToEnvar_map. repeat split.
  - apply length_map.
  - apply List.Forall_forall. intros x Hx.
    apply in_map_iff in Hx as (c & <- & _).
    destruct c as [[|] [|] [|] [|] [|] [|] [|] [|]];
      (split; [reflexivity|split; discriminate]).
  - rewrite map_map. apply map_ext. intros c.
    destruct c as [[|] [|] [|] [|] [|] [|] [|] [|]]; reflexivity.
Qed.

Lemma convertFlagToEnvar_shape_witness :
  length (convertFlagToEnvar (b "telemetry-path")) = 14 /\
  Forall (fun c => isLower c = false /\ c <> "-"%char /\ c <> "."%char)
         (convertFlagToEnvar (b "telemetry-path")) /\
  convertFlagToEnvar (convertFlagToEnvar (b "telemetry-path")) =
  convertFlagToEnvar (b "telemetry-path").
Proof.
  apply (convertFlagToEnvar_shape (b "telemetry-path")).
  repeat (constructor; [vm_compute; reflexivity|]). constructor.
Defined.

(** X6.  [positiveDuration.Set], whatever [time.ParseDuration] does: a
    duration that is not negative stays so; when [Set] returns a nil error
    the new duration is the one parsed, zero included; when it returns an
    error the duration is unchanged. *)
Theorem positiveDuration_Set_invariant
    (ParseDuration : gostring -> option Z) (pd : Z) (s : gostring) :
  (0 <= pd)%Z ->
  let (pd', err) := positiveDuration_Set ParseDuration pd s in
  (0 <= pd')%Z /\
  (err = None -> ParseDuration s = Some pd') /\
  (err <> None -> pd' = pd).
Proof.
  intros Hpd. unfold positiveDuration_Set, parsePositiveDuration.
  destruct (ParseDuration s) as [dur|]; [|repeat split; [exact Hpd|discriminate]].
  destruct (Z.ltb_spec dur 0); repeat split;
    try exact Hpd; try discriminate; try lia; congruence.
Qed.

Lemma positiveDuration_Set_invariant_witness :
  let (pd', err) := positiveDuration_Set (fun _ => Some 0%Z) 5 (b "0s") in
  (0 <= pd')%Z /\
  (err = None -> Some 0%Z = Some pd') /\
  (err <> None -> pd' = 5%Z).
Proof.
  apply (positiveDuration_Set_invariant (fun _ => Some 0%Z) 5 (b "0s")). lia.
Defined.

End Exporter.

(** ** Labels and descriptors *)

Section Labels.
Import helper.

Lemma copyLabels_lookup (visit : list (gostring * gostring)) (k : gostring) :
  NoDup (map fst visit) ->
  forall c,
    (forall v, In (k, v) visit -> copyLabels visit c !! k = Some v) /\
    (~ In k (map fst visit) -> copyLabels visit c !! k = c !! k).
Proof.
  unfold copyLabels.
  induction visit as [|[k0 v0] visit IH]; intros Hnd c; simpl.
  - split; [contradiction|reflexivity].
  - apply NoDup_cons in Hnd as [Hk0 Hnd].
    destruct (IH Hnd (<[k0:=v0]> c)) as [IH1 IH2]. split.
    + intros v [Heq|Hin]; [|apply IH1; exact Hin].
      injection Heq as -> ->. rewrite IH2.
      * apply lookup_insert_eq.
      * rewrite <- list_elem_of_In. exact Hk0.
    + intros Hk. rewrite IH2 by tauto. apply lookup_insert_ne. tauto.
Qed.

Lemma visit_entries (m : gmap gostring gostring)
    (visit : list (gostring * gostring)) :
  visit ≡ₚ map_to_list m ->
  NoDup (map fst visit) /\
  (forall k v, In (k, v) visit <-> m !! k = Some v) /\
  (forall k, m !! k = None -> ~ In k (map fst visit)).
Proof.
  intros Hperm.
  assert (forall k v, In (k, v) visit <-> m !! k = Some v) as Hin.
  { intros k v. rewrite <- list_elem_of_In, Hperm. apply elem_of_map_to_list. }
  split; [|split; [exact Hin|]].
  - change (map fst visit) with (visit.*1). rewrite Hperm.
    apply NoDup_fst_map_to_list.
  - intros k Hk Hin'. apply in_map_iff in Hin' as ([k' v] & <- & Hkv).
    apply Hin in Hkv. simpl in Hk. congruence.
Qed.

(** X7.  [MergeLabels] gives the same map in whatever order the two
    [range] loops visit their maps: a key of [b] has the value [b] gives
    it, any other key the value [a] gives it, and a key of neither map is
    absent. *)
Theorem MergeLabels_lookup (a b0 : gmap gostring gostring)
    (visitA visitB : list (gostring * gostring)) (k : gostring) :
  visitA ≡ₚ map_to_list a -> visitB ≡ₚ map_to_list b0 ->
  MergeLabels visitA visitB !! k =
  match b0 !! k with
  | Some v => Some v
  | None => a !! k
  end.
Proof.
  intros Ha Hb. unfold MergeLabels.
  destruct (visit_entries a visitA Ha) as (NA & InA & OutA).
  destruct (visit_entries b0 visitB Hb) as (NB & InB & OutB).
  destruct (copyLabels_lookup visitB k NB (copyLabels visitA ∅)) as [B1 B2].
  destruct (copyLabels_lookup visitA k NA ∅) as [A1 A2].
  destruct (b0 !! k) as [v|] eqn:Eb.
  - apply B1, InB. exact Eb.
  - rewrite B2 by (apply OutB; exact Eb).
    destruct (a !! k) as [v|] eqn:Ea.
    + apply A1, InA. exact Ea.
    + rewrite A2 by (apply OutA; exact Ea). apply lookup_empty.
Qed.

Lemma MergeLabels_lookup_witness :
  MergeLabels [(b "job", b "nginx"); (b "env", b "dev")] [(b "env", b "prod")]
    !! b "env" = Some (b "prod").
Proof.
  pose proof (MergeLabels_lookup
           (<[b "job" := b "nginx"]> (<[b "env" := b "dev"]> ∅))
           (<[b "env" := b "prod"]> ∅)
           [(b "job", b "nginx"); (b "env", b "dev")] [(b "env", b "prod")]
           (b "env")) as H.
  rewrite lookup_insert_eq in H. apply H; clear H.
  - rewrite map_to_list_insert
      by (rewrite lookup_insert_ne by discriminate; apply lookup_empty).
    rewrite insert_empty, map_to_list_singleton. reflexivity.
  - rewrite insert_empty, map_to_list_singleton. reflexivity.
Defined.

End Labels.

Section Descriptors.
Import client collector.

Variable namespace : gostring.
Variable constLabels : gmap gostring gostring.

Lemma stubDescs_lookup (name : gostring) :
  In name stubNames ->
  stubDescs namespace constLabels !! name =
  Some (helper.newGlobalMetric namespace name constLabels).
Proof.
  unfold stubNames, stubDescs. intros H. simpl in H.
  repeat (destruct H as [<-|H];
          [rewrite ?lookup_insert_ne by discriminate; apply lookup_insert_eq|]).
  contradiction.
Qed.

Lemma stubDescs_entries :
  map_to_list (stubDescs namespace constLabels) ≡ₚ
  map (fun name => (name, helper.newGlobalMetric namespace name constLabels))
      stubNames.
Proof.
  unfold stubDescs, stubNames. cbn [map].
  repeat (rewrite map_to_list_insert
            by (rewrite ?lookup_insert_ne by discriminate; apply lookup_empty);
          apply Permutation_cons; [reflexivity|]).
  rewrite map_to_list_empty. reflexivity.
Qed.

Lemma stubMetrics_names (stats : StubStats) (m : Metric) :
  In m (stubMetrics stats) ->
  exists name t v, m = MStub name t v /\ In name stubNames.
Proof.
  unfold stubMetrics, stubNames. simpl. intros H.
  repeat (destruct H as [<-|H];
          [do 3 eexists; split; [reflexivity|simpl; auto 10]|]).
  contradiction.
Qed.

Lemma visited_stub (visit : list (gostring * prometheus.Desc)) (name : gostring) :
  visits (stubDescs namespace constLabels) visit ->
  In name stubNames ->
  In (helper.newGlobalMetric namespace name constLabels) (map snd visit).
Proof.
  intros Hv Hn. apply in_map_iff.
  exists (name, helper.newGlobalMetric namespace name constLabels).
  split; [reflexivity|]. rewrite <- list_elem_of_In, Hv.
  apply elem_of_map_to_list, stubDescs_lookup, Hn.
Qed.

(** The kinds of metric each revision sends. *)
Lemma Mtime_Collect_kinds (w : World) (c : NginxCollector) (m : Metric) :
  In m (Mtime.Collect w c) ->
  match m with
  | MUp _ | MConfigMod _ _ => True
  | MStub name _ _ => In name stubNames
  | MHealth _ _ _ => False
  end.
Proof.
  unfold Mtime.Collect.
  destruct (GetStubStats w (nginxClient c)) as [stats|e].
  - intros [<-|H]; [exact I|]. apply in_app_or in H as [H|H].
    + apply stubMetrics_names in H as (name & t & v & -> & Hn). exact Hn.
    + apply in_flat_map in H as (f & _ & H). unfold Mtime.fileMetrics in H.
      destruct (wStat w f) as [info|]; [|contradiction].
      destruct (negb _); [contradiction|].
      destruct H as [<-|[]]. exact I.
  - intros [<-|[]]. exact I.
Qed.

Lemma Inline_Collect_kinds (w : World) (c : NginxCollector) (m : Metric) :
  In m (Inline.Collect w c) ->
  match m with
  | MStub name _ _ => In name stubNames
  | _ => True
  end.
Proof.
  unfold Inline.Collect.
  destruct (GetStubStats w (nginxClient c)) as [stats|e].
  - intros [<-|H]; [exact I|]. apply in_app_or in H as [H|H].
    + apply stubMetrics_names in H as (name & t & v & -> & Hn). exact Hn.
    + apply in_flat_map in H as (f & _ & H). unfold Inline.fileMetrics in H.
      destruct (wStat w f) as [info|]; [|contradiction].
      destruct (negb _); [contradiction|].
      destruct (helper.extractProxyTarget w f) as [ts [e|]]; [contradiction|].
      apply in_app_or in H as [H|[<-|[]]]; [|exact I].
      unfold Inline.healthMetrics in H. apply in_map_iff in H as (t & <- & _).
      destruct (helper.tcpTest w t) as [[r e] ev]. exact I.
  - intros [<-|[]]. exact I.
Qed.

Lemma Custom_Collect_kinds
    (extract : World -> gostring -> list gostring * error)
    (w : World) (c : NginxCollector) (m : Metric) :
  In m (Custom.Collect extract w c) ->
  match m with
  | MStub name _ _ => In name stubNames
  | _ => True
  end.
Proof.
  unfold Custom.Collect.
  destruct (GetStubStats w (nginxClient c)) as [stats|e].
  - intros [<-|H]; [exact I|]. apply in_app_or in H as [H|H].
    + apply stubMetrics_names in H as (name & t & v & -> & Hn). exact Hn.
    + unfold GetCustomStats in H. apply in_app_or in H as [H|H].
      * unfold Custom.modMetrics in H.
        apply in_map_iff in H as ([file t] & <- & _). exact I.
      * unfold Custom.healthMetrics in H.
        apply in_flat_map in H as ([file hs] & _ & H).
        apply in_map_iff in H as (h & <- & _). exact I.
  - intros [<-|[]]. exact I.
Qed.

(** X8.  Every metric that [Collect] sends is made with a descriptor that
    exists (the counter's name is a key of the map) and that takes as many
    label values as [Collect] gives it; and [Describe] sends that
    descriptor, in whatever order it visits the map of counters.  This
    holds for each revision of the collector, every namespace and every set
    of constant labels. *)
Theorem Collect_metrics_described
    (extract : World -> gostring -> list gostring * error)
    (nginxClient : NginxClient) (nginxConfigPath : gostring)
    (w : World) (visit : list (gostring * prometheus.Desc)) (m : Metric) :
  visits (stubDescs namespace constLabels) visit ->
  let '(c1, d1) := Mtime.NewNginxCollector nginxClient namespace constLabels
                                          nginxConfigPath in
  let '(c2, d2) := Inline.NewNginxCollector nginxClient namespace constLabels
                                           nginxConfigPath in
  let '(c3, d3) := Custom.NewNginxCollector nginxClient namespace constLabels
                                           nginxConfigPath in
  (In m (Mtime.Collect w c1) ->
   described (Mtime.descriptorOf d1 m) (Mtime.Describe d1 visit) m) /\
  (In m (Inline.Collect w c2) ->
   described (Inline.descriptorOf d2 m) (Inline.Describe d2 visit) m) /\
  (In m (Custom.Collect extract w c3) ->
   described (Custom.descriptorOf d3 m) (Custom.Describe d3 visit) m).
Proof.
  intros Hv. cbv zeta iota beta delta
    [Mtime.NewNginxCollector Inline.NewNginxCollector Custom.NewNginxCollector].
  unfold described. repeat split.
  - intros Hm. apply Mtime_Collect_kinds in Hm.
    destruct m as [v|name t v|file t|file target v]; simpl.
    + eexists. split; [reflexivity|]. split; [reflexivity|]. left. reflexivity.
    + eexists. split; [apply stubDescs_lookup; exact Hm|].
      split; [reflexivity|]. right. apply in_or_app. left.
      apply visited_stub; assumption.
    + eexists. split; [reflexivity|]. split; [reflexivity|].
      right. apply in_or_app. right. left. reflexivity.
    + contradiction.
  - intros Hm. apply Inline_Collect_kinds in Hm.
    destruct m as [v|name t v|file t|file target v]; simpl.
    + eexists. split; [reflexivity|]. split; [reflexivity|]. left. reflexivity.
    + eexists. split; [apply stubDescs_lookup; exact Hm|].
      split; [reflexivity|]. right. apply in_or_app. left.
      apply visited_stub; assumption.
    + eexists. split; [reflexivity|]. split; [reflexivity|].
      right. apply in_or_app. right. left. reflexivity.
    + eexists. split; [reflexivity|]. split; [reflexivity|].
      right. apply in_or_app. right. right. left. reflexivity.
  - intros Hm. apply Custom_Collect_kinds in Hm.
    destruct m as [v|name t v|file t|file target v]; simpl.
    + eexists. split; [reflexivity|]. split; [reflexivity|]. left. reflexivity.
    + eexists. split; [apply stubDescs_lookup; exact Hm|].
      split; [reflexivity|]. do 3 right. apply visited_stub; assumption.
    + eexists. split; [reflexivity|]. split; [reflexivity|].
      right. left. reflexivity.
    + eexists. split; [reflexivity|]. split; [reflexivity|].
      right. right. left. reflexivity.
Qed.

Lemma app_inj_head (p x y : gostring) : p ++ x = p ++ y -> x = y.
Proof. apply app_inv_head. Qed.

(** The fully-qualified names of the eleven descriptors. *)
Lemma descriptor_names_NoDup :
  NoDup (prometheus.BuildFQName namespace [] (b "up") ::
         prometheus.BuildFQName namespace (b "config") (b "last_modified_seconds") ::
         prometheus.BuildFQName namespace (b "upstream") (b "health_check_status") ::
         map (fun name => namespace ++ b "_" ++ name) stubNames).
Proof.
  destruct namespace as [|c ns].
  - vm_compute.
    repeat (constructor;
            [rewrite list_elem_of_In; simpl; intuition discriminate|]).
    constructor.
  - assert (forall l1 l2 : list gostring, l1 = l2 -> NoDup l2 -> NoDup l1)
      as Heq by (intros l1 l2 ->; auto).
    apply (Heq _ (map (fun x => (c :: ns) ++ b "_" ++ x)
                      (b "up" :: b "config_last_modified_seconds" ::
                       b "upstream_health_check_status" :: stubNames))).
    { unfold prometheus.BuildFQName. simpl. rewrite <- ?app_assoc. reflexivity. }
    apply NoDup_fmap_2.
    + intros x y H. apply app_inv_head in H. apply app_inv_head in H. exact H.
    + vm_compute.
      repeat (constructor;
              [rewrite list_elem_of_In; simpl; intuition discriminate|]).
      constructor.
Qed.

Lemma visited_names (visit : list (gostring * prometheus.Desc)) :
  visits (stubDescs namespace constLabels) visit ->
  map prometheus.fqName (map snd visit) ≡ₚ
  map (fun name => namespace ++ b "_" ++ name) stubNames.
Proof.
  intros Hv. unfold visits in Hv. rewrite Hv, stubDescs_entries.
  rewrite !map_map. reflexivity.
Qed.

(** X9.  The descriptors that [Describe] sends have pairwise distinct
    fully-qualified names, in each revision and for every namespace, the
    empty one included (where the counters get a leading underscore and
    the other descriptors do not). *)
Theorem Describe_names_distinct
    (nginxClient : NginxClient) (nginxConfigPath : gostring)
    (visit : list (gostring * prometheus.Desc)) :
  visits (stubDescs namespace constLabels) visit ->
  NoDup (map prometheus.fqName
           (Mtime.Describe
              (snd (Mtime.NewNginxCollector nginxClient namespace constLabels
                                            nginxConfigPath)) visit)) /\
  NoDup (map prometheus.fqName
           (Inline.Describe
              (snd (Inline.NewNginxCollector nginxClient namespace constLabels
                                             nginxConfigPath)) visit)) /\
  NoDup (map prometheus.fqName
           (Custom.Describe
              (snd (Custom.NewNginxCollector nginxClient namespace constLabels
                                             nginxConfigPath)) visit)).
Proof.
  intros Hv. pose proof (visited_names visit Hv) as Hn.
  pose proof descriptor_names_NoDup as Hnd.
  set (up := prometheus.BuildFQName namespace [] (b "up")) in *.
  set (cfg := prometheus.BuildFQName namespace (b "config")
                (b "last_modified_seconds")) in *.
  set (hc := prometheus.BuildFQName namespace (b "upstream")
               (b "health_check_status")) in *.
  set (stubs := map (fun name => namespace ++ b "_" ++ name) stubNames) in *.
  assert (NoDup (up :: cfg :: hc :: map prometheus.fqName (map snd visit))) as H.
  { rewrite Hn. exact Hnd. }
  split; [|split].
  - unfold Mtime.Describe, Mtime.NewNginxCollector.
    cbn [snd Mtime.upMetric Mtime.configModDesc map]. rewrite map_app. cbn [map].
    change (NoDup (up :: map prometheus.fqName (map snd visit) ++ [cfg])).
    apply NoDup_cons in H as [Hup H]. apply NoDup_cons in H as [Hcfg H].
    apply NoDup_cons in H as [_ H].
    apply NoDup_cons. split.
    + rewrite elem_of_app, list_elem_of_singleton. rewrite !elem_of_cons in Hup.
      tauto.
    + apply NoDup_app. split; [exact H|]. split; [|apply NoDup_singleton].
      intros x Hx Hx'. apply list_elem_of_singleton in Hx'. subst x.
      rewrite elem_of_cons in Hcfg. tauto.
  - unfold Inline.Describe, Inline.NewNginxCollector.
    cbn [snd Inline.upMetric Inline.configModDesc
         Inline.upstreamHealthCheckDesc map]. rewrite map_app. cbn [map].
    change (NoDup (up :: map prometheus.fqName (map snd visit) ++ [cfg; hc])).
    rewrite (Permutation_app_comm _ [cfg; hc]). exact H.
  - unfold Custom.Describe, Custom.NewNginxCollector.
    cbn [snd Custom.upMetric Custom.configModDesc
         Custom.upstreamHealthCheckDesc map]. exact H.
Qed.

End Descriptors.

Lemma Collect_metrics_described_witness :
  let m := MUp 1 in
  let w := Sample.worldUp in
  let extract := helper.extractProxyTarget in
  let '(c1, d1) := collector.Mtime.NewNginxCollector
                     (collector.nginxClient Sample.theCollector) (b "nginx") ∅
                     Sample.nginxConf in
  let '(c2, d2) := collector.Inline.NewNginxCollector
                     (collector.nginxClient Sample.theCollector) (b "nginx") ∅
                     Sample.nginxConf in
  let '(c3, d3) := collector.Custom.NewNginxCollector
                     (collector.nginxClient Sample.theCollector) (b "nginx") ∅
                     Sample.nginxConf in
  (In m (collector.Mtime.Collect w c1) ->
   described (collector.Mtime.descriptorOf d1 m)
             (collector.Mtime.Describe d1 (literalOrder (b "nginx") ∅)) m) /\
  (In m (collector.Inline.Collect w c2) ->
   described (collector.Inline.descriptorOf d2 m)
             (collector.Inline.Describe d2 (literalOrder (b "nginx") ∅)) m) /\
  (In m (collector.Custom.Collect extract w c3) ->
   described (collector.Custom.descriptorOf d3 m)
             (collector.Custom.Describe d3 (literalOrder (b "nginx") ∅)) m).
Proof.
  apply (Collect_metrics_described (b "nginx") ∅ helper.extractProxyTarget
           (collector.nginxClient Sample.theCollector) Sample.nginxConf
           Sample.worldUp (literalOrder (b "nginx") ∅) (MUp 1)).
  unfold visits, literalOrder. symmetry. apply stubDescs_entries.
Defined.

Lemma Describe_names_distinct_witness :
  NoDup (map prometheus.fqName
           (collector.Inline.Describe
              (snd (collector.Inline.NewNginxCollector
                      (collector.nginxClient Sample.theCollector) (b "nginx") ∅
                      Sample.nginxConf)) (literalOrder (b "nginx") ∅))).
Proof.
  apply (Describe_names_distinct (b "nginx") ∅
           (collector.nginxClient Sample.theCollector) Sample.nginxConf
           (literalOrder (b "nginx") ∅)).
  unfold visits, literalOrder. symmetry. apply stubDescs_entries.
Defined.

(** ** What a cycle sends *)

Section Outputs.
Import client collector.

Variable w : World.
Variable c : NginxCollector.

Lemma helper_tcpTest_result (target : gostring) :
  fst (fst (helper.tcpTest w target)) =
  probeOutcome (wDial w (helper.dialAddress target) 3).
Proof.
  unfold helper.tcpTest. destruct (wDial w _ 3); reflexivity.
Qed.

Lemma in_success_rest (stats : StubStats) (rest : list Metric) (m : Metric) :
  fileLabel m <> None ->
  In m (MUp helper.nginxUp :: stubMetrics stats ++ rest) <-> In m rest.
Proof.
  intros Hl. split.
  - intros [<-|H]; [simpl in Hl; congruence|].
    apply in_app_or in H as [H|H]; [|exact H].
    pose proof (stubMetrics_not_up stats) as F.
    rewrite List.Forall_forall in F. destruct (F _ H). contradiction.
  - intros H. right. apply in_or_app. right. exact H.
Qed.

(** X10.  A modification-time metric is sent only for a candidate of the
    cycle, on a successful status fetch, and its value is the modification
    time that [os.Stat] reported for that path; the base name ends in
    [.conf], and in the revision that probes the file could be read. *)
Theorem modification_metric_origin (file : gostring) (t : Z) :
  (In (MConfigMod file t) (Mtime.Collect w c) <->
   statusFetched w c /\ candidate w c file /\
   exists info, wStat w file = Some info /\ fiModTime info = t /\
                Strings.HasSuffix (fiName info) (b ".conf") = true) /\
  (In (MConfigMod file t) (Inline.Collect w c) <->
   statusFetched w c /\ candidate w c file /\
   (exists info, wStat w file = Some info /\ fiModTime info = t /\
                 Strings.HasSuffix (fiName info) (b ".conf") = true) /\
   wReadFile w file <> None).
Proof.
  unfold statusFetched, candidate, Mtime.Collect, Inline.Collect.
  destruct (GetStubStats w (nginxClient c)) as [stats|e].
  - rewrite !in_success_rest by discriminate. rewrite !in_flat_map. split.
    + split.
      * intros (f & Hf & Hm). unfold Mtime.fileMetrics in Hm.
        destruct (wStat w f) as [info|] eqn:Hst; [|contradiction].
        destruct (Strings.HasSuffix _ _) eqn:Hsuf; [|contradiction].
        destruct Hm as [Hm|[]]. injection Hm as -> <-.
        rewrite Hst. eauto 10.
      * intros (_ & Hf & info & Hst & <- & Hsuf). exists file.
        split; [exact Hf|]. unfold Mtime.fileMetrics. rewrite Hst, Hsuf.
        left. reflexivity.
    + split.
      * intros (f & Hf & Hm). unfold Inline.fileMetrics in Hm.
        destruct (wStat w f) as [info|] eqn:Hst; [|contradiction].
        destruct (Strings.HasSuffix _ _) eqn:Hsuf; [|contradiction].
        unfold helper.extractProxyTarget in Hm. simpl in Hm.
        destruct (wReadFile w f) as [content|] eqn:Hrd; [|contradiction].
        apply in_app_or in Hm as [Hm|Hm].
        -- unfold Inline.healthMetrics in Hm.
           apply in_map_iff in Hm as (x & Hx & _).
           destruct (helper.tcpTest w x) as [[r e] ev]. discriminate.
        -- destruct Hm as [Hm|[]]. injection Hm as -> <-.
           rewrite Hst, Hrd. repeat split; eauto; discriminate.
      * intros (_ & Hf & (info & Hst & <- & Hsuf) & Hrd). exists file.
        split; [exact Hf|]. unfold Inline.fileMetrics. rewrite Hst, Hsuf.
        unfold helper.extractProxyTarget. simpl.
        destruct (wReadFile w file) as [content|]; [|congruence].
        apply in_or_app. right. left. reflexivity.
  - split; (split; [intros [H|[]]; discriminate | intros [[stats H] _]; discriminate]).
Qed.

(** X11.  The revision that probes sends a health metric for a file and a
    target exactly when the status fetch succeeded, the file is a candidate
    that can be statted, has a base name ending in [.conf] and can be read,
    the target is among those extracted from its text, and the value is 1
    or 0 after the outcome of dialling the target with a timeout of three
    seconds. *)
Theorem Inline_health_metric_origin (file target : gostring) (v : Z) :
  In (MHealth file target v) (Inline.Collect w c) <->
  statusFetched w c /\ candidate w c file /\
  (exists info, wStat w file = Some info /\
                Strings.HasSuffix (fiName info) (b ".conf") = true) /\
  (exists content, wReadFile w file = Some content /\
                   In target (helper.extractTargets content)) /\
  v = probeOutcome (wDial w (helper.dialAddress target) 3).
Proof.
  unfold statusFetched, candidate, Inline.Collect.
  destruct (GetStubStats w (nginxClient c)) as [stats|e].
  - rewrite in_success_rest by discriminate. rewrite in_flat_map. split.
    + intros (f & Hf & Hm). unfold Inline.fileMetrics in Hm.
      destruct (wStat w f) as [info|] eqn:Hst; [|contradiction].
      destruct (Strings.HasSuffix _ _) eqn:Hsuf; [|contradiction].
      unfold helper.extractProxyTarget in Hm. simpl in Hm.
      destruct (wReadFile w f) as [content|] eqn:Hrd; [|contradiction].
      apply in_app_or in Hm as [Hm|[Hm|[]]]; [|discriminate].
      unfold Inline.healthMetrics in Hm.
      apply in_map_iff in Hm as (x & Hx & Hin).
      pose proof (helper_tcpTest_result x) as Hr.
      destruct (helper.tcpTest w x) as [[r e] ev]. simpl in Hr.
      injection Hx as -> -> <-. rewrite Hst, Hrd. eauto 12.
    + intros (_ & Hf & (info & Hst & Hsuf) & (content & Hrd & Hin) & ->).
      exists file. split; [exact Hf|]. unfold Inline.fileMetrics.
      rewrite Hst, Hsuf. unfold helper.extractProxyTarget. simpl. rewrite Hrd.
      apply in_or_app. left. unfold Inline.healthMetrics.
      apply in_map_iff. exists target. split; [|exact Hin].
      pose proof (helper_tcpTest_result target) as Hr.
      destruct (helper.tcpTest w target) as [[r e] ev]. simpl in Hr.
      rewrite Hr. reflexivity.
  - split; [intros [H|[]]; discriminate | intros [[stats H] _]; discriminate].
Qed.

Section CustomOutputs.
Variable extract : World -> gostring -> list gostring * error.

Lemma customStats_times_inv (files : list gostring) (cs : CustomStats)
    (file : gostring) (t : Z) :
  ModifiedTimes (fold_left (customStatsStep extract w) files cs) !! file = Some t ->
  ModifiedTimes cs !! file = Some t \/
  (In file files /\ exists info, wStat w file = Some info /\ fiModTime info = t).
Proof.
  revert cs. induction files as [|f files IH]; intros cs H; simpl in H; [auto|].
  apply IH in H as [H|(Hin & H)]; [|right; split; [right; exact Hin|exact H]].
  unfold customStatsStep in H.
  destruct (wStat w f) as [info|] eqn:Hst; [|auto].
  destruct (extract w f) as [targets e]. simpl in H.
  apply lookup_insert_Some in H as [[-> <-]|[_ H]]; [|auto].
  right. split; [left; reflexivity|]. eauto.
Qed.

Lemma customStats_healths_inv (files : list gostring) (cs : CustomStats)
    (file : gostring) (hs : list UpstreamTargetHealth) :
  UpstreamHealths (fold_left (customStatsStep extract w) files cs) !! file = Some hs ->
  UpstreamHealths cs !! file = Some hs \/
  (In file files /\ wStat w file <> None /\
   hs = probeAll w (fst (extract w file))).
Proof.
  revert cs. induction files as [|f files IH]; intros cs H; simpl in H; [auto|].
  apply IH in H as [H|(Hin & H)]; [|right; split; [right; exact Hin|exact H]].
  unfold customStatsStep in H.
  destruct (wStat w f) as [info|] eqn:Hst; [|auto].
  destruct (extract w f) as [targets e] eqn:Hex. simpl in H.
  apply lookup_insert_Some in H as [[-> <-]|[_ H]]; [|auto].
  right. split; [left; reflexivity|]. rewrite Hst, Hex.
  split; [discriminate|reflexivity].
Qed.

Lemma Custom_success_rest (m : Metric) :
  fileLabel m <> None ->
  In m (Custom.Collect extract w c) <->
  statusFetched w c /\
  In m (Custom.modMetrics
          (ModifiedTimes (fold_left (customStatsStep extract w)
             (discover w (nginxConfigPath c))
             {| ModifiedTimes := ∅; UpstreamHealths := ∅ |})) ++
        Custom.healthMetrics
          (UpstreamHealths (fold_left (customStatsStep extract w)
             (discover w (nginxConfigPath c))
             {| ModifiedTimes := ∅; UpstreamHealths := ∅ |}))).
Proof.
  intros Hl. unfold statusFetched, Custom.Collect.
  destruct (GetStubStats w (nginxClient c)) as [stats|e].
  - unfold GetCustomStats. rewrite in_success_rest by exact Hl.
    split; [eauto|tauto].
  - split; [intros [<-|[]]; simpl in Hl; congruence|].
    intros [[stats H] _]. discriminate.
Qed.

Lemma in_modMetrics (m : gmap gostring Z) (file : gostring) (t : Z) :
  In (MConfigMod file t) (Custom.modMetrics m) <-> m !! file = Some t.
Proof.
  unfold Custom.modMetrics. rewrite in_map_iff. split.
  - intros ([f t'] & Heq & Hin). injection Heq as -> ->.
    apply elem_of_map_to_list, list_elem_of_In, Hin.
  - intros H. exists (file, t). split; [reflexivity|].
    apply list_elem_of_In, elem_of_map_to_list, H.
Qed.

Lemma in_healthMetrics (m : gmap gostring (list UpstreamTargetHealth))
    (file target : gostring) (v : Z) :
  In (MHealth file target v) (Custom.healthMetrics m) <->
  exists hs, m !! file = Some hs /\ In {| Target := target; Health := v |} hs.
Proof.
  unfold Custom.healthMetrics. rewrite in_flat_map. split.
  - intros ([f hs] & Hin & Hm). apply in_map_iff in Hm as ([tg h] & Heq & Hh).
    simpl in Heq. injection Heq as -> -> ->. exists hs. split; [|exact Hh].
    apply elem_of_map_to_list, list_elem_of_In, Hin.
  - intros (hs & Hl & Hh). exists (file, hs). split.
    + apply list_elem_of_In, elem_of_map_to_list, Hl.
    + apply in_map_iff. eexists. split; [|exact Hh]. reflexivity.
Qed.

(** X12.  The revision that asks the client sends a modification-time
    metric for a path exactly when the status fetch succeeded and the path
    is a candidate that can be statted; the value is the modification time
    reported.  No two such metrics have the same file label, even when the
    walk names a path twice. *)
Theorem Custom_modification_metrics :
  (forall file t,
     In (MConfigMod file t) (Custom.Collect extract w c) <->
     statusFetched w c /\ candidate w c file /\
     exists info, wStat w file = Some info /\ fiModTime info = t) /\
  NoDup (modifiedFiles (Custom.Collect extract w c)).
Proof.
  split.
  - intros file t. rewrite Custom_success_rest by discriminate.
    unfold candidate. split.
    + intros [Hok Hm]. split; [exact Hok|].
      apply in_app_or in Hm as [Hm|Hm].
      * apply in_modMetrics, customStats_times_inv in Hm as [Hm|Hm].
        -- simpl in Hm. rewrite lookup_empty in Hm. discriminate.
        -- exact Hm.
      * unfold Custom.healthMetrics in Hm.
        apply in_flat_map in Hm as ([f hs] & _ & Hm).
        apply in_map_iff in Hm as (h & Hh & _). discriminate.
    + intros (Hok & Hf & info & Hst & <-). split; [exact Hok|].
      apply in_or_app. left. apply in_modMetrics.
      apply (customStats_statted extract w _ _ file info Hf Hst).
  - unfold Custom.Collect.
    destruct (GetStubStats w (nginxClient c)) as [stats|e]; [|constructor].
    unfold GetCustomStats, modifiedFiles. simpl.
    rewrite flat_map_app.
    set (cs := fold_left _ _ _).
    assert (flat_map (fun m => match m with MConfigMod file _ => [file] | _ => [] end)
              (Custom.healthMetrics (UpstreamHealths cs)) = []) as ->.
    { unfold Custom.healthMetrics.
      induction (map_to_list (UpstreamHealths cs)) as [|[f hs] l IH]; [reflexivity|].
      simpl. rewrite flat_map_app, IH, app_nil_r.
      induction hs as [|h hs IHh]; [reflexivity|exact IHh]. }
    rewrite app_nil_r. unfold Custom.modMetrics.
    assert (forall l : list (gostring * Z),
      flat_map (fun m => match m with MConfigMod file _ => [file] | _ => [] end)
               (map (fun '(file, modTime) => MConfigMod file modTime) l) =
      map fst l) as ->.
    { induction l as [|[f t] l IH]; [reflexivity|]. simpl. rewrite IH. reflexivity. }
    change (NoDup ((map_to_list (ModifiedTimes cs)).*1)).
    apply NoDup_fst_map_to_list.
Qed.

(** X13.  The revision that asks the client sends a health metric for a
    file and a target exactly when the status fetch succeeded, the file is
    a candidate that can be statted, the target is among those the
    extractor returned for it (whether or not it also returned an error),
    and the value is 1 or 0 after the outcome of dialling the target with
    a timeout of five seconds. *)
Theorem Custom_health_metric_origin (file target : gostring) (v : Z) :
  In (MHealth file target v) (Custom.Collect extract w c) <->
  statusFetched w c /\ candidate w c file /\ wStat w file <> None /\
  In target (fst (extract w file)) /\
  v = probeOutcome (wDial w (dialAddress target) 5).
Proof.
  rewrite Custom_success_rest by discriminate. unfold candidate. split.
  - intros [Hok Hm]. split; [exact Hok|].
    apply in_app_or in Hm as [Hm|Hm].
    + unfold Custom.modMetrics in Hm.
      apply in_map_iff in Hm as ([f t] & Hm & _). discriminate.
    + apply in_healthMetrics in Hm as (hs & Hl & Hh).
      apply customStats_healths_inv in Hl as [Hl|(Hf & Hst & ->)].
      { simpl in Hl. rewrite lookup_empty in Hl. discriminate. }
      destruct (probeAll_spec w (fst (extract w file))) as [Ht Hv].
      rewrite List.Forall_forall in Hv. specialize (Hv _ Hh). simpl in Hv.
      repeat split; try assumption.
      rewrite <- Ht. apply in_map_iff. eexists. split; [|exact Hh]. reflexivity.
  - intros (Hok & Hf & Hst & Hin & ->). split; [exact Hok|].
    apply in_or_app. right. apply in_healthMetrics.
    destruct (wStat w file) as [info|] eqn:E; [|congruence].
    destruct (customStats_statted extract w (discover w (nginxConfigPath c))
                {| ModifiedTimes := ∅; UpstreamHealths := ∅ |} file info Hf E)
      as [_ H2].
    eexists. split; [exact H2|].
    destruct (probeAll_spec w (fst (extract w file))) as [Ht Hv].
    rewrite <- Ht in Hin. apply in_map_iff in Hin as ([tg h] & Heq & Hh).
    simpl in Heq. subst tg.
    rewrite List.Forall_forall in Hv. specialize (Hv _ Hh). simpl in Hv.
    rewrite <- Hv. exact Hh.
Qed.

(** X14.  Every revision of [Collect] sends the up metric exactly once, as
    the first metric of the cycle, with value 0 or 1; with value 1 the
    seven counters follow it, in the order of the code. *)
Theorem Collect_up_first :
  Forall (fun out =>
            exists v rest,
              out = MUp v :: rest /\ Forall (fun m => isUp m = false) rest /\
              (v = 0%Z /\ rest = [] \/
               v = 1%Z /\ exists stats more, rest = stubMetrics stats ++ more))
         [Mtime.Collect w c; Inline.Collect w c; Custom.Collect extract w c].
Proof.
  assert (forall rest,
    Forall (fun m => isUp m = false) rest ->
    exists v rest',
      match GetStubStats w (nginxClient c) with
      | inr _ => [MUp helper.nginxDown]
      | inl stats => MUp helper.nginxUp :: stubMetrics stats ++ rest
      end = MUp v :: rest' /\ Forall (fun m => isUp m = false) rest' /\
      (v = 0%Z /\ rest' = [] \/
       v = 1%Z /\ exists stats more, rest' = stubMetrics stats ++ more)) as H.
  { intros rest Hrest. destruct (GetStubStats w (nginxClient c)) as [stats|e].
    - do 2 eexists. split; [reflexivity|]. split; [|right; eauto].
      apply Forall_app. split; [|exact Hrest].
      eapply List.Forall_impl; [|apply stubMetrics_not_up]. intros m [Hm _]. exact Hm.
    - do 2 eexists. split; [reflexivity|]. split; [constructor|left; auto]. }
  constructor; [|constructor; [|constructor; [|constructor]]].
  - apply H, flat_map_not_up, Mtime_fileMetrics_label.
  - apply H, flat_map_not_up, Inline_fileMetrics_label.
  - unfold Custom.Collect, GetCustomStats. apply H, Forall_app.
    split; [apply Custom_modMetrics_label|apply Custom_healthMetrics_label].
Qed.

End CustomOutputs.

End Outputs.

Section Walk.
Import client collector.

Variable w : World.
Variable c : NginxCollector.

Lemma modifiedFiles_app (l1 l2 : list Metric) :
  modifiedFiles (l1 ++ l2) = modifiedFiles l1 ++ modifiedFiles l2.
Proof. apply flat_map_app. Qed.

Lemma modifiedFiles_flat_map (g : gostring -> list Metric) (files : list gostring)
    (keep : gostring -> bool) :
  (forall f, modifiedFiles (g f) = if keep f then [f] else []) ->
  modifiedFiles (flat_map g files) = List.filter keep files.
Proof.
  intros Hg. induction files as [|f files IH]; [reflexivity|].
  cbn [flat_map List.filter]. rewrite modifiedFiles_app, Hg, IH.
  destruct (keep f); reflexivity.
Qed.

Lemma Mtime_fileMetrics_modified (f : gostring) :
  modifiedFiles (Mtime.fileMetrics w f) = if kept w false f then [f] else [].
Proof.
  unfold Mtime.fileMetrics, kept. destruct (wStat w f) as [info|]; [|reflexivity].
  destruct (Strings.HasSuffix _ _); reflexivity.
Qed.

Lemma Inline_fileMetrics_modified (f : gostring) :
  modifiedFiles (Inline.fileMetrics w f) = if kept w true f then [f] else [].
Proof.
  unfold Inline.fileMetrics, kept, helper.extractProxyTarget.
  destruct (wStat w f) as [info|]; [|reflexivity].
  destruct (Strings.HasSuffix _ _); [|reflexivity]. simpl.
  destruct (wReadFile w f) as [content|]; [|reflexivity].
  rewrite modifiedFiles_app. unfold Inline.healthMetrics.
  assert (forall ts, modifiedFiles
            (map (fun target => let '(netResult, _, _) := helper.tcpTest w target in
                                MHealth f target netResult) ts) = []) as ->.
  { induction ts as [|t ts IH]; [reflexivity|]. cbn [map].
    destruct (helper.tcpTest w t) as [[r e] ev]. exact IH. }
  reflexivity.
Qed.

(** X15.  The two revisions that walk the files themselves send the
    modification-time metrics in the order of the walk, the configuration
    file first, one for each candidate that passes the checks and none for
    the others; a path that the walk names twice is sent twice. *)
Theorem Collect_modified_in_walk_order :
  modifiedFiles (Mtime.Collect w c) =
    match GetStubStats w (nginxClient c) with
    | inl _ => List.filter (kept w false) (discover w (nginxConfigPath c))
    | inr _ => []
    end /\
  modifiedFiles (Inline.Collect w c) =
    match GetStubStats w (nginxClient c) with
    | inl _ => List.filter (kept w true) (discover w (nginxConfigPath c))
    | inr _ => []
    end.
Proof.
  unfold Mtime.Collect, Inline.Collect.
  destruct (GetStubStats w (nginxClient c)) as [stats|e]; [|split; reflexivity].
  change (MUp helper.nginxUp :: stubMetrics stats ++ ?x)
    with ((MUp helper.nginxUp :: stubMetrics stats) ++ x).
  rewrite !modifiedFiles_app. split.
  - apply modifiedFiles_flat_map, Mtime_fileMetrics_modified.
  - apply modifiedFiles_flat_map, Inline_fileMetrics_modified.
Qed.

(** X16.  In every revision the up metric has value 1 exactly when the
    status request could be created, the response had status 200, its body
    could be read and the scan of the body against the template
    succeeded. *)
Theorem Collect_up_iff (extract : World -> gostring -> list gostring * error) :
  Forall (fun out =>
            In (MUp 1%Z) out <->
            wNewRequest w (apiEndpoint (nginxClient c)) = true /\
            exists body stats,
              wHttpGet w (apiEndpoint (nginxClient c)) =
                HttpResponse 200 (Some body) /\
              parseStubStats body = inl stats)
         [Mtime.Collect w c; Inline.Collect w c; Custom.Collect extract w c].
Proof.
  assert (forall rest,
    In (MUp 1%Z)
       (match GetStubStats w (nginxClient c) with
        | inr _ => [MUp helper.nginxDown]
        | inl stats => MUp helper.nginxUp :: stubMetrics stats ++ rest
        end) <->
    wNewRequest w (apiEndpoint (nginxClient c)) = true /\
    exists body stats,
      wHttpGet w (apiEndpoint (nginxClient c)) = HttpResponse 200 (Some body) /\
      parseStubStats body = inl stats) as H.
  { intros rest. unfold GetStubStats.
    destruct (wNewRequest w _); cbn [negb].
    2:{ split; [intros [H|[]]; discriminate|intros [H _]; discriminate]. }
    destruct (wHttpGet w _) as [|status body].
    { split; [intros [H|[]]; discriminate|intros (_ & ? & ? & H & _); discriminate]. }
    destruct (Z.eqb_spec status 200) as [->|Hne]; cbn [negb].
    2:{ split; [intros [H|[]]; discriminate|].
        intros (_ & ? & ? & H & _). congruence. }
    destruct body as [body|].
    2:{ split; [intros [H|[]]; discriminate|intros (_ & ? & ? & H & _); discriminate]. }
    destruct (parseStubStats body) as [stats|e] eqn:E.
    - split; [eauto 10|]. intros _. left. reflexivity.
    - split; [intros [H|[]]; discriminate|].
      intros (_ & body' & stats & H & Hp). congruence. }
  constructor; [|constructor; [|constructor; [|constructor]]]; apply H.
Qed.

End Walk.

(** ** Targets and upstream blocks *)

Section Captures.
Import Regexp.

Lemma run_Lit_inv {A} (c : ascii) (pos : nat) (s : gostring) (cs : caps)
    (k : nat -> gostring -> caps -> option A) (a : A) :
  run (Lit c) pos s cs k = Some a ->
  exists rest, s = c :: rest /\ k (S pos) rest cs = Some a.
Proof.
  simpl. destruct s as [|c' s]; [discriminate|].
  destruct (Ascii.eqb_spec c' c) as [->|]; [|discriminate]. eauto.
Qed.

Lemma run_Lits_inv {A} (l : gostring) :
  forall (pos : nat) (s : gostring) (cs : caps)
         (k : nat -> gostring -> caps -> option A) (a : A),
    run (Lits l) pos s cs k = Some a ->
    exists rest, s = l ++ rest /\ k (pos + length l) rest cs = Some a.
Proof.
  induction l as [|c l IH]; intros pos s cs k a H.
  - exists s. rewrite Nat.add_0_r. auto.
  - cbn [Lits] in H. rewrite run_Cat in H.
    apply run_Lit_inv in H as (rest & -> & H).
    apply IH in H as (rest' & -> & H). exists rest'.
    split; [reflexivity|]. rewrite <- H. f_equal. simpl. lia.
Qed.

(** A star over a class consumes characters of the class and leaves the
    captures as they are. *)
Lemma starLoop_class_inv {A} (p : ascii -> bool) (g : bool)
    (k : nat -> gostring -> caps -> option A) (a : A) :
  forall fuel pos s cs,
    starLoop (run (Class p)) g k fuel pos s cs = Some a ->
    exists u rest, s = u ++ rest /\ Forall (fun c => p c = true) u /\
                   k (pos + length u) rest cs = Some a.
Proof.
  induction fuel as [|fuel IH]; intros pos s cs H.
  - exists [], s. rewrite Nat.add_0_r. auto.
  - rewrite starLoop_S in H.
    assert (k pos s cs = Some a \/
            run (Class p) pos s cs (fun pos' s' cs' =>
              if Nat.ltb pos pos' then starLoop (run (Class p)) g k fuel pos' s' cs'
              else None) = Some a) as [Hk|Hb].
    { destruct g; apply orelse_Some in H; tauto. }
    + exists [], s. rewrite Nat.add_0_r. auto.
    + destruct s as [|c s]; [discriminate|]. rewrite run_Class_cons in Hb.
      destruct (p c) eqn:Hc; [|discriminate].
      replace (Nat.ltb pos (S pos)) with true in Hb
        by (symmetry; apply Nat.ltb_lt; lia).
      apply IH in Hb as (u & rest & -> & Hu & Hk).
      exists (c :: u), rest. split; [reflexivity|]. split; [constructor; assumption|].
      rewrite <- Hk. f_equal. simpl. lia.
Qed.

Lemma run_Star_class_inv {A} (p : ascii -> bool) (g : bool) (pos : nat)
    (s : gostring) (cs : caps) (k : nat -> gostring -> caps -> option A) (a : A) :
  run (Star g (Class p)) pos s cs k = Some a ->
  exists u rest, s = u ++ rest /\ Forall (fun c => p c = true) u /\
                 k (pos + length u) rest cs = Some a.
Proof. apply (starLoop_class_inv p g k a (S (length s))). Qed.

Lemma run_Plus_class_inv {A} (p : ascii -> bool) (pos : nat)
    (s : gostring) (cs : caps) (k : nat -> gostring -> caps -> option A) (a : A) :
  run (Plus (Class p)) pos s cs k = Some a ->
  exists u rest, s = u ++ rest /\ u <> [] /\ Forall (fun c => p c = true) u /\
                 k (pos + length u) rest cs = Some a.
Proof.
  unfold Plus. rewrite run_Cat. intros H.
  destruct s as [|c s]; [discriminate|]. rewrite run_Class_cons in H.
  destruct (p c) eqn:Hc; [|discriminate].
  apply run_Star_class_inv in H as (u & rest & -> & Hu & Hk).
  exists (c :: u), rest. split; [reflexivity|]. split; [discriminate|].
  split; [constructor; assumption|]. rewrite <- Hk. f_equal. simpl. lia.
Qed.

(** A group around a run of characters of a class captures that run. *)
Lemma run_Group_Plus_inv {A} (i : nat) (p : ascii -> bool) (pos : nat)
    (s : gostring) (cs : caps) (k : nat -> gostring -> caps -> option A) (a : A) :
  run (Group i (Plus (Class p))) pos s cs k = Some a ->
  exists u rest, s = u ++ rest /\ u <> [] /\ Forall (fun c => p c = true) u /\
                 k (pos + length u) rest ((i, u) :: cs) = Some a.
Proof.
  rewrite run_Group. intros H.
  apply run_Plus_class_inv in H as (u & rest & -> & Hn & Hu & Hk).
  rewrite firstn_consumed in Hk. eauto 10.
Qed.

Lemma run_Group_Star_inv {A} (i : nat) (g : bool) (p : ascii -> bool) (pos : nat)
    (s : gostring) (cs : caps) (k : nat -> gostring -> caps -> option A) (a : A) :
  run (Group i (Star g (Class p))) pos s cs k = Some a ->
  exists u rest, s = u ++ rest /\ Forall (fun c => p c = true) u /\
                 k (pos + length u) rest ((i, u) :: cs) = Some a.
Proof.
  rewrite run_Group. intros H.
  apply run_Star_class_inv in H as (u & rest & -> & Hu & Hk).
  rewrite firstn_consumed in Hk. eauto 10.
Qed.

(** A search that finds something ran the expression where the match
    starts. *)
Lemma search_run (r : regex) (s : gostring) :
  forall pos f, search r pos s = Some f ->
  exists pre s1 q,
    s = pre ++ s1 /\ fStart f = pos + length pre /\
    run r (fStart f) s1 [] report = Some (q, fRest f, fCaps f) /\
    fText f = firstn (q - fStart f) s1.
Proof.
  induction s as [|c s IH]; intros pos f H; simpl in H.
  - destruct (run r pos [] [] report) as [[[q s'] cs]|] eqn:E; [|discriminate].
    injection H as <-. exists [], [], q. simpl. rewrite Nat.add_0_r. auto.
  - destruct (run r pos (c :: s) [] report) as [[[q s'] cs]|] eqn:E.
    + injection H as <-. exists [], (c :: s), q. simpl.
      rewrite Nat.add_0_r. auto.
    + apply IH in H as (pre & s1 & q & -> & Hst & Hrun & Ht).
      exists (c :: pre), s1, q. simpl. repeat split; try assumption. lia.
Qed.

(** Every element of the result of [FindAllStringSubmatch] is the slice of
    a match found by a search in the text. *)
Lemma allMatches_In (r : regex) (m : list gostring) :
  forall fuel pos s prevEnd,
    In m (allMatches fuel r pos s prevEnd) ->
    exists pos' s' f, search r pos' s' = Some f /\ m = submatches r f.
Proof.
  induction fuel as [|fuel IH]; intros pos s prevEnd H; [contradiction|].
  cbn [allMatches] in H.
  destruct (search r pos s) as [f|] eqn:E; [|contradiction].
  destruct (Nat.eqb (fStart f + length (fText f)) pos).
  - assert (In m (submatches r f :: match s with
                                    | [] => []
                                    | _ :: s' =>
                                      allMatches fuel r (S pos) s'
                                        (Some (fStart f + length (fText f)))
                                    end)) as [<-|H'].
    { destruct (match prevEnd with
                | Some e => negb (Nat.eqb (fStart f) e)
                | None => true
                end); [exact H|right; exact H]. }
    + eauto.
    + destruct s as [|c s]; [contradiction|]. apply IH in H'. exact H'.
  - destruct H as [<-|H]; [eauto|]. apply IH in H. exact H.
Qed.

Lemma collectServers_In (serverMatches : list (list gostring)) (t : gostring) :
  In t (helper.collectServers serverMatches) ->
  exists m, In m serverMatches /\ 1 < length m /\ t = nth 1 m [].
Proof.
  unfold helper.collectServers.
  assert (forall acc,
    In t (fold_left (fun servers serverMatch =>
                       if Nat.ltb 1 (length serverMatch)
                       then servers ++ [nth 1 serverMatch []]
                       else servers) serverMatches acc) ->
    In t acc \/
    exists m, In m serverMatches /\ 1 < length m /\ t = nth 1 m []) as G.
  { induction serverMatches as [|m ms IH]; intros acc H; simpl in H; [auto|].
    apply IH in H as [H|(m' & Hin & Hm')].
    - destruct (Nat.ltb_spec 1 (length m)); [|auto].
      apply in_app_or in H as [H|[<-|[]]]; [auto|].
      right. exists m. split; [left; reflexivity|]. auto.
    - right. exists m'. split; [right; exact Hin|exact Hm']. }
  intros H. apply G in H as [[]|H]. exact H.
Qed.

Lemma perlSpace_stop (name rest : gostring) :
  name <> [] -> Forall (fun c => client.notSpaceBrace c = true) name ->
  stopsAt isPerlSpace (name ++ rest).
Proof.
  intros Hn Hname. destruct name as [|c name]; [congruence|].
  inversion Hname as [|? ? Hc _]. simpl. unfold client.notSpaceBrace in Hc.
  destruct (isPerlSpace c); [discriminate|reflexivity].
Qed.

(** What the server pattern matches, and what it captures. *)
Lemma run_reServer_inv (pos : nat) (s : gostring) (cs0 : caps) (q : nat)
    (s' : gostring) (cs : caps) :
  run helper.reServer pos s cs0 report = Some (q, s', cs) ->
  exists ws addr,
    s = b "server" ++ ws ++ addr ++ b ";" ++ s' /\
    ws <> [] /\ perlSpaces ws /\
    addr <> [] /\ Forall (fun c => notSemiSpace c = true) addr /\
    cs = (1, addr) :: cs0.
Proof.
  unfold helper.reServer. cbn [Cats]. rewrite run_Cat. intros H.
  apply run_Lits_inv in H as (r1 & -> & H). rewrite run_Cat in H.
  apply run_Plus_class_inv in H as (ws & r2 & -> & Hwn & Hws & H).
  rewrite run_Cat in H.
  apply run_Group_Plus_inv in H as (addr & r3 & -> & Han & Ha & H).
  apply run_Lit_inv in H as (r4 & -> & H). unfold report in H.
  injection H as _ <- <-. exists ws, addr. repeat split; assumption.
Qed.

(** What the block pattern of the client matches, and what it captures. *)
Lemma run_client_reUpstreamBlock_inv (pos : nat) (s : gostring) (q : nat)
    (s' : gostring) (cs : caps) :
  run client.reUpstreamBlock pos s [] report = Some (q, s', cs) ->
  exists ws1 name ws2 body,
    s = b "upstream" ++ ws1 ++ name ++ ws2 ++ b "{" ++ body ++ b "}" ++ s' /\
    ws1 <> [] /\ perlSpaces ws1 /\ blockName name /\ perlSpaces ws2 /\
    cs = [(2, body); (1, name)].
Proof.
  unfold client.reUpstreamBlock. cbn [Cats]. rewrite run_Cat. intros H.
  apply run_Lits_inv in H as (r1 & -> & H). rewrite run_Cat in H.
  apply run_Plus_class_inv in H as (ws1 & r2 & -> & Hwn & Hws & H).
  rewrite run_Cat in H.
  apply run_Group_Plus_inv in H as (name & r3 & -> & Hnn & Hn & H).
  rewrite run_Cat in H.
  apply run_Star_class_inv in H as (ws2 & r4 & -> & Hws2 & H).
  rewrite run_Cat in H.
  apply run_Lit_inv in H as (r5 & -> & H). rewrite run_Cat in H.
  apply run_Group_Star_inv in H as (body & r6 & -> & _ & H).
  apply run_Lit_inv in H as (r7 & -> & H). unfold report in H.
  injection H as _ <- <-. exists ws1, name, ws2, body.
  repeat split; assumption.
Qed.

End Captures.

Section Targets.
Import Regexp helper.

Lemma notSemiSpace_chars (t : gostring) :
  Forall (fun c => notSemiSpace c = true) t ->
  Forall (fun c => c <> ";"%char /\ c <> " "%char) t.
Proof.
  apply List.Forall_impl. intros c H. split; intros ->; discriminate.
Qed.

Lemma hostChar_chars (t : gostring) :
  Forall (fun c => hostChar c = true) t ->
  Forall (fun c => c <> ";"%char /\ c <> " "%char) t.
Proof.
  apply List.Forall_impl. intros c H. split; intros ->; discriminate.
Qed.

(** Every address the server pattern finds in a text. *)
Lemma FindAll_reServer_captures (body : gostring) (m : list gostring) :
  In m (FindAllStringSubmatch reServer body) ->
  exists text addr,
    m = [text; addr] /\ addr <> [] /\
    Forall (fun c => notSemiSpace c = true) addr.
Proof.
  unfold FindAllStringSubmatch. intros H.
  apply allMatches_In in H as (pos & s & f & Hf & ->).
  apply search_run in Hf as (pre & s1 & q & _ & _ & Hrun & _).
  apply run_reServer_inv in Hrun as (ws & addr & _ & _ & _ & Han & Ha & Hcs).
  exists (fText f), addr. unfold submatches. rewrite Hcs.
  split; [reflexivity|]. split; assumption.
Qed.

Lemma servers_targetText (body t : gostring) :
  In t (collectServers (FindAllStringSubmatch reServer body)) -> targetText t.
Proof.
  intros H. apply collectServers_In in H as (m & Hm & _ & ->).
  apply FindAll_reServer_captures in Hm as (text & addr & -> & Han & Ha).
  split; [exact Han|apply notSemiSpace_chars; exact Ha].
Qed.

(** X17.  Every target that [extractProxyTarget] returns can be dialled as
    it is: it is not empty and has neither a semicolon nor a space, whether
    it is the value of a directive or a server of an upstream block. *)
Theorem extractProxyTarget_targets (w : World) (filePath t : gostring) :
  In t (fst (extractProxyTarget w filePath)) -> targetText t.
Proof.
  unfold extractProxyTarget.
  destruct (wReadFile w filePath) as [content|]; [|contradiction]. simpl.
  rewrite extractTargets_flat_map. intros H.
  apply in_flat_map in H as (m & _ & H). unfold directiveTargets in H.
  destruct (Nat.ltb 1 (length m)); [|contradiction].
  set (target := cleanTarget (nth 1 m [])) in *.
  destruct (MatchString ipFormat target) eqn:Hip;
    [|destruct (MatchString domainFormat target) eqn:Hdom]; simpl in H.
  - destruct H as [<-|[]].
    destruct (addressFormat_shape target (or_introl Hip))
      as ((c & t' & -> & _) & _ & Hall).
    split; [discriminate|apply hostChar_chars; exact Hall].
  - destruct H as [<-|[]].
    destruct (addressFormat_shape target (or_intror Hdom))
      as ((c & t' & -> & _) & _ & Hall).
    split; [discriminate|apply hostChar_chars; exact Hall].
  - unfold findUpstreamServers in H.
    destruct (Nat.ltb _ 2); [contradiction|].
    apply servers_targetText in H. exact H.
Qed.

Lemma extractProxyTarget_targets_witness :
  targetText (b "10.0.0.1:80").
Proof.
  apply (extractProxyTarget_targets Sample.worldUp Sample.appConf (b "10.0.0.1:80")).
  vm_compute. left. reflexivity.
Defined.

End Targets.

Section AllUpstreams.
Import Regexp client.

Lemma fold_left_invariant {X Y} (P : Y -> Prop) (f : Y -> X -> Y) (l : list X) :
  (forall x acc, In x l -> P acc -> P (f acc x)) ->
  forall acc, P acc -> P (fold_left f l acc).
Proof.
  induction l as [|x l IH]; intros Hf acc Hacc; simpl; [exact Hacc|].
  apply IH.
  - intros y acc' Hy. apply Hf. right. exact Hy.
  - apply Hf; [left; reflexivity|exact Hacc].
Qed.

Lemma FindAll_reUpstreamBlock_captures (content : gostring) (m : list gostring) :
  In m (FindAllStringSubmatch reUpstreamBlock content) ->
  exists text name body, m = [text; name; body] /\ blockName name.
Proof.
  unfold FindAllStringSubmatch. intros H.
  apply allMatches_In in H as (pos & s & f & Hf & ->).
  apply search_run in Hf as (pre & s1 & q & _ & _ & Hrun & _).
  apply run_client_reUpstreamBlock_inv in Hrun
    as (ws1 & name & ws2 & body & _ & _ & _ & Hname & _ & Hcs).
  exists (fText f), name, body. unfold submatches. rewrite Hcs.
  split; [reflexivity|exact Hname].
Qed.

(** X18.  [findAllUpstreamServers] never returns an error, and every entry
    of its map is usable: the name is not empty and has no white space or
    brace, the list of servers is not empty, and every server is not empty
    and has neither a semicolon nor a space. *)
Theorem findAllUpstreamServers_entries (content name : gostring)
    (servers : list gostring) :
  snd (findAllUpstreamServers content) = None /\
  (fst (findAllUpstreamServers content) !! name = Some servers ->
   blockName name /\ servers <> [] /\ Forall targetText servers).
Proof.
  split; [reflexivity|]. unfold findAllUpstreamServers. simpl.
  revert name servers.
  apply (fold_left_invariant
           (fun upstreams : gmap gostring (list gostring) =>
              forall name servers, upstreams !! name = Some servers ->
              blockName name /\ servers <> [] /\ Forall targetText servers)).
  - intros m acc Hm Hacc name servers. unfold upstreamStep.
    apply FindAll_reUpstreamBlock_captures in Hm
      as (text & name' & body & -> & Hname).
    cbn [length nth Nat.ltb Nat.leb].
    destruct (collectServers _) as [|s0 servers'] eqn:Hs; [apply Hacc|].
    cbn [length Nat.ltb Nat.leb].
    intros H. apply lookup_insert_Some in H as [[<- <-]|[_ H]]; [|apply Hacc, H].
    split; [exact Hname|]. split; [discriminate|].
    apply List.Forall_forall. intros t Ht. rewrite <- Hs in Ht.
    apply (servers_targetText body). exact Ht.
  - intros name servers H. rewrite lookup_empty in H. discriminate.
Qed.

Lemma findAllUpstreamServers_entries_witness :
  snd (findAllUpstreamServers Sample.appConfText) = None /\
  (fst (findAllUpstreamServers Sample.appConfText) !! b "my_backend"
     = Some [b "10.0.0.1:80"; b "10.0.0.2:80"] ->
   blockName (b "my_backend") /\ [b "10.0.0.1:80"; b "10.0.0.2:80"] <> [] /\
   Forall targetText [b "10.0.0.1:80"; b "10.0.0.2:80"]).
Proof.
  apply (findAllUpstreamServers_entries Sample.appConfText (b "my_backend")
           [b "10.0.0.1:80"; b "10.0.0.2:80"]).
Defined.

Lemma HasPrefix_shorter (p : gostring) :
  forall s t, Strings.HasPrefix (s ++ t) p = true -> length p <= length s ->
              Strings.HasPrefix s p = true.
Proof.
  induction p as [|c p IH]; intros s t H Hlen; [reflexivity|].
  destruct s as [|d s]; [simpl in Hlen; lia|]. simpl in *.
  apply andb_prop in H as [-> H]. simpl. apply (IH s t H). lia.
Qed.

(** The word [upstream] does not overlap itself. *)
Lemma keyword_border (p2 x : gostring) :
  p2 <> [] ->
  Strings.HasPrefix (p2 ++ b "upstream" ++ x) (b "upstream") = true ->
  Strings.HasPrefix p2 (b "upstream") = true.
Proof.
  intros Hne H. destruct (Nat.le_gt_cases 8 (length p2)) as [Hl|Hl].
  - apply (HasPrefix_shorter _ _ _ H). exact Hl.
  - exfalso.
    destruct p2 as [|c1 [|c2 [|c3 [|c4 [|c5 [|c6 [|c7 [|c8 p2]]]]]]]];
      [congruence| | | | | | | |simpl in Hl; lia];
      simpl in H; rewrite ?andb_false_r in H; discriminate.
Qed.

Lemma Contains_suffix (p1 p2 x : gostring) :
  Strings.Contains p2 x = true -> Strings.Contains (p1 ++ p2) x = true.
Proof.
  intros H. induction p1 as [|c p1 IH]; [exact H|].
  simpl. rewrite IH. apply orb_true_r.
Qed.

Lemma Contains_prefix (s x : gostring) :
  Strings.HasPrefix s x = true -> Strings.Contains s x = true.
Proof. intros H. destruct s; simpl; rewrite H; reflexivity. Qed.

(** No match of the block pattern starts inside a text without the word. *)
Lemma run_block_before (pre p1 p2 x : gostring) (pos : nat) :
  Strings.Contains pre (b "upstream") = false ->
  pre = p1 ++ p2 -> p2 <> [] ->
  run reUpstreamBlock pos (p2 ++ b "upstream" ++ x) [] report = None.
Proof.
  intros Hpre E Hne.
  destruct (run reUpstreamBlock pos _ [] report) as [[[q s'] cs]|] eqn:R;
    [|reflexivity].
  exfalso. unfold reUpstreamBlock in R. cbn [Cats] in R. rewrite run_Cat in R.
  apply run_Lits_inv in R as (r1 & Hs & _).
  assert (Strings.HasPrefix (p2 ++ b "upstream" ++ x) (b "upstream") = true) as H
    by (rewrite Hs; apply HasPrefix_app).
  apply keyword_border in H; [|exact Hne].
  rewrite E, (Contains_suffix p1 p2 _ (Contains_prefix _ _ H)) in Hpre.
  discriminate.
Qed.

Lemma search_no_keyword (s : gostring) (pos : nat) :
  Strings.Contains s (b "upstream") = false ->
  search reUpstreamBlock pos s = None.
Proof.
  intros Hs. destruct (search reUpstreamBlock pos s) as [f|] eqn:E; [|reflexivity].
  exfalso. apply search_run in E as (pre & s1 & q & -> & _ & R & _).
  unfold reUpstreamBlock in R. cbn [Cats] in R. rewrite run_Cat in R.
  apply run_Lits_inv in R as (r1 & -> & _).
  rewrite Contains_app in Hs. discriminate.
Qed.

Lemma blockName_stop (name rest : gostring) :
  blockName name -> stopsAt isPerlSpace (name ++ rest).
Proof. intros [Hn Hname]. apply perlSpace_stop; assumption. Qed.

Lemma spaces_brace_stop (ws rest : gostring) :
  perlSpaces ws -> stopsAt notSpaceBrace (ws ++ b "{" ++ rest).
Proof.
  intros H. destruct ws as [|c ws]; [reflexivity|].
  inversion H as [|? ? Hc _]. simpl. unfold notSpaceBrace. rewrite Hc. reflexivity.
Qed.

(** The block pattern of the client on a plain block: it matches the block
    and captures the name and the body. *)
Lemma run_client_reUpstreamBlock (u : UpstreamText) (post : gostring) (pos : nat) :
  plainBlock u ->
  exists q,
    run reUpstreamBlock pos (blockText u ++ post) [] report =
    Some (q, post, [(2, blockBody (uEntries u) (uTrail u)); (1, uName u)]).
Proof.
  intros (_ & H1n & H1 & Hname & H2 & He & Ht). eexists.
  unfold reUpstreamBlock, blockText. cbn [Cats]. rewrite <- !app_assoc.
  rewrite run_Cat, run_Lits, run_Cat.
  apply run_Plus_class; [exact H1n|exact H1|apply blockName_stop; exact Hname|].
  rewrite run_Cat, run_Group.
  apply run_Plus_class;
    [apply Hname|apply Hname|apply spaces_brace_stop; exact H2|].
  rewrite firstn_consumed, run_Cat.
  apply run_Star_class; [exact H2|reflexivity|].
  rewrite run_Cat. simpl app.
  change (run (Lit "{") ?p ("{"%char :: ?s) ?cs ?k) with (k (S p) s cs).
  cbv beta. rewrite run_Cat, run_Group.
  match goal with
  | |- run (Star false (Class anyChar)) ?p ?s ?cs ?k = _ =>
    change (run (Star false (Class anyChar)) p s cs k)
      with (starLoop (run (Class anyChar)) false k (S (length s)) p s cs)
  end.
  apply starLoop_lazy_class.
  - apply anyChar_all.
  - rewrite length_app. lia.
  - intros b1 b2 E Hne. destruct b2 as [|c b2]; [congruence|].
    pose proof (blockBody_no_brace _ _ He Ht) as Hbody.
    rewrite E in Hbody. apply Forall_app in Hbody as [_ Hbody].
    inversion Hbody as [|? ? Hc _]; subst. simpl.
    destruct (Ascii.eqb_spec c "}"); [congruence|reflexivity].
  - rewrite firstn_consumed. simpl. reflexivity.
Qed.

Lemma search_block (u : UpstreamText) (post : gostring) (pos : nat) :
  plainBlock u ->
  exists f,
    search reUpstreamBlock pos (uPre u ++ blockText u ++ post) = Some f /\
    fStart f = pos + length (uPre u) /\ fText f = blockText u /\
    fRest f = post /\
    fCaps f = [(2, blockBody (uEntries u) (uTrail u)); (1, uName u)].
Proof.
  intros Hu. destruct (run_client_reUpstreamBlock u post (pos + length (uPre u)) Hu)
    as [q Hrun].
  assert (search reUpstreamBlock pos (uPre u ++ blockText u ++ post) =
          search reUpstreamBlock (pos + length (uPre u)) (blockText u ++ post)) as Hskip.
  { apply search_skip. intros p1 p2 E Hne. unfold blockText.
    rewrite <- !app_assoc.
    apply (run_block_before (uPre u) p1 p2); [apply Hu|exact E|exact Hne]. }
  pose proof (search_here _ _ _ _ _ _ Hrun) as Hhere.
  eexists. split; [rewrite Hskip; exact Hhere|].
  apply search_sound in Hhere as (pre' & Hs & Hst & _).
  cbn [fStart fText fRest] in Hs, Hst.
  assert (pre' = []) as -> by (destruct pre'; [reflexivity|simpl in Hst; lia]).
  rewrite app_nil_l in Hs. apply app_inv_tail in Hs.
  cbn [fStart fText fRest fCaps]. repeat split; auto.
Qed.

Lemma configText_length (blocks : list UpstreamText) (post : gostring) :
  length blocks <= length (configText blocks post).
Proof.
  induction blocks as [|u blocks IH]; [simpl; lia|].
  cbn [configText]. unfold blockText. rewrite !length_app.
  change (length (b "upstream")) with 8. cbn [length]. lia.
Qed.

(** All the matches of the block pattern in a text made of plain blocks. *)
Lemma allMatches_blocks (post : gostring) :
  Strings.Contains post (b "upstream") = false ->
  forall blocks fuel pos prevEnd,
    Forall plainBlock blocks ->
    length blocks < fuel ->
    allMatches fuel reUpstreamBlock pos (configText blocks post) prevEnd =
    map (fun u => [blockText u; uName u; blockBody (uEntries u) (uTrail u)])
        blocks.
Proof.
  intros Hpost. induction blocks as [|u blocks IH];
    intros fuel pos prevEnd Hb Hfuel.
  - apply allMatches_none, search_no_keyword, Hpost.
  - destruct fuel as [|fuel]; [lia|].
    inversion Hb as [|? ? Hu Hb']; subst.
    destruct (search_block u (configText blocks post) pos Hu)
      as (f & Hf & Hst & Htx & Hrest & Hcaps).
    cbn [allMatches configText]. rewrite Hf.
    replace (Nat.eqb (fStart f + length (fText f)) pos) with false.
    + cbn [map]. f_equal.
      * unfold submatches. rewrite Hcaps, Htx. reflexivity.
      * rewrite Hrest. apply IH; [exact Hb'|simpl in Hfuel; lia].
    + symmetry. apply Nat.eqb_neq. rewrite Htx, Hst. unfold blockText.
      rewrite length_app. change (length (b "upstream")) with 8. lia.
Qed.

Lemma upstreamStep_block (upstreams : gmap gostring (list gostring))
    (u : UpstreamText) :
  plainBlock u ->
  upstreamStep upstreams
    [blockText u; uName u; blockBody (uEntries u) (uTrail u)] =
  recorded upstreams u.
Proof.
  intros (_ & _ & _ & _ & _ & He & Ht). unfold upstreamStep, recorded.
  cbn [length nth Nat.ltb Nat.leb].
  change client.reServer with helper.reServer.
  change client.collectServers with helper.collectServers.
  unfold FindAllStringSubmatch.
  rewrite (allMatches_reServer (uTrail u) Ht (uEntries u)); [|exact He|].
  - rewrite collectServers_entries.
    destruct (uEntries u); reflexivity.
  - pose proof (blockBody_length (uEntries u) (uTrail u)). lia.
Qed.

(** X19.  [findAllUpstreamServers] reads back a text made of plain upstream
    blocks: block by block, in the order of the text, it records the
    addresses of the block's server entries under the block's name, a later
    block replacing an earlier one of the same name, and a block without
    server entries recording nothing. *)
Theorem findAllUpstreamServers_blocks (blocks : list UpstreamText)
    (post : gostring) :
  Forall plainBlock blocks ->
  Strings.Contains post (b "upstream") = false ->
  findAllUpstreamServers (configText blocks post) =
  (fold_left recorded blocks ∅, None).
Proof.
  intros Hb Hpost. unfold findAllUpstreamServers, FindAllStringSubmatch.
  rewrite (allMatches_blocks post Hpost blocks); [|exact Hb|].
  - f_equal. generalize (∅ : gmap gostring (list gostring)).
    induction Hb as [|u blocks Hu _ IH]; intros acc; [reflexivity|].
    cbn [map fold_left]. rewrite (upstreamStep_block acc u Hu). apply IH.
  - pose proof (configText_length blocks post). lia.
Qed.

(** X20.  [findUpstreamServers] of package [collector] on the same kind of
    text: asked for the name of the first block, it returns the addresses
    of that block's server entries and a nil error, also when the block
    has no server entry and whatever blocks follow. *)
Theorem findUpstreamServers_first_block (u : UpstreamText)
    (blocks : list UpstreamText) (post : gostring) :
  plainBlock u ->
  helper.findUpstreamServers (configText (u :: blocks) post) (uName u) =
  (map eAddr (uEntries u), None).
Proof.
  intros Hu. pose proof Hu as (Hpre & H1n & H1 & Hname & H2 & He & Ht).
  apply (findUpstreamServers_block (uName u) (uPre u) (uWs1 u) (uWs2 u)
           (uTrail u) (configText blocks post) (uEntries u));
    try assumption.
  - cbn [configText]. unfold blockText. rewrite <- !app_assoc. reflexivity.
  - pose proof (blockName_stop (uName u) [] Hname) as Hs.
    rewrite app_nil_r in Hs. exact Hs.
  - apply Hname.
  - intros i Hi (body & t & rest & Hskip & ws1 & ws2 & -> & _).
    cbn [configText] in Hskip. rewrite drop_app_le in Hskip by lia.
    assert (Strings.HasPrefix
              (skipn i (uPre u) ++ b "upstream" ++
               (uWs1 u ++ uName u ++ uWs2 u ++ b "{" ++
                blockBody (uEntries u) (uTrail u) ++ b "}") ++
               configText blocks post) (b "upstream") = true) as H.
    { change (Strings.HasPrefix
                (skipn i (uPre u) ++ blockText u ++ configText blocks post)
                (b "upstream") = true).
      rewrite Hskip, <- app_assoc. apply HasPrefix_app. }
    apply keyword_border in H.
    + rewrite <- (firstn_skipn i (uPre u)) in Hpre.
      rewrite (Contains_suffix _ _ _ (Contains_prefix _ _ H)) in Hpre.
      discriminate.
    + intros E. apply (f_equal (@length _)) in E.
      rewrite length_skipn in E. simpl in E. lia.
Qed.


Lemma findAllUpstreamServers_blocks_witness :
  findAllUpstreamServers
    (configText
       [ {| uPre := []; uWs1 := b " "; uName := b "my_backend"; uWs2 := b " ";
            uEntries :=
              [ {| eLead := b " "; eGap := b " "; eAddr := b "10.0.0.1:80" |};
                {| eLead := b " "; eGap := b " "; eAddr := b "10.0.0.2:80" |} ];
            uTrail := b " " |} ]
       (nl ++ b "server { location / { proxy_pass http://my_backend; } }" ++ nl)) =
  (<[b "my_backend" := [b "10.0.0.1:80"; b "10.0.0.2:80"]]> ∅, None).
Proof.
  apply (findAllUpstreamServers_blocks
           [ {| uPre := []; uWs1 := b " "; uName := b "my_backend"; uWs2 := b " ";
                uEntries :=
                  [ {| eLead := b " "; eGap := b " "; eAddr := b "10.0.0.1:80" |};
                    {| eLead := b " "; eGap := b " "; eAddr := b "10.0.0.2:80" |} ];
                uTrail := b " " |} ]).
  - constructor; [|constructor]. unfold plainBlock, blockName. simpl.
    repeat split; try discriminate; repeat constructor; simpl; discriminate.
  - vm_compute. reflexivity.
Defined.

Lemma findUpstreamServers_first_block_witness :
  helper.findUpstreamServers Sample.appConfText (b "my_backend") =
  ([b "10.0.0.1:80"; b "10.0.0.2:80"], None).
Proof.
  apply (findUpstreamServers_first_block
           {| uPre := []; uWs1 := b " "; uName := b "my_backend"; uWs2 := b " ";
              uEntries :=
                [ {| eLead := b " "; eGap := b " "; eAddr := b "10.0.0.1:80" |};
                  {| eLead := b " "; eGap := b " "; eAddr := b "10.0.0.2:80" |} ];
              uTrail := b " " |}
           []
           (nl ++ b "server { location / { proxy_pass http://my_backend; } }" ++ nl)).
  unfold plainBlock, blockName. simpl.
  repeat split; try discriminate; repeat constructor; simpl; discriminate.
Defined.

(** X21.  The address that either [tcpTest] dials always has a colon, so
    the dial never fails for a missing port; an address that was given a
    port is not given another; and the two packages dial the same address
    for the same target. *)
Theorem dialAddress_has_port (proxyTarget : gostring) :
  In ":"%char (helper.dialAddress proxyTarget) /\
  helper.dialAddress (helper.dialAddress proxyTarget) =
    helper.dialAddress proxyTarget /\
  dialAddress proxyTarget = helper.dialAddress proxyTarget.
Proof.
  assert (In ":"%char (helper.dialAddress proxyTarget)) as H.
  { unfold helper.dialAddress.
    destruct (Strings.Contains proxyTarget (b ":")) eqn:E; simpl.
    - apply Contains_char. exact E.
    - apply in_or_app. right. left. reflexivity. }
  split; [exact H|]. split; [|reflexivity].
  apply (Contains_char ":"%char) in H. change [":"%char] with (b ":") in H.
  unfold helper.dialAddress at 1. rewrite H. reflexivity.
Qed.

End AllUpstreams.

(** ** The status page, read back *)

Section Page.
Import client.

Ltac each_byte c :=
  destruct c as [[|] [|] [|] [|] [|] [|] [|] [|]];
  try discriminate; try reflexivity.

Lemma ParseInt_int64 (tok : gostring) (v : Z) :
  Fmt.ParseInt tok = Some v -> int64 v.
Proof.
  unfold Fmt.ParseInt, int64.
  destruct (match tok with
            | [] => (false, [])
            | c :: tok' =>
              if Ascii.eqb c "+" then (false, tok')
              else if Ascii.eqb c "-" then (true, tok') else (false, tok)
            end) as [neg digits].
  destruct digits as [|d digits]; [discriminate|].
  destruct (Fmt.parseDigits (d :: digits) 0) as [un|]; [|discriminate].
  destruct ((- 2 ^ 63 <=? (if neg then - un else un))%Z &&
            ((if neg then - un else un) <=? 2 ^ 63 - 1)%Z) eqn:E; [|discriminate].
  intros H. injection H as <-. apply andb_prop in E as [E1 E2].
  apply Z.leb_le in E1, E2. split; assumption.
Qed.

Lemma conformsFrom_int64 (items : list Item) :
  forall s acc r, conformsFrom items s acc r -> Forall int64 acc -> Forall int64 r.
Proof.
  induction items as [|item items IH]; intros s acc r H Hacc.
  - simpl in H. subst r. exact Hacc.
  - destruct item; simpl in H.
    + destruct H as (s' & _ & H). exact (IH _ _ _ H Hacc).
    + destruct H as (B & s' & _ & _ & _ & H). exact (IH _ _ _ H Hacc).
    + destruct H as (B & tok & s' & v & _ & _ & Hp & H).
      apply (IH _ _ _ H). apply Forall_app. split; [exact Hacc|].
      constructor; [|constructor]. apply (ParseInt_int64 tok). exact Hp.
    + destruct H as (B & s' & _ & _ & H). exact (IH _ _ _ H Hacc).
    + destruct H as (B & _ & _ & H). exact (IH _ _ _ H Hacc).
Qed.

(** X22.  Every counter that [GetStubStats] returns is within the range of
    an [int64]: a number on the page outside that range makes the call
    fail. *)
Theorem GetStubStats_counters_int64 (w : World) (c : NginxClient)
    (stats : StubStats) :
  GetStubStats w c = inl stats -> Forall int64 (counters stats).
Proof.
  intros H. apply GetStubStats_success in H as (body & _ & H).
  apply parseStubStats_vals, Fscanf_template in H.
  apply (conformsFrom_int64 _ _ _ _ H). constructor.
Qed.

Lemma GetStubStats_counters_int64_witness :
  Forall int64 [291; 16630948; 16630949; 31070465; 6; 179; 106]%Z.
Proof.
  apply (GetStubStats_counters_int64 Sample.worldUp
           (collector.nginxClient Sample.theCollector)
           {| Connections := {| Active := 291; Accepted := 16630948;
                                Handled := 16630949; Reading := 6;
                                Writing := 179; Waiting := 106 |};
              Requests := 31070465 |}).
  vm_compute. reflexivity.
Defined.

(** *** Running the scanner on a page *)

Lemma advance_plain (n : nat) (c : ascii) (fmt s : gostring) :
  plainChar c = true ->
  Fmt.advance (S n) (c :: fmt) (c :: s) = Fmt.advance n fmt s.
Proof.
  unfold plainChar. intros H. apply andb_prop in H as [H1 H2].
  cbn [Fmt.advance]. destruct (Fmt.isSpaceByte c); [discriminate|].
  destruct (Ascii.eqb c "%"); [discriminate|].
  rewrite Ascii.eqb_refl. reflexivity.
Qed.

Lemma alnum_not_newline (c : ascii) :
  Regexp.isAlnum c = true ->
  Fmt.isNewline c = false /\ Ascii.eqb c "013" = false.
Proof. intros H. split; each_byte c. Qed.

Lemma skipBlanks_alnum (fuel : nat) (c : ascii) (s : gostring) :
  Regexp.isAlnum c = true -> Fmt.skipBlanks fuel (c :: s) = c :: s.
Proof.
  intros H. destruct fuel; [reflexivity|]. cbn [Fmt.skipBlanks].
  rewrite (proj1 (alnum_not_newline c H)), (spaceWidth_alnum c s H). reflexivity.
Qed.

Lemma spaceWidth_space (s : gostring) : Strings.spaceWidth (" "%char :: s) = Some 1.
Proof. reflexivity. Qed.

Lemma advance_space (n : nat) (f : ascii) (fmt : gostring) (c : ascii)
    (s : gostring) :
  Fmt.isSpaceByte f = false -> Regexp.isAlnum c = true ->
  Fmt.advance (S n) (" "%char :: f :: fmt) (" "%char :: c :: s) =
  Fmt.advance n (f :: fmt) (c :: s).
Proof.
  intros Hf Hc. cbn [Fmt.advance].
  change (Fmt.isSpaceByte " ") with true. cbv iota.
  cbn [Fmt.spaceRun]. change (Fmt.isSpaceByte " ") with true.
  change (Fmt.isNewline " ") with false. cbv iota. rewrite Hf.
  cbn [Fmt.matchNewlines]. unfold Fmt.matchTrailingSpace.
  change (Nat.eqb 0 0) with true. cbv iota.
  rewrite spaceWidth_space. change (Fmt.isNewline " ") with false. cbv iota.
  cbn [length]. rewrite (skipBlanks_cons _ " "%char _ 1 eq_refl (spaceWidth_space _)).
  cbn [skipn]. rewrite skipBlanks_alnum by exact Hc. reflexivity.
Qed.

Lemma skipBlanks_pad (pad : gostring) (s : gostring) :
  spaces pad ->
  forall fuel, length pad <= fuel ->
  Fmt.skipBlanks fuel (pad ++ "010"%char :: s) = "010"%char :: s.
Proof.
  induction 1 as [|c pad -> _ IH]; intros fuel Hf.
  - destruct fuel; reflexivity.
  - destruct fuel as [|fuel]; [simpl in Hf; lia|].
    cbn [app]. rewrite (skipBlanks_cons _ " "%char _ 1 eq_refl (spaceWidth_space _)).
    cbn [skipn]. apply IH. simpl in Hf. lia.
Qed.

Lemma advance_newline (n : nat) (fmt pad s : gostring) :
  Fmt.spaceRun ("010"%char :: fmt) 0 false = (1, false, fmt) ->
  spaces pad ->
  Fmt.advance (S n) ("010"%char :: fmt) (pad ++ "010"%char :: s) =
  Fmt.advance n fmt s.
Proof.
  intros Hrun Hpad. cbn [Fmt.advance].
  change (Fmt.isSpaceByte "010") with true. cbv iota. rewrite Hrun.
  cbn [Fmt.matchNewlines]. unfold Fmt.matchNewline.
  rewrite (skipBlanks_pad pad s Hpad) by (rewrite length_app; lia).
  change (Fmt.isNewline "010") with true. reflexivity.
Qed.

Lemma advance_newline0 (n : nat) (fmt s : gostring) :
  Fmt.spaceRun ("010"%char :: fmt) 0 false = (1, false, fmt) ->
  Fmt.advance (S n) ("010"%char :: fmt) ("010"%char :: s) =
  Fmt.advance n fmt s.
Proof. intros H. apply (advance_newline n fmt [] s H). constructor. Qed.

Lemma advance_verb (n : nat) (rest s : gostring) :
  Fmt.advance (S n) ("%"%char :: "d"%char :: rest) s =
  Fmt.AdvTo ("%"%char :: "d"%char :: rest) s.
Proof. reflexivity. Qed.

Lemma advance_nil (n : nat) (s : gostring) : Fmt.advance n [] s = Fmt.AdvTo [] s.
Proof. destruct n; reflexivity. Qed.

Lemma doScanf_text (fuel : nat) (c : ascii) (fmt s : gostring) (nargs : nat)
    (vals : list Z) (f' s' : gostring) :
  Fmt.advance (S (length fmt)) (c :: fmt) s = Fmt.AdvTo f' s' ->
  length f' < S (length fmt) ->
  Fmt.doScanf (S fuel) (c :: fmt) s nargs vals = Fmt.doScanf fuel f' s' nargs vals.
Proof.
  intros H Hlt. cbn [Fmt.doScanf].
  change (length (c :: fmt)) with (S (length fmt)). rewrite H.
  apply Nat.ltb_lt in Hlt. rewrite Hlt. reflexivity.
Qed.

Lemma doScanf_verb (fuel : nat) (rest s : gostring) (nargs : nat)
    (vals : list Z) (s1 : gostring) (v : Z) (s2 : gostring) :
  Fmt.SkipSpace (length s) s = Some s1 ->
  Fmt.scanInt s1 = Some (v, s2) ->
  length vals < nargs ->
  Fmt.doScanf (S fuel) ("%"%char :: "d"%char :: rest) s nargs vals =
  Fmt.doScanf fuel rest s2 nargs (vals ++ [v]).
Proof.
  intros H1 H2 Hlt. cbn [Fmt.doScanf].
  change (length ("%"%char :: "d"%char :: rest)) with (S (S (length rest))).
  rewrite advance_verb. cbn [length]. rewrite Nat.ltb_irrefl.
  change (Ascii.eqb "d" "d") with true. cbv iota. rewrite H1.
  replace (Nat.leb nargs (length vals)) with false
    by (symmetry; apply Nat.leb_gt; exact Hlt).
  rewrite H2. reflexivity.
Qed.

Lemma SkipSpace_alnum (fuel : nat) (d : ascii) (t : gostring) :
  Regexp.isAlnum d = true -> Fmt.SkipSpace fuel (d :: t) = Some (d :: t).
Proof.
  intros H. destruct fuel; [reflexivity|]. cbn [Fmt.SkipSpace].
  destruct (alnum_not_newline d H) as [H1 H2]. rewrite H1, H2.
  cbn [andb]. rewrite (spaceWidth_alnum d t H). reflexivity.
Qed.

Lemma SkipSpace_pad (pad : gostring) (d : ascii) (t : gostring) :
  spaces pad -> Regexp.isAlnum d = true ->
  forall fuel, length pad <= fuel ->
  Fmt.SkipSpace fuel (pad ++ d :: t) = Some (d :: t).
Proof.
  intros Hpad Hd. induction Hpad as [|c pad -> _ IH]; intros fuel Hf.
  - apply SkipSpace_alnum. exact Hd.
  - destruct fuel as [|fuel]; [simpl in Hf; lia|].
    cbn [app Fmt.SkipSpace]. change (Ascii.eqb " " "013") with false.
    cbn [andb]. change (Fmt.isNewline " ") with false. cbv iota.
    rewrite spaceWidth_space. cbn [skipn]. apply IH. simpl in Hf. lia.
Qed.

Lemma numberEnds_pad (pad s : gostring) :
  spaces pad -> numberEnds (pad ++ "010"%char :: s).
Proof. intros [|c pad' -> _]; reflexivity. Qed.

Lemma acceptRun_digits (ds rest : gostring) :
  Forall (fun c => Regexp.isDigit c = true) ds -> numberEnds rest ->
  Fmt.acceptRun Fmt.isDecimalDigit (ds ++ rest) = (ds, rest).
Proof.
  intros Hds Hrest. induction Hds as [|c ds Hc _ IH].
  - destruct rest as [|c rest]; [reflexivity|]. simpl in *. rewrite Hrest.
    reflexivity.
  - cbn [app Fmt.acceptRun]. unfold Fmt.isDecimalDigit at 1. rewrite Hc.
    cbn [orb]. rewrite IH. reflexivity.
Qed.

Lemma digit_not_sign (d : ascii) :
  Regexp.isDigit d = true ->
  Ascii.eqb d "+" = false /\ Ascii.eqb d "-" = false.
Proof. intros H. split; each_byte d. Qed.

Lemma scanInt_digits (d : ascii) (ds rest : gostring) (v : Z) :
  Regexp.isDigit d = true ->
  Forall (fun c => Regexp.isDigit c = true) ds ->
  numberEnds rest ->
  Fmt.ParseInt (d :: ds) = Some v ->
  Fmt.scanInt (d :: ds ++ rest) = Some (v, rest).
Proof.
  intros Hd Hds Hrest Hp. unfold Fmt.scanInt.
  rewrite SkipSpace_alnum by (apply isDigit_isAlnum; exact Hd).
  unfold Fmt.isSign. destruct (digit_not_sign d Hd) as [-> ->]. cbn [orb].
  unfold Fmt.isDecimalDigit at 1. rewrite Hd. cbn [orb].
  change (d :: ds ++ rest) with ((d :: ds) ++ rest).
  rewrite acceptRun_digits by (try constructor; assumption).
  cbn [app]. rewrite Hp. reflexivity.
Qed.

(** *** Decimal numbers *)

Lemma digitChar_spec (d : Z) :
  (0 <= d <= 9)%Z ->
  Regexp.isDigit (digitChar d) = true /\
  (Z.of_N (Strings.byte (digitChar d)) - 48 = d)%Z.
Proof.
  intros H.
  assert (d = 0 \/ d = 1 \/ d = 2 \/ d = 3 \/ d = 4 \/ d = 5 \/ d = 6 \/
          d = 7 \/ d = 8 \/ d = 9)%Z as Hd by lia.
  repeat (destruct Hd as [->|Hd]; [split; reflexivity|]).
  subst d. split; reflexivity.
Qed.

Lemma parseDigits_snoc (l : gostring) (c : ascii) :
  forall acc,
    Fmt.parseDigits (l ++ [c]) acc =
    match Fmt.parseDigits l acc with
    | Some v =>
      if Regexp.isDigit c
      then Some (10 * v + (Z.of_N (Strings.byte c) - 48))%Z else None
    | None => None
    end.
Proof.
  induction l as [|x l IH]; intros acc.
  - simpl. destruct (Regexp.isDigit c); reflexivity.
  - cbn [app Fmt.parseDigits]. destruct (Regexp.isDigit x); [apply IH|reflexivity].
Qed.

Lemma digitsRev_spec (fuel : nat) :
  forall n, (0 <= n < 10 ^ Z.of_nat (S fuel))%Z ->
  rev (digitsRev (S fuel) n) <> [] /\
  Forall (fun c => Regexp.isDigit c = true) (rev (digitsRev (S fuel) n)) /\
  Fmt.parseDigits (rev (digitsRev (S fuel) n)) 0 = Some n.
Proof.
  induction fuel as [|fuel IH]; intros n Hn.
  - change (10 ^ Z.of_nat 1)%Z with 10%Z in Hn.
    assert (n / 10 = 0)%Z as Hq by (apply Z.div_small; lia).
    assert (n mod 10 = n)%Z as Hr by (apply Z.mod_small; lia).
    cbn [digitsRev]. rewrite Hq, Hr. cbn [Z.eqb rev app].
    destruct (digitChar_spec n) as [H1 H2]; [lia|].
    split; [discriminate|]. split; [constructor; [exact H1|constructor]|].
    cbn [Fmt.parseDigits]. rewrite H1, H2. reflexivity.
  - assert (10 ^ Z.of_nat (S (S fuel)) = 10 * 10 ^ Z.of_nat (S fuel))%Z as Hpow
      by (rewrite (Nat2Z.inj_succ (S fuel)), Z.pow_succ_r by lia; reflexivity).
    pose proof (Z.div_mod n 10 ltac:(lia)) as Hdm.
    pose proof (Z.mod_pos_bound n 10 ltac:(lia)) as Hm.
    destruct (digitChar_spec (n mod 10) ltac:(lia)) as [H1 H2].
    change (digitsRev (S (S fuel)) n)
      with (digitChar (n mod 10) ::
            (if (n / 10 =? 0)%Z then [] else digitsRev (S fuel) (n / 10))).
    destruct (Z.eqb_spec (n / 10) 0) as [Hq|Hq].
    + cbn [rev app]. split; [discriminate|].
      split; [constructor; [exact H1|constructor]|].
      cbn [Fmt.parseDigits]. rewrite H1, H2. f_equal. lia.
    + destruct (IH (n / 10)%Z) as (_ & Hall & Hparse).
      { split; [apply Z.div_pos; lia|].
        apply Z.div_lt_upper_bound; lia. }
      cbn [rev]. split; [intros E; apply app_eq_nil in E as [_ E]; discriminate|].
      split; [apply Forall_app; split; [exact Hall|constructor; [exact H1|constructor]]|].
      rewrite parseDigits_snoc, Hparse, H1, H2. f_equal. lia.
Qed.

Lemma decimal_spec (n : Z) :
  (0 <= n < 2 ^ 63)%Z ->
  exists d ds,
    decimal n = d :: ds /\ Regexp.isDigit d = true /\
    Forall (fun c => Regexp.isDigit c = true) ds /\
    Fmt.ParseInt (d :: ds) = Some n.
Proof.
  intros Hn. unfold decimal.
  assert (2 ^ 63 < 10 ^ Z.of_nat 19)%Z as Hlt by reflexivity.
  destruct (digitsRev_spec 18 n ltac:(lia)) as (Hne & Hall & Hparse).
  destruct (rev (digitsRev 19 n)) as [|d ds]; [congruence|].
  exists d, ds. inversion Hall as [|? ? Hd Hds]; subst.
  split; [reflexivity|]. split; [exact Hd|]. split; [exact Hds|].
  unfold Fmt.ParseInt. destruct (digit_not_sign d Hd) as [-> ->].
  rewrite Hparse.
  replace ((- 2 ^ 63 <=? n)%Z && (n <=? 2 ^ 63 - 1)%Z) with true; [reflexivity|].
  symmetry. apply andb_true_intro. split; apply Z.leb_le; lia.
Qed.

Ltac adv :=
  repeat first
    [ rewrite advance_plain by reflexivity
    | rewrite advance_space
        by first [reflexivity | apply isDigit_isAlnum; assumption]
    | rewrite advance_newline by first [reflexivity | assumption]
    | rewrite advance_newline0 by reflexivity
    | rewrite advance_verb
    | rewrite advance_nil ].

Ltac text_step :=
  erewrite doScanf_text; [ | cbn [length]; adv; reflexivity | cbn [length]; lia ].

Ltac verb_step :=
  erewrite doScanf_verb;
  [ | first [ apply SkipSpace_alnum; apply isDigit_isAlnum; assumption
            | apply SkipSpace_pad;
              [assumption | apply isDigit_isAlnum; assumption
              | rewrite length_app; lia ] ]
    | apply scanInt_digits;
      [ assumption | assumption
      | first [ apply numberEnds_pad; assumption | reflexivity ]
      | eassumption ]
    | cbn [length app]; lia ].

(** The scanner on the page of a status. *)
Lemma Fscanf_statusPage (pad : gostring) (stats : StubStats) :
  spaces pad ->
  Forall (fun v => (0 <= v < 2 ^ 63)%Z) (counters stats) ->
  Fmt.Fscanf (statusPage pad stats) templateMetrics 7 = Some (counters stats).
Proof.
  intros Hpad Hc. destruct stats as [[v1 v2 v3 v5 v6 v7] v4].
  unfold counters, statusPage in *.
  cbn [Connections Requests Active Accepted Handled Reading Writing Waiting] in *.
  inversion Hc as [|? ? R1 Hc1]; subst. inversion Hc1 as [|? ? R2 Hc2]; subst.
  inversion Hc2 as [|? ? R3 Hc3]; subst. inversion Hc3 as [|? ? R4 Hc4]; subst.
  inversion Hc4 as [|? ? R5 Hc5]; subst. inversion Hc5 as [|? ? R6 Hc6]; subst.
  inversion Hc6 as [|? ? R7 _]; subst. clear Hc Hc1 Hc2 Hc3 Hc4 Hc5 Hc6.
  destruct (decimal_spec v1 R1) as (d1 & ds1 & -> & D1 & A1 & P1).
  destruct (decimal_spec v2 R2) as (d2 & ds2 & -> & D2 & A2 & P2).
  destruct (decimal_spec v3 R3) as (d3 & ds3 & -> & D3 & A3 & P3).
  destruct (decimal_spec v4 R4) as (d4 & ds4 & -> & D4 & A4 & P4).
  destruct (decimal_spec v5 R5) as (d5 & ds5 & -> & D5 & A5 & P5).
  destruct (decimal_spec v6 R6) as (d6 & ds6 & -> & D6 & A6 & P6).
  destruct (decimal_spec v7 R7) as (d7 & ds7 & -> & D7 & A7 & P7).
  unfold Fmt.Fscanf.
  let t := eval vm_compute in templateMetrics in change templateMetrics with t.
  cbn [length]. unfold nl. cbn [app b list_ascii_of_string].
  text_step. verb_step.
  text_step. verb_step.
  text_step. verb_step.
  text_step. verb_step.
  text_step. verb_step.
  text_step. verb_step.
  text_step. verb_step.
  text_step.
  reflexivity.
Qed.

(** X23.  [GetStubStats] reads back the page that [stub_status] serves:
    when the response has status 200 and its body is the page of some
    counters, each below 2^63, with any run of spaces where nginx puts its
    padding, the call returns exactly those counters. *)
Theorem GetStubStats_statusPage (w : World) (c : NginxClient)
    (pad : gostring) (stats : StubStats) :
  wNewRequest w (apiEndpoint c) = true ->
  wHttpGet w (apiEndpoint c) = HttpResponse 200 (Some (statusPage pad stats)) ->
  spaces pad ->
  Forall (fun v => (0 <= v < 2 ^ 63)%Z) (counters stats) ->
  GetStubStats w c = inl stats.
Proof.
  intros Hreq Hget Hpad Hc. unfold GetStubStats. rewrite Hreq, Hget.
  cbn [negb Z.eqb Pos.eqb]. unfold parseStubStats.
  rewrite (Fscanf_statusPage pad stats Hpad Hc).
  destruct stats as [[v1 v2 v3 v5 v6 v7] v4]. reflexivity.
Qed.

Lemma GetStubStats_statusPage_witness :
  GetStubStats Sample.worldUp (collector.nginxClient Sample.theCollector) =
  inl {| Connections := {| Active := 291; Accepted := 16630948;
                           Handled := 16630949; Reading := 6;
                           Writing := 179; Waiting := 106 |};
         Requests := 31070465 |}.
Proof.
  apply (GetStubStats_statusPage Sample.worldUp
           (collector.nginxClient Sample.theCollector) (b " ")).
  - reflexivity.
  - vm_compute. reflexivity.
  - repeat constructor.
  - repeat constructor; vm_compute; congruence.
Defined.

End Page.

(** ** Progress of concurrent invocations *)

Section Progress.
Import Threads.

Variable outs : nat -> list Metric.



(** X25.  The mutex never blocks the collector for good: under every
    schedule, as long as some invocation of [Collect] has not finished,
    some invocation can take its next step.  The mutex is locked exactly
    while an invocation is between its lock and its unlock, so it is free
    whenever every invocation has finished or not yet begun, also after an
    early return. *)
Theorem Collect_no_deadlock (schedule : list nat) :
  let st := run schedule (start (programOf outs)) in
  (forall i, pending st i <> [] -> exists j a, canStep st j a) /\
  (locked st = true <-> exists i, inside st i).
Proof.
  pose proof (invariant_run outs schedule _ (invariant_start outs)) as Inv.
  cbv zeta. set (st := run schedule (start (programOf outs))) in *.
  assert (forall j a rest, pending st j = a :: rest ->
                           (a = ALock -> locked st = false) ->
                           canStep st j a) as Hstep.
  { intros j a rest Hp Hl. unfold canStep, step. rewrite Hp.
    destruct a; try reflexivity. rewrite Hl by reflexivity. reflexivity. }
  split.
  - intros i Hi. destruct (locked st) eqn:L.
    + destruct (inv_holder _ _ Inv L) as [j Hj]. unfold inside in Hj.
      destruct (pending st j) as [|a rest] eqn:Hp; [contradiction|].
      exists j, a. apply (Hstep j a rest Hp). intros ->. contradiction.
    + destruct (pending st i) as [|a rest] eqn:Hp; [congruence|].
      exists i, a. apply (Hstep i a rest Hp). intros _. reflexivity.
  - split; [apply (inv_holder _ _ Inv)|].
    intros [i Hi]. apply (inv_locked _ _ Inv i Hi).
Qed.

End Progress.

(** ** The request sent on *)

Section Requests.
Import exporter.

Lemma cloning_step (h : heap) (src : gmap gostring nat) (m : nat)
    (done : list (gostring * nat)) (hc : heap) (key : gostring) (l : nat) :
  h !! m = None ->
  (exists vs, h !! l = Some (Values vs)) ->
  (forall l', ~ In (key, l') done) ->
  cloning h src m done hc ->
  cloning h src m (done ++ [(key, l)]) (cloneStep m hc (key, l)).
Proof.
  intros Hm [vs Hl] Hnew [Hframe (entries & Hmap & Hentries)].
  unfold cloneStep, alloc. cbv beta iota zeta. cbn [fst snd].
  assert (hc !! fresh (dom hc) = None) as Hfresh
    by (apply not_elem_of_dom, is_fresh).
  set (nl := fresh (dom hc)) in *.
  assert (nl <> m) as Hnm by congruence.
  assert (valuesAt hc l = valuesAt h l) as Hvals.
  { unfold valuesAt. rewrite (Hframe _ _ Hl), Hl. reflexivity. }
  assert (entriesAt (<[nl:=Values (valuesAt hc l)]> hc) m = entries) as ->.
  { unfold entriesAt. rewrite lookup_insert_ne by exact Hnm. rewrite Hmap.
    reflexivity. }
  split.
  - intros l0 o Ho.
    assert (l0 <> m) by congruence.
    assert (l0 <> nl) by (pose proof (Hframe _ _ Ho); congruence).
    rewrite !lookup_insert_ne by congruence. apply Hframe, Ho.
  - eexists. split; [apply lookup_insert_eq|]. intros key'.
    destruct (decide (key' = key)) as [->|Hk].
    + rewrite lookup_insert_eq. split.
      * destruct (h !! nl) as [o|] eqn:Eo; [|reflexivity].
        apply Hframe in Eo. congruence.
      * exists l. split; [apply in_or_app; right; left; reflexivity|].
        rewrite lookup_insert_ne by congruence.
        rewrite lookup_insert_eq, Hvals. reflexivity.
    + rewrite lookup_insert_ne by congruence.
      specialize (Hentries key').
      destruct (entries !! key') as [nl'|].
      * destruct Hentries as (Hn & l' & Hin & Hv). split; [exact Hn|].
        exists l'. split; [apply in_or_app; left; exact Hin|].
        assert (nl' <> m) by congruence. assert (nl' <> nl) by congruence.
        rewrite !lookup_insert_ne by congruence. exact Hv.
      * intros l' Hin. apply in_app_or in Hin as [Hin|[Hin|[]]].
        -- exact (Hentries l' Hin).
        -- congruence.
Qed.

Lemma cloning_fold (h : heap) (src : gmap gostring nat) (m : nat) :
  h !! m = None ->
  forall todo done hc,
    (forall key l, In (key, l) todo -> exists vs, h !! l = Some (Values vs)) ->
    NoDup (map fst (done ++ todo)) ->
    cloning h src m done hc ->
    cloning h src m (done ++ todo) (fold_left (cloneStep m) todo hc).
Proof.
  intros Hm. induction todo as [|[key l] todo IH]; intros done hc Hwf Hnd Hc.
  - rewrite app_nil_r. exact Hc.
  - cbn [fold_left].
    replace (done ++ (key, l) :: todo) with ((done ++ [(key, l)]) ++ todo)
      by (rewrite <- app_assoc; reflexivity).
    apply IH.
    + intros key' l' Hin. apply (Hwf key' l'). right. exact Hin.
    + rewrite <- app_assoc. exact Hnd.
    + apply cloning_step; [exact Hm|apply (Hwf key l); left; reflexivity| |exact Hc].
      intros l' Hin. rewrite map_app in Hnd. simpl in Hnd.
      apply NoDup_ListNoDup in Hnd. apply List.NoDup_remove_2 in Hnd.
      apply Hnd. apply in_or_app. left.
      apply in_map_iff. exists (key, l'). split; [reflexivity|exact Hin].
Qed.

(** X26.  [userAgentRoundTripper.RoundTrip] leaves the caller's request as
    it is.  For a request whose header is a map with allocated slices, the
    inner round tripper is called on a heap in which every cell that
    existed before holds what it held, with a request whose header map and
    slices are all new, whose header gives [User-Agent] the one value
    [agent] and every other key the values it has in the original, and
    whose other fields are those of the original; its response is passed
    on and its error answered with an error. *)
Theorem RoundTrip_leaves_request
    (inner : heap -> Request -> heap * option nat)
    (agent : gostring) (visit : list (gostring * nat))
    (h : heap) (req : Request) :
  wellFormed h req ->
  visit ≡ₚ map_to_list (entriesAt h (Header req)) ->
  exists h2 req',
    outgoing agent visit h req = (h2, req') /\
    RoundTrip inner agent visit h req =
      (let (h3, response) := inner h2 req' in
       (h3, response,
        match response with
        | Some _ => None
        | None => Some (b "round trip failed")
        end)) /\
    (forall l o, h !! l = Some o -> h2 !! l = Some o) /\
    h !! Header req' = None /\
    (forall key l, entriesAt h2 (Header req') !! key = Some l -> h !! l = None) /\
    (forall key,
       headerValues h2 (Header req') key =
       if decide (key = b "User-Agent") then Some [agent]
       else headerValues h (Header req) key) /\
    otherFields req' = otherFields req.
Proof.
  intros [[src Hsrc] Hslices] Hvisit.
  assert (entriesAt h (Header req) = src) as Hsrc'
    by (unfold entriesAt; rewrite Hsrc; reflexivity).
  rewrite Hsrc' in *.
  unfold RoundTrip, outgoing, cloneRequest, alloc. cbv beta iota zeta.
  assert (h !! fresh (dom h) = None) as Hm by (apply not_elem_of_dom, is_fresh).
  set (m := fresh (dom h)) in *.
  set (hc := fold_left (cloneStep m) visit (<[m:=HeaderMap ∅]> h)).
  assert (forall key l, In (key, l) visit <-> src !! key = Some l) as Hin.
  { intros key l. rewrite <- list_elem_of_In, Hvisit. apply elem_of_map_to_list. }
  assert (cloning h src m visit hc) as [Hframe (entries & Hmap & Hentries)].
  { apply (cloning_fold h src m Hm visit [] (<[m:=HeaderMap ∅]> h)).
    - intros key l Hkl. apply (Hslices key l). apply Hin. exact Hkl.
    - simpl. change (map fst visit) with (visit.*1). rewrite Hvisit.
      apply NoDup_fst_map_to_list.
    - split.
      + intros l o Ho. rewrite lookup_insert_ne by congruence. exact Ho.
      + exists ∅. split; [apply lookup_insert_eq|].
        intros key. rewrite lookup_empty. intros l []. }
  cbn [Header]. unfold Header_Set, alloc. cbv beta iota zeta.
  assert (hc !! fresh (dom hc) = None) as Hfresh
    by (apply not_elem_of_dom, is_fresh).
  set (ua := fresh (dom hc)) in *.
  assert (ua <> m) as Hum by congruence.
  assert (entriesAt (<[ua:=Values [agent]]> hc) m = entries) as ->.
  { unfold entriesAt. rewrite lookup_insert_ne by exact Hum. rewrite Hmap.
    reflexivity. }
  do 2 eexists. split; [reflexivity|]. split.
  { destruct (inner _ _) as [h3 [resp|]]; reflexivity. }
  split; [|split; [exact Hm|split; [|split; [|reflexivity]]]].
  - intros l o Ho. assert (l <> m) by congruence.
    assert (l <> ua) by (pose proof (Hframe _ _ Ho); congruence).
    rewrite !lookup_insert_ne by congruence. apply Hframe, Ho.
  - intros key l. unfold entriesAt. rewrite lookup_insert_eq.
    destruct (decide (key = b "User-Agent")) as [->|Hk].
    + rewrite lookup_insert_eq. intros H. injection H as <-.
      destruct (h !! ua) as [o|] eqn:Eo; [|reflexivity].
      apply Hframe in Eo. congruence.
    + rewrite lookup_insert_ne by congruence. intros H.
      specialize (Hentries key). rewrite H in Hentries. apply Hentries.
  - intros key. unfold headerValues at 1. unfold entriesAt at 1.
    rewrite lookup_insert_eq.
    destruct (decide (key = b "User-Agent")) as [->|Hk].
    + rewrite lookup_insert_eq. simpl. unfold valuesAt.
      rewrite lookup_insert_ne by congruence. rewrite lookup_insert_eq.
      reflexivity.
    + rewrite lookup_insert_ne by congruence. unfold headerValues.
      rewrite Hsrc'. specialize (Hentries key).
      destruct (entries !! key) as [nl|].
      * destruct Hentries as (Hn & l & Hl & Hv). apply Hin in Hl. rewrite Hl.
        simpl. f_equal. unfold valuesAt at 1.
        assert (nl <> m) by congruence. assert (nl <> ua) by congruence.
        rewrite !lookup_insert_ne by congruence. rewrite Hv. reflexivity.
      * destruct (src !! key) as [l|] eqn:El; [|reflexivity].
        apply Hin in El. destruct (Hentries l El).
Qed.


Lemma RoundTrip_leaves_request_witness :
  let h : heap := <[0 := HeaderMap (<[b "Accept" := 1]> ∅)]>
                  (<[1 := Values [b "text/plain"]]> ∅) in
  let req := {| Header := 0; otherFields := 7 |} in
  let inner := fun (h' : heap) (_ : Request) => (h', Some 200) in
  let agent := b "NGINX-Prometheus-Exporter/v1" in
  let visit := [(b "Accept", 1)] in
  exists h2 req',
    outgoing agent visit h req = (h2, req') /\
    RoundTrip inner agent visit h req =
      (let (h3, response) := inner h2 req' in
       (h3, response,
        match response with
        | Some _ => None
        | None => Some (b "round trip failed")
        end)) /\
    (forall l o, h !! l = Some o -> h2 !! l = Some o) /\
    h !! Header req' = None /\
    (forall key l, entriesAt h2 (Header req') !! key = Some l -> h !! l = None) /\
    (forall key,
       headerValues h2 (Header req') key =
       if decide (key = b "User-Agent") then Some [agent]
       else headerValues h (Header req) key) /\
    otherFields req' = otherFields req.
Proof.
  cbv zeta.
  apply (RoundTrip_leaves_request
           (fun (h' : heap) (_ : Request) => (h', Some 200))
           (b "NGINX-Prometheus-Exporter/v1") [(b "Accept", 1)]
           (<[0 := HeaderMap (<[b "Accept" := 1]> ∅)]>
              (<[1 := Values [b "text/plain"]]> ∅))
           {| Header := 0; otherFields := 7 |}).
  - split.
    + eexists. cbn [Header]. apply lookup_insert_eq.
    + intros key l. unfold entriesAt. cbn [Header]. rewrite lookup_insert_eq.
      intros H. apply lookup_insert_Some in H as [[_ <-]|[_ H]].
      * eexists. rewrite lookup_insert_ne by discriminate.
        apply lookup_insert_eq.
      * rewrite lookup_empty in H. discriminate.
  - unfold entriesAt. cbn [Header]. rewrite lookup_insert_eq.
    rewrite insert_empty, map_to_list_singleton. reflexivity.
Defined.

End Requests.

(** ** The maps of the client *)

Section BothMaps.
Import client.

Variable extract : World -> gostring -> list gostring * error.
Variable w : World.

(** X27.  The two maps of the [CustomStats] that [GetCustomStats] returns
    have the same keys: a file has a modification time exactly when it has
    a list of health results, which may be empty. *)
Theorem GetCustomStats_maps_agree (nginxConfigPath file : gostring) :
  exists customStats,
    GetCustomStats extract w nginxConfigPath = (Some customStats, None) /\
    (is_Some (ModifiedTimes customStats !! file) <->
     is_Some (UpstreamHealths customStats !! file)).
Proof.
  eexists. split; [reflexivity|].
  apply (fold_left_invariant
           (fun cs : CustomStats =>
              is_Some (ModifiedTimes cs !! file) <->
              is_Some (UpstreamHealths cs !! file))).
  - intros f cs _ Hcs. unfold customStatsStep.
    destruct (wStat w f) as [info|]; [|exact Hcs].
    destruct (extract w f) as [targets e]. cbn [ModifiedTimes UpstreamHealths].
    destruct (decide (f = file)) as [->|Hne].
    + rewrite !lookup_insert_eq. split; intros _; eexists; reflexivity.
    + rewrite !lookup_insert_ne by exact Hne. exact Hcs.
  - cbn [ModifiedTimes UpstreamHealths]. rewrite !lookup_empty.
    split; intros [x H]; discriminate.
Qed.

End BothMaps.
